(** * prowl: a command line client for the Prowl notification API

    A shallow embedding of [prowl.py] and the properties of its argument
    normalisation, its settings store and its request composition.

    Python values are modelled as follows.
    - [str] and [bytes] are Rocq strings; a character is a code point below
      256.  Text the program handles beyond that range is outside the model.
    - [int] is [Z]; the interpreter's refusal to convert between text and
      an [int] of more than 4300 digits is part of [json.dumps] and
      [json.loads] here.
    - [None], [bool], [int], [str], [list] and [dict] with [str] keys form the
      type [json]; a [dict] is an association list in insertion order, and
      [wf_json] says that its keys are pairwise distinct, as in every Python
      dict.  Floating point numbers are not modelled.
    - An exception is a value of [exn]; a computation that can raise returns
      a [result].
    - The file system, the error stream and the requests sent over the
      network form the [world], threaded through the effectful functions. *)

From Stdlib Require Import ZArith Decimal DecimalString DecimalZ Ascii String.
From stdpp Require Import base option list gmap strings.

Local Open Scope string_scope.
Local Open Scope Z_scope.

(** Let [simpl] compute the concatenation of strings. *)
#[local] Arguments String.append !_ _ / : simpl nomatch.
#[local] Arguments Ascii.eqb : simpl never.

(** ** Values *)

#[local] Set Warnings "-register-all".

Inductive json :=
| JNull
| JBool (b : bool)
| JInt (z : Z)
| JStr (s : string)
| JList (l : list json)
| JDict (m : list (string * json)).

(** Objects that are not JSON values but reach an exception or a message. *)
Inductive pyobj :=
| OJson (j : json)
| OBytes (b : string).

Inductive exn :=
| UserError (msg : string) (args : list pyobj)
| KeyboardInterrupt
| SystemExit (code : Z)
| OSError (what : string)
| ValueError (what : string)
| TypeError (what : string)
| AttributeError (what : string)
| IndexError (what : string).

Inductive result (A : Type) :=
| Ok (a : A)
| Raise (e : exn).
Arguments Ok {A} a.
Arguments Raise {A} e.

Definition is_ok {A} (r : result A) : bool :=
  match r with Ok _ => true | Raise _ => false end.

(** ** Strings *)

Module Str.

Definition newline : ascii := "010"%char.
Definition sep : ascii := "/"%char.
Definition dquote : ascii := "034"%char.
Definition backslash : ascii := "092"%char.

Definition char_le (a b : ascii) : bool := (nat_of_ascii a <=? nat_of_ascii b)%nat.

Fixpoint all (p : ascii -> bool) (s : string) : bool :=
  match s with
  | EmptyString => true
  | String c r => p c && all p r
  end.

Fixpoint contains (c : ascii) (s : string) : bool :=
  match s with
  | EmptyString => false
  | String d r => Ascii.eqb c d || contains c r
  end.

Fixpoint join (sepr : string) (l : list string) : string :=
  match l with
  | [] => ""
  | [x] => x
  | x :: r => x ++ sepr ++ join sepr r
  end.

(** The pieces of a text, put together. *)
Definition cat (l : list string) : string := fold_right String.append "" l.

Fixpoint ends_with (c : ascii) (s : string) : bool :=
  match s with
  | EmptyString => false
  | String d EmptyString => Ascii.eqb c d
  | String _ r => ends_with c r
  end.

(** [str(n)] for an [int]. *)
Definition of_Z (z : Z) : string := NilZero.string_of_int (Z.to_int z).

Definition hex_digit (n : nat) : ascii :=
  match n with
  | 0 => "0" | 1 => "1" | 2 => "2" | 3 => "3" | 4 => "4" | 5 => "5"
  | 6 => "6" | 7 => "7" | 8 => "8" | 9 => "9" | 10 => "a" | 11 => "b"
  | 12 => "c" | 13 => "d" | 14 => "e" | _ => "f"
  end%nat%char.

(** Two lowercase hexadecimal digits of a code point below 256. *)
Definition hex2 (c : ascii) : string :=
  let n := nat_of_ascii c in
  String (hex_digit (n / 16)) (String (hex_digit (n mod 16)) "").

Definition printable (c : ascii) : bool :=
  char_le " " c && char_le c "~".

(** [repr(s)] for a [str]: single quotes unless the text has a single
    quote and no double quote. *)
Definition repr_char (q c : ascii) : string :=
  if Ascii.eqb c backslash then "\\"
  else if Ascii.eqb c q then String backslash (String c "")
  else if Ascii.eqb c newline then "\n"
  else if Ascii.eqb c "013" then "\r"
  else if Ascii.eqb c "009" then "\t"
  else if printable c || char_le "161" c && negb (Ascii.eqb c "173")
  then String c ""
  else "\x" ++ hex2 c.

Fixpoint repr_body (q : ascii) (s : string) : string :=
  match s with
  | EmptyString => ""
  | String c r => repr_char q c ++ repr_body q r
  end.

Definition quote_of (s : string) : ascii :=
  if contains "'" s && negb (contains dquote s) then dquote else "'"%char.

Definition repr (s : string) : string :=
  let q := quote_of s in
  String q (repr_body q s ++ String q "").

(** [repr(b)] for [bytes]. *)
Definition bytes_repr_char (q c : ascii) : string :=
  if Ascii.eqb c backslash then "\\"
  else if Ascii.eqb c q then String backslash (String c "")
  else if Ascii.eqb c newline then "\n"
  else if Ascii.eqb c "013" then "\r"
  else if Ascii.eqb c "009" then "\t"
  else if printable c then String c ""
  else "\x" ++ hex2 c.

Fixpoint bytes_repr_body (q : ascii) (s : string) : string :=
  match s with
  | EmptyString => ""
  | String c r => bytes_repr_char q c ++ bytes_repr_body q r
  end.

Definition bytes_repr (b : string) : string :=
  let q := quote_of b in
  String "b" (String q (bytes_repr_body q b ++ String q "")).

End Str.

#[local] Arguments Str.join : simpl never.

(** [repr] and [str] of the values of the model. *)
Fixpoint json_repr (j : json) : string :=
  match j with
  | JNull => "None"
  | JBool true => "True"
  | JBool false => "False"
  | JInt z => Str.of_Z z
  | JStr s => Str.repr s
  | JList l => "[" ++ Str.join ", " (map json_repr l) ++ "]"
  | JDict m =>
      "{" ++ Str.join ", "
               (map (fun kv => Str.repr (fst kv) ++ ": " ++ json_repr (snd kv)) m)
          ++ "}"
  end.

Definition py_repr (o : pyobj) : string :=
  match o with
  | OJson j => json_repr j
  | OBytes b => Str.bytes_repr b
  end.

Definition py_str (o : pyobj) : string :=
  match o with
  | OJson (JStr s) => s
  | _ => py_repr o
  end.

(** [repr] of a tuple. *)
Definition tuple_repr (l : list pyobj) : string :=
  match l with
  | [x] => "(" ++ py_repr x ++ ",)"
  | _ => "(" ++ Str.join ", " (map py_repr l) ++ ")"
  end.

(** [template.format( *args )] for templates whose only replacement fields
    are the automatically numbered [{}]. *)
Fixpoint format (template : string) (args : list string) : result string :=
  match template with
  | String "{" (String "}" r) =>
      match args with
      | a :: args' =>
          match format r args' with
          | Ok s => Ok (a ++ s)
          | Raise e => Raise e
          end
      | [] => Raise (IndexError "Replacement index out of range")
      end
  | String c r =>
      match format r args with
      | Ok s => Ok (String c s)
      | Raise e => Raise e
      end
  | EmptyString => Ok ""
  end.

(** ** Regular expressions

    The fragment of Python's [re] that the program uses: a character class
    given by ranges, a counted repetition, sequencing and the anchor [$],
    which without [re.MULTILINE] matches at the end of the text and just
    before a newline that ends the text. *)

Module Re.

Inductive regex :=
| Class (ranges : list (ascii * ascii))
| Repeat (r : regex) (n : nat)
| Dollar
| Seq (r1 r2 : regex).

Definition in_class (ranges : list (ascii * ascii)) (c : ascii) : bool :=
  existsb (fun lohi => Str.char_le (fst lohi) c && Str.char_le c (snd lohi)) ranges.

Definition at_dollar (s : string) : bool :=
  match s with
  | EmptyString => true
  | String c EmptyString => Ascii.eqb c Str.newline
  | _ => false
  end.

(** Backtracking matcher: [k] receives the text left after the match. *)
Fixpoint matches (r : regex) (s : string) (k : string -> bool) : bool :=
  match r with
  | Class ranges =>
      match s with
      | String c s' => in_class ranges c && k s'
      | EmptyString => false
      end
  | Repeat r' n =>
      (fix rep (n : nat) (s : string) : bool :=
         match n with
         | O => k s
         | S m => matches r' s (rep m)
         end) n s
  | Dollar => at_dollar s && k s
  | Seq r1 r2 => matches r1 s (fun s' => matches r2 s' k)
  end.

(** [re.match(pattern, text)] is anchored at the start of the text only. *)
Definition py_match (pattern : regex) (text : string) : bool :=
  matches pattern text (fun _ => true).

End Re.

(** ** Argument types *)

(** The pattern ['[0-9a-f]{40}$']. *)
Definition api_key_pattern : Re.regex :=
  Re.Seq (Re.Repeat (Re.Class [("0", "9"); ("a", "f")]%char) 40) Re.Dollar.

(** ** Errors of the user *)

(** [UserError(msg, *args)]: [__init__] formats the message and keeps it in
    the attribute [message]; the exception object itself keeps every
    constructor argument, [msg] included, in its [args]. *)
Definition UserError_new (msg : string) (args : list pyobj) : exn :=
  match format msg (map py_str args) with
  | Ok _ => UserError msg args
  | Raise e => e
  end.

(** The attribute [message] of a [UserError]. *)
Definition message (e : exn) : string :=
  match e with
  | UserError msg args =>
      match format msg (map py_str args) with
      | Ok m => m
      | Raise _ => ""
      end
  | _ => ""
  end.

(** [str(e)] for an exception built from positional arguments. *)
Definition exn_str (e : exn) : string :=
  match e with
  | UserError msg [] => msg
  | UserError msg args => tuple_repr (OJson (JStr msg) :: args)
  | _ => ""
  end.

Definition api_key_type (value : string) : result string :=
  if negb (Re.py_match api_key_pattern value)
  then Raise (UserError_new "Invalid API key specified." [])
  else Ok value.

Definition api_argument_type (value : string) : string :=
  if String.eqb value "0" then value ++ " " else value.

(** ** Command line

    What the argument parser has recognised on the command line, before the
    [type] conversions: the positional arguments in order and the text given
    to each option ([None] when the option is absent).  The conversion of
    [--priority] by [int] is part of the parser: [raw_priority] is the
    integer it produced.  A command line with [-h] or [--help] is the
    [Help] of [invocation] below.  What the parser prints by itself, the
    help text and the usage with its error message, is not part of the
    [world]. *)

Record command_line := {
  positionals : list string;
  raw_application : option string;
  raw_url : option string;
  raw_priority : option Z;
  raw_api_key : option string;
  raw_set_api_key : option string
}.

(** The [Namespace] that [parser.parse_args()] returns. *)
Record namespace := {
  event : option string;
  description : option string;
  application : option string;
  url : option string;
  priority : Z;
  api_key : option string;
  set_api_key : option string
}.

Definition convert_key (raw : option string) : result (option string) :=
  match raw with
  | None => Ok None
  | Some v =>
      match api_key_type v with
      | Ok k => Ok (Some k)
      | Raise e => Raise e
      end
  end.

(** [parser.parse_args()]: two optional positionals, each option converted
    by its [type], [--priority] defaulting to 0.  More than two positionals
    make the parser itself exit with status 2; an exception of a [type]
    function that is not one the parser catches leaves [parse_args]. *)
Definition argparse (c : command_line) : result namespace :=
  match convert_key (raw_api_key c), convert_key (raw_set_api_key c) with
  | Raise e, _ => Raise e
  | _, Raise e => Raise e
  | Ok k, Ok sk =>
      let mk ev de :=
        Ok {| event := ev; description := de;
              application := api_argument_type <$> raw_application c;
              url := raw_url c;
              priority := default 0 (raw_priority c);
              api_key := k; set_api_key := sk |} in
      match positionals c with
      | [] => mk None None
      | [e] => mk (Some (api_argument_type e)) None
      | [e; d] => mk (Some (api_argument_type e)) (Some (api_argument_type d))
      | _ => Raise (SystemExit 2)
      end
  end.

Definition with_event (ev : option string) (a : namespace) : namespace :=
  {| event := ev; description := description a; application := application a;
     url := url a; priority := priority a; api_key := api_key a;
     set_api_key := set_api_key a |}.

Definition with_description (de : option string) (a : namespace) : namespace :=
  {| event := event a; description := de; application := application a;
     url := url a; priority := priority a; api_key := api_key a;
     set_api_key := set_api_key a |}.

Definition missing_description : exn :=
  UserError_new "Required argument `description' missing." [].

Definition invalid_priority (p : Z) : exn :=
  UserError_new "Invalid value for --priority: {}" [OJson (JInt p)].

Definition exclusive_set_api_key : exn :=
  UserError_new "Cannot use --set-api-key with any other arguments or options." [].

(** The checks of [parse_args] on the parsed arguments. *)
Definition normalize (args : namespace) : result namespace :=
  match set_api_key args with
  | None =>
      (* If no event is given, the description is actually stored in event. *)
      match
        (match event args with
         | None =>
             match url args with
             | None => Raise missing_description
             | Some u => Ok (with_event (Some u) args)
             end
         | Some _ => Ok args
         end)
      with
      | Raise e => Raise e
      | Ok args =>
          let args :=
            match description args with
            | None => with_event None (with_description (event args) args)
            | Some _ => args
            end in
          if negb ((-2 <=? priority args) && (priority args <=? 2))
          then Raise (invalid_priority (priority args))
          else Ok args
      end
  | Some _ =>
      if bool_decide (event args <> None)
         || bool_decide (description args <> None)
         || bool_decide (application args <> None)
         || bool_decide (url args <> None)
         || negb (priority args =? 0)
         || bool_decide (api_key args <> None)
      then Raise exclusive_set_api_key
      else Ok args
  end.

Definition parse_args (c : command_line) : result namespace :=
  match argparse c with
  | Ok args => normalize args
  | Raise e => Raise e
  end.

(** ** File system

    A path names a regular file with its content, a directory, or nothing.
    There are no links: two paths never name the same file. *)

Inductive node :=
| File (data : string)
| Dir.

Module Os.

Definition exists_ (fs : gmap string node) (p : string) : bool :=
  bool_decide (is_Some (fs !! p)).

(** [p[:p.rfind('/') + 1]] *)
Fixpoint head_of (p : string) : string :=
  match p with
  | EmptyString => ""
  | String c r =>
      match head_of r with
      | EmptyString => if Ascii.eqb c Str.sep then String c "" else ""
      | h => String c h
      end
  end.

(** [s.rstrip('/')] *)
Fixpoint rstrip_sep (s : string) : string :=
  match s with
  | EmptyString => ""
  | String c r =>
      match rstrip_sep r with
      | EmptyString => if Ascii.eqb c Str.sep then "" else String c ""
      | r' => String c r'
      end
  end.

Definition all_sep (s : string) : bool := Str.all (Ascii.eqb Str.sep) s.

(** [os.path.dirname] *)
Definition dirname (p : string) : string :=
  let head := head_of p in
  if negb (String.eqb head "") && negb (all_sep head)
  then rstrip_sep head
  else head.

(** [os.path.join(a, b)] *)
Definition join (a b : string) : string :=
  match b with
  | String "/" _ => b
  | _ =>
      if String.eqb a "" || Ascii.eqb (default Str.sep (last (list_ascii_of_string a))) Str.sep
      then a ++ b
      else a ++ "/" ++ b
  end.

(** The directories [os.makedirs(d)] goes through, outermost first: the
    prefixes of [d] that end a path component. *)
Fixpoint ancestors_from (pre : string) (in_name : bool) (rest : string) : list string :=
  match rest with
  | EmptyString => if in_name then [pre] else []
  | String c r =>
      if Ascii.eqb c Str.sep
      then (if in_name then [pre] else []) ++ ancestors_from (pre ++ String c "") false r
      else ancestors_from (pre ++ String c "") true r
  end.

Definition ancestors (d : string) : list string := ancestors_from "" false d.

Fixpoint mkdir_all (targets : list string) (fs : gmap string node)
  : result (gmap string node) :=
  match targets with
  | [] => Raise (OSError "FileNotFoundError")
  | [t] =>
      match fs !! t with
      | Some _ => Raise (OSError "FileExistsError")
      | None => Ok (<[t := Dir]> fs)
      end
  | t :: ts =>
      match fs !! t with
      | Some Dir => mkdir_all ts fs
      | Some (File _) => Raise (OSError "NotADirectoryError")
      | None => mkdir_all ts (<[t := Dir]> fs)
      end
  end.

Definition makedirs (d : string) (fs : gmap string node) : result (gmap string node) :=
  mkdir_all (ancestors d) fs.

(** The directory of a file to create must exist; the current directory,
    named by the empty path, always does. *)
Definition is_dir (fs : gmap string node) (d : string) : bool :=
  String.eqb d "" || match fs !! d with Some Dir => true | _ => false end.

(** Whether a path on the way to [d], or [d] itself, names a regular file. *)
Definition under_file (fs : gmap string node) (d : string) : bool :=
  existsb (fun q => match fs !! q with Some (File _) => true | _ => false end)
    (ancestors d).

(** [open(p, 'wb')]: creates the file, or empties it.  Without the
    directory to create it in, the error tells a regular file in the way
    from a missing directory. *)
Definition open_wb (p : string) (fs : gmap string node) : result (gmap string node) :=
  match fs !! p with
  | Some Dir => Raise (OSError "IsADirectoryError")
  | _ =>
      if is_dir fs (dirname p)
      then Ok (<[p := File ""]> fs)
      else if under_file fs (dirname p)
      then Raise (OSError "NotADirectoryError")
      else Raise (OSError "FileNotFoundError")
  end.

(** One transfer of buffered data to the open file. *)
Definition write (p chunk : string) (fs : gmap string node) : result (gmap string node) :=
  match fs !! p with
  | Some (File d) => Ok (<[p := File (d ++ chunk)]> fs)
  | _ => Raise (OSError "EBADF")
  end.

(** [os.rename(src, dst)] for a regular file [src]. *)
Definition rename (src dst : string) (fs : gmap string node) : result (gmap string node) :=
  match fs !! src with
  | Some (File d) =>
      match fs !! dst with
      | Some Dir => Raise (OSError "IsADirectoryError")
      | _ => Ok (<[dst := File d]> (delete src fs))
      end
  | Some Dir => Raise (OSError "rename of a directory")
  | None => Raise (OSError "FileNotFoundError")
  end.

(** [open(p, 'rb').read()] *)
Definition read (p : string) (fs : gmap string node) : result string :=
  match fs !! p with
  | Some (File d) => Ok d
  | Some Dir => Raise (OSError "IsADirectoryError")
  | None => Raise (OSError "FileNotFoundError")
  end.

(** The steps of the file system that another process can observe. *)
Inductive op :=
| MakeDirs (d : string)
| OpenWb (p : string)
| Write (p chunk : string)
| Rename (src dst : string).

Definition step (o : op) (fs : gmap string node) : result (gmap string node) :=
  match o with
  | MakeDirs d => makedirs d fs
  | OpenWb p => open_wb p fs
  | Write p chunk => write p chunk fs
  | Rename src dst => rename src dst fs
  end.

(** The states the file system goes through while the steps run; the run
    stops at the first step that raises. *)
Fixpoint trace (ops : list op) (fs : gmap string node) : list (gmap string node) :=
  match ops with
  | [] => []
  | o :: ops' =>
      match step o fs with
      | Ok fs' => fs' :: trace ops' fs'
      | Raise _ => []
      end
  end.

Fixpoint run (ops : list op) (fs : gmap string node) : result unit * gmap string node :=
  match ops with
  | [] => (Ok tt, fs)
  | o :: ops' =>
      match step o fs with
      | Ok fs' => run ops' fs'
      | Raise e => (Raise e, fs)
      end
  end.

End Os.

(** ** JSON

    [json.dumps] and [json.loads] with their default settings, on the
    values of the model.  Numbers with a fraction or an exponent and the
    escapes of code points from 256 on are outside the model: [loads]
    rejects them, so a text it rejects need not be one the library
    rejects, while a value it returns is the one the library returns.  The
    interpreter's recursion limit, met by values nested some thousand
    levels deep, is outside the model too. *)

Module Json.

(** *** Encoder *)

Definition escape_char (c : ascii) : string :=
  if Ascii.eqb c Str.dquote then String Str.backslash (String Str.dquote "")
  else if Ascii.eqb c Str.backslash then "\\"
  else if Ascii.eqb c "010" then "\n"
  else if Ascii.eqb c "013" then "\r"
  else if Ascii.eqb c "009" then "\t"
  else if Ascii.eqb c "008" then "\b"
  else if Ascii.eqb c "012" then "\f"
  else if Str.printable c then String c ""
  else "\u00" ++ Str.hex2 c.

Fixpoint escape (s : string) : string :=
  match s with
  | EmptyString => ""
  | String c r => escape_char c ++ escape r
  end.

Definition encode_str (s : string) : string :=
  String Str.dquote (escape s ++ String Str.dquote "").

Fixpoint dumps (j : json) : string :=
  match j with
  | JNull => "null"
  | JBool true => "true"
  | JBool false => "false"
  | JInt z => Str.of_Z z
  | JStr s => encode_str s
  | JList l => "[" ++ Str.join ", " (map dumps l) ++ "]"
  | JDict m =>
      "{" ++ Str.join ", "
               (map (fun kv => encode_str (fst kv) ++ ": " ++ dumps (snd kv)) m)
          ++ "}"
  end.

(** The interpreter refuses to convert between text and an [int] of more
    than 4300 decimal digits, in either direction. *)
Definition max_str_digits : Z := 4300.

Definition int_ok (z : Z) : bool :=
  Z.of_nat (String.length (Str.of_Z (Z.abs z))) <=? max_str_digits.

Fixpoint within_limit (j : json) : bool :=
  match j with
  | JInt z => int_ok z
  | JList l => forallb within_limit l
  | JDict m => forallb (fun kv => within_limit (snd kv)) m
  | _ => true
  end.

(** The call [json.dumps(j)]: it returns the text [dumps j], or raises
    when [j] holds an [int] too long to print. *)
Definition try_dumps (j : json) : result string :=
  if within_limit j then Ok (dumps j)
  else Raise (ValueError "Exceeds the limit (4300 digits) for integer string conversion").

(** *** Dictionaries *)

(** [d.get(key, default)] *)
Fixpoint dict_get (m : list (string * json)) (key : string) (dflt : json) : json :=
  match m with
  | [] => dflt
  | (k, v) :: r => if String.eqb k key then v else dict_get r key dflt
  end.

(** [d[key] = value]: a present key keeps its place, a new one goes last. *)
Fixpoint dict_set (m : list (string * json)) (key : string) (value : json)
  : list (string * json) :=
  match m with
  | [] => [(key, value)]
  | (k, v) :: r =>
      if String.eqb k key then (k, value) :: r else (k, v) :: dict_set r key value
  end.

(** [dict(pairs)] *)
Definition dict_of_pairs (pairs : list (string * json)) : list (string * json) :=
  fold_left (fun m kv => dict_set m (fst kv) (snd kv)) pairs [].

(** *** Decoder *)

Definition is_ws (c : ascii) : bool :=
  Ascii.eqb c " " || Ascii.eqb c "009" || Ascii.eqb c "010" || Ascii.eqb c "013".

Fixpoint skip_ws (s : string) : string :=
  match s with
  | String c r => if is_ws c then skip_ws r else s
  | EmptyString => ""
  end.

Definition is_digit (c : ascii) : bool := Str.char_le "0" c && Str.char_le c "9".

Definition hex_value (c : ascii) : option nat :=
  let n := nat_of_ascii c in
  if is_digit c then Some (n - 48)%nat
  else if Str.char_le "a" c && Str.char_le c "f" then Some (n - 87)%nat
  else if Str.char_le "A" c && Str.char_le c "F" then Some (n - 55)%nat
  else None.

Definition hex4 (a b c d : ascii) : option nat :=
  match hex_value a, hex_value b, hex_value c, hex_value d with
  | Some x, Some y, Some z, Some w => Some (((x * 16 + y) * 16 + z) * 16 + w)%nat
  | _, _, _, _ => None
  end.

Definition unescape (e : ascii) : option ascii :=
  if Ascii.eqb e Str.dquote then Some Str.dquote
  else if Ascii.eqb e Str.backslash then Some Str.backslash
  else if Ascii.eqb e "/" then Some "/"%char
  else if Ascii.eqb e "b" then Some "008"%char
  else if Ascii.eqb e "f" then Some "012"%char
  else if Ascii.eqb e "n" then Some "010"%char
  else if Ascii.eqb e "r" then Some "013"%char
  else if Ascii.eqb e "t" then Some "009"%char
  else None.

Definition cons_char (c : ascii) (r : option (string * string)) : option (string * string) :=
  match r with
  | Some (s, rest) => Some (String c s, rest)
  | None => None
  end.

(** The text of a string literal, read from just after its opening quote,
    and what follows its closing quote. *)
Fixpoint scan_string (s : string) : option (string * string) :=
  match s with
  | EmptyString => None
  | String c r =>
      if Ascii.eqb c Str.dquote then Some ("", r)
      else if Ascii.eqb c Str.backslash then
        match r with
        | String "u" (String h1 (String h2 (String h3 (String h4 r')))) =>
            match hex4 h1 h2 h3 h4 with
            | Some n =>
                if (n <? 256)%nat then cons_char (ascii_of_nat n) (scan_string r')
                else None
            | None => None
            end
        | String e r' =>
            match unescape e with
            | Some c' => cons_char c' (scan_string r')
            | None => None
            end
        | EmptyString => None
        end
      else if Str.char_le " " c then cons_char c (scan_string r)
      else None
  end.

Fixpoint span_digits (s : string) : string * string :=
  match s with
  | String c r =>
      if is_digit c then (String c (fst (span_digits r)), snd (span_digits r))
      else ("", s)
  | EmptyString => ("", "")
  end.

(** Whether a fraction or an exponent follows the integer part. *)
Definition float_tail (s : string) : bool :=
  match s with
  | String c (String d r) =>
      Ascii.eqb c "." && is_digit d
      || (Ascii.eqb c "e" || Ascii.eqb c "E")
         && (is_digit d
             || (Ascii.eqb d "+" || Ascii.eqb d "-")
                && match r with String d' _ => is_digit d' | EmptyString => false end)
  | _ => false
  end.

Definition finish_number (neg : bool) (digits rest : string) : option (json * string) :=
  if float_tail rest then None
  else if negb (Z.of_nat (String.length digits) <=? max_str_digits) then None
  else
    match NilEmpty.uint_of_string digits with
    | Some u => Some (JInt (if neg then - Z.of_uint u else Z.of_uint u), rest)
    | None => None
    end.

Definition scan_unsigned (neg : bool) (s : string) : option (json * string) :=
  match s with
  | String c r =>
      if Ascii.eqb c "0" then finish_number neg "0" r
      else if is_digit c
      then finish_number neg (String c (fst (span_digits r))) (snd (span_digits r))
      else None
  | EmptyString => None
  end.

Definition scan_number (s : string) : option (json * string) :=
  match s with
  | String c r => if Ascii.eqb c "-" then scan_unsigned true r else scan_unsigned false s
  | EmptyString => None
  end.

(** The items of an array, read from the start of the first one. *)
Fixpoint scan_items (scan : string -> option (json * string)) (n : nat) (s : string)
  : option (list json * string) :=
  match n with
  | O => None
  | S n' =>
      match scan s with
      | None => None
      | Some (v, r) =>
          match skip_ws r with
          | String c r' =>
              if Ascii.eqb c "]" then Some ([v], r')
              else if Ascii.eqb c "," then
                match scan_items scan n' (skip_ws r') with
                | Some (vs, r'') => Some (v :: vs, r'')
                | None => None
                end
              else None
          | EmptyString => None
          end
      end
  end.

(** The members of an object, read from the quote that opens the first key. *)
Fixpoint scan_members (scan : string -> option (json * string)) (n : nat) (s : string)
  : option (list (string * json) * string) :=
  match n with
  | O => None
  | S n' =>
      match s with
      | String q r =>
          if negb (Ascii.eqb q Str.dquote) then None
          else
            match scan_string r with
            | None => None
            | Some (k, r1) =>
                match skip_ws r1 with
                | String c r2 =>
                    if negb (Ascii.eqb c ":") then None
                    else
                      match scan (skip_ws r2) with
                      | None => None
                      | Some (v, r3) =>
                          match skip_ws r3 with
                          | String c' r4 =>
                              if Ascii.eqb c' "}" then Some ([(k, v)], r4)
                              else if Ascii.eqb c' "," then
                                match scan_members scan n' (skip_ws r4) with
                                | Some (kvs, r5) => Some ((k, v) :: kvs, r5)
                                | None => None
                                end
                              else None
                          | EmptyString => None
                          end
                      end
                | EmptyString => None
                end
            end
      | EmptyString => None
      end
  end.

(** [s[len(p):]] when [s] starts with [p]. *)
Fixpoint strip_prefix (p s : string) : option string :=
  match p with
  | EmptyString => Some s
  | String a p' =>
      match s with
      | String b s' => if Ascii.eqb a b then strip_prefix p' s' else None
      | EmptyString => None
      end
  end.

Definition scan_literal (s : string) : option (json * string) :=
  match strip_prefix "null" s with
  | Some r => Some (JNull, r)
  | None =>
      match strip_prefix "true" s with
      | Some r => Some (JBool true, r)
      | None =>
          match strip_prefix "false" s with
          | Some r => Some (JBool false, r)
          | None => scan_number s
          end
      end
  end.

(** One value, read from its first character; [fuel] bounds the nesting. *)
Fixpoint scan_once (fuel : nat) (s : string) : option (json * string) :=
  match fuel with
  | O => None
  | S fuel' =>
      match s with
      | String c r =>
          if Ascii.eqb c Str.dquote then
            match scan_string r with
            | Some (t, r') => Some (JStr t, r')
            | None => None
            end
          else if Ascii.eqb c "{" then
            match skip_ws r with
            | String c' r' =>
                if Ascii.eqb c' "}" then Some (JDict [], r')
                else
                  match scan_members (scan_once fuel') (String.length r) (String c' r') with
                  | Some (kvs, r'') => Some (JDict (dict_of_pairs kvs), r'')
                  | None => None
                  end
            | EmptyString => None
            end
          else if Ascii.eqb c "[" then
            match skip_ws r with
            | String c' r' =>
                if Ascii.eqb c' "]" then Some (JList [], r')
                else
                  match scan_items (scan_once fuel') (String.length r) (String c' r') with
                  | Some (vs, r'') => Some (JList vs, r'')
                  | None => None
                  end
            | EmptyString => None
            end
          else scan_literal s
      | EmptyString => None
      end
  end.

(** [json.loads(text)]: one value, with white space around it only. *)
Definition loads (text : string) : result json :=
  match scan_once (S (String.length text)) (skip_ws text) with
  | Some (v, rest) =>
      match skip_ws rest with
      | EmptyString => Ok v
      | _ => Raise (ValueError "JSONDecodeError: Extra data")
      end
  | None => Raise (ValueError "JSONDecodeError")
  end.

End Json.

(** Keys of every dictionary inside a value are pairwise distinct. *)
Fixpoint wf_json (j : json) : Prop :=
  match j with
  | JList l => (fix all (l : list json) : Prop :=
                  match l with [] => True | x :: r => wf_json x /\ all r end) l
  | JDict m => NoDup (map fst m)
               /\ (fix all (m : list (string * json)) : Prop :=
                     match m with [] => True | kv :: r => wf_json (snd kv) /\ all r end) m
  | _ => True
  end.

(** Nesting depth of a value. *)
Fixpoint depth (j : json) : nat :=
  match j with
  | JList l => S (fold_right (fun x d => Nat.max (depth x) d) O l)
  | JDict m => S (fold_right (fun kv d => Nat.max (depth (snd kv)) d) O m)
  | _ => O
  end.

(** ** Text and bytes *)

Module Utf8.

Definition is_ascii (c : ascii) : bool := (nat_of_ascii c <? 128)%nat.

(** [text.encode()] *)
Fixpoint encode (text : string) : string :=
  match text with
  | EmptyString => ""
  | String c r =>
      let n := nat_of_ascii c in
      if is_ascii c then String c (encode r)
      else String (ascii_of_nat (192 + n / 64))
             (String (ascii_of_nat (128 + n mod 64)) (encode r))
  end.

(** [data.decode()]; a sequence that is malformed raises, and so does, in
    this model only, one that stands for a code point from 256 on. *)
Fixpoint decode (data : string) : result string :=
  match data with
  | EmptyString => Ok ""
  | String b r =>
      let n := nat_of_ascii b in
      if is_ascii b then
        match decode r with
        | Ok t => Ok (String b t)
        | Raise e => Raise e
        end
      else
        match r with
        | String b2 r' =>
            let n2 := nat_of_ascii b2 in
            if ((n =? 194) || (n =? 195))%nat && (128 <=? n2)%nat && (n2 <? 192)%nat
            then match decode r' with
                 | Ok t => Ok (String (ascii_of_nat ((n - 192) * 64 + (n2 - 128))) t)
                 | Raise e => Raise e
                 end
            else Raise (ValueError "UnicodeDecodeError")
        | EmptyString => Raise (ValueError "UnicodeDecodeError")
        end
  end.

End Utf8.

(** ** The world of one run *)

(** What the remote API answers to a request, or the user interrupting the
    wait for it. *)
Inductive reply :=
| Response (ok : bool) (content : string)
| Interrupted.

(** What the program reads from its surroundings. *)
Record environment := {
  program_name : string;   (* os.path.basename(sys.argv[0]) *)
  home : string;           (* os.path.expanduser('~') *)
  user : string;           (* getpass.getuser() *)
  host : string;           (* socket.gethostname() *)
  server : list (string * json) -> reply
}.

Record world := {
  fs : gmap string node;
  stderr : list string;
  posted : list (string * list (string * json))
}.

Definition M (A : Type) : Type := world -> result A * world.

Definition ret {A} (a : A) : M A := fun w => (Ok a, w).
Definition throw {A} (e : exn) : M A := fun w => (Raise e, w).
Definition bind {A B} (m : M A) (k : A -> M B) : M B :=
  fun w => match m w with
           | (Ok a, w') => k a w'
           | (Raise e, w') => (Raise e, w')
           end.
Definition lift {A} (r : result A) : M A := fun w => (r, w).

Notation "'let!' x ':=' m 'in' k" := (bind m (fun x => k))
  (at level 10, x name, m at level 200, k at level 200, only parsing).
Notation "'do!' m 'in' k" := (bind m (fun _ => k))
  (at level 10, m at level 200, k at level 200, only parsing).

Definition with_fs (f : gmap string node) (w : world) : world :=
  {| fs := f; stderr := stderr w; posted := posted w |}.

Definition log (env : environment) (msg : string) (args : list string) : M unit :=
  fun w =>
    match format msg args with
    | Raise e => (Raise e, w)
    | Ok m =>
        let line := program_name env ++ ": " ++ m in
        (Ok tt, {| fs := fs w; stderr := stderr w ++ [line]; posted := posted w |})
    end.

Definition read_file (path : string) : M string :=
  fun w => (Os.read path (fs w), w).

(** The steps of [write_file]; [chunks] are the pieces in which the
    buffered data reaches the temporary file. *)
Definition write_file_ops (dir_exists : bool) (path : string) (chunks : list string)
  : list Os.op :=
  let dir := Os.dirname path in
  let temp_path := path ++ "~" in
  (if negb dir_exists then [Os.MakeDirs dir] else [])
  ++ [Os.OpenWb temp_path]
  ++ map (Os.Write temp_path) chunks
  ++ [Os.Rename temp_path path].

Definition write_file (path data : string) : M unit :=
  fun w =>
    let ops := write_file_ops (Os.exists_ (fs w) (Os.dirname path)) path [data] in
    let '(r, f) := Os.run ops (fs w) in
    (r, with_fs f w).

(** ** Settings *)

Module Settings.

(** [_values] is [JNull], Python's [None], until the values are loaded. *)
Record t := { _path : string; _values : json }.

Definition init (path : string) : t := {| _path := path; _values := JNull |}.

Definition _load_values (self : t) : M t :=
  match _values self with
  | JNull =>
      fun w =>
        if Os.exists_ (fs w) (_path self)
        then (let! data := read_file (_path self) in
              let! text := lift (Utf8.decode data) in
              let! v := lift (Json.loads text) in
              ret {| _path := _path self; _values := v |}) w
        else (Ok {| _path := _path self; _values := JDict [] |}, w)
  | _ => ret self
  end.

Definition _save_values (self : t) : M unit :=
  match _values self with
  | JNull => ret tt
  | v =>
      let! text := lift (Json.try_dumps v) in
      write_file (_path self) (Utf8.encode text)
  end.

Definition get (key : string) (dflt : json) (self : t) : M (json * t) :=
  let! self := _load_values self in
  match _values self with
  | JDict m => ret (Json.dict_get m key dflt, self)
  | _ => throw (AttributeError "object has no attribute 'get'")
  end.

Definition set (key : string) (value : json) (self : t) : M t :=
  let! self := _load_values self in
  match _values self with
  | JDict m =>
      let self := {| _path := _path self; _values := JDict (Json.dict_set m key value) |} in
      do! _save_values self in
      ret self
  | _ => throw (TypeError "object does not support item assignment")
  end.

End Settings.

(** ** The request *)

Definition iter_arguments (api_key : json) (application : string)
    (url event description : option string) (priority : Z) : list (string * json) :=
  [("apikey", api_key); ("application", JStr application)]
  ++ match url with
     | Some u => [("url", JStr u)]
     | None => []
     end
  ++ match event with
     | Some e => [("event", JStr e)]
     | None => []
     end
  ++ match description with
     | Some (String _ _ as d) => [("description", JStr d)]
     | _ => []
     end
  ++ (if priority =? 0 then [] else [("priority", JInt priority)]).

Definition endpoint : string := "https://api.prowlapp.com/publicapi/add".

(** [requests.post(endpoint, fields)] *)
Definition post (env : environment) (fields : list (string * json)) : M reply :=
  fun w =>
    let w' := {| fs := fs w; stderr := stderr w; posted := posted w ++ [(endpoint, fields)] |} in
    match server env fields with
    | Interrupted => (Raise KeyboardInterrupt, w')
    | r => (Ok r, w')
    end.

Definition settings_path (env : environment) : string :=
  Os.join (home env) "opt/etc/prowl.json".

Definition missing_api_key : exn :=
  UserError_new "--api-key is mandatory if because default API key has been set." [].

Definition server_error (content : string) : exn :=
  UserError_new "Error received from server: {}" [OBytes content].

Definition main (env : environment) (args : namespace) : M unit :=
  let settings := Settings.init (settings_path env) in
  match set_api_key args with
  | None =>
      let! api_key :=
        match api_key args with
        | Some k => ret (JStr k)
        | None =>
            let! found := Settings.get "default-api-key" JNull settings in
            match fst found with
            | JNull => throw missing_api_key
            | k => ret k
            end
        end in
      let application :=
        match application args with
        | Some a => a
        | None => user env ++ "@" ++ host env
        end in
      let fields :=
        Json.dict_of_pairs
          (iter_arguments api_key application (url args) (event args)
             (description args) (priority args)) in
      let! response := post env fields in
      match response with
      | Response false content => throw (server_error content)
      | _ => ret tt
      end
  | Some key =>
      do! Settings.set "default-api-key" (JStr key) settings in
      ret tt
  end.

(** [sys.exit(code)] *)
Definition sys_exit {A} (code : Z) : M A := throw (SystemExit code).

Definition script_main (env : environment) (c : command_line) : M unit :=
  fun w =>
    match (let! args := lift (parse_args c) in main env args) w with
    | (Raise (UserError msg a), w') =>
        (do! log env "Error: {}" [exn_str (UserError msg a)] in sys_exit 1) w'
    | (Raise KeyboardInterrupt, w') =>
        (do! log env "Operation interrupted." [] in sys_exit 2) w'
    | other => other
    end.

(** A command line on which the parser meets [-h] or [--help] before an
    argument it refuses, or any other one, by what the parser recognised
    on it. *)
Inductive invocation :=
| Help
| Given (c : command_line).

(** [parse_args] on either kind: for [-h] and [--help] the call
    [parser.parse_args()] inside it prints the help text on the standard
    output and raises [SystemExit(0)]. *)
Definition parse_argv (i : invocation) : result namespace :=
  match i with
  | Help => Raise (SystemExit 0)
  | Given c => parse_args c
  end.

(** [script_main] on either kind of command line. *)
Definition script_main_argv (env : environment) (i : invocation) : M unit :=
  fun w =>
    match (let! args := lift (parse_argv i) in main env args) w with
    | (Raise (UserError msg a), w') =>
        (do! log env "Error: {}" [exn_str (UserError msg a)] in sys_exit 1) w'
    | (Raise KeyboardInterrupt, w') =>
        (do! log env "Operation interrupted." [] in sys_exit 2) w'
    | other => other
    end.

(** The exit status of the process that ran [script_main]. *)
Definition exit_status (r : result unit) : Z :=
  match r with
  | Ok _ => 0
  | Raise (SystemExit code) => code
  | Raise _ => 1
  end.

(** ** Notions used to state the properties *)

(** The value of a field of a request, if the request has the field. *)
Definition field (name : string) (fields : list (string * json)) : option json :=
  snd <$> List.find (fun kv => String.eqb (fst kv) name) fields.

Definition lower_hex (c : ascii) : bool :=
  Re.in_class [("0", "9"); ("a", "f")]%char c.

Definition key40 : string := "0123456789abcdef0123456789abcdef01234567".

Definition in_range (p : Z) : Prop := -2 <= p <= 2.

(** The directory [d] is there, or it is missing and [makedirs] can make
    it: it has a name, and no path on the way to it names a regular file. *)
Definition dir_ready (f : gmap string node) (d : string) : Prop :=
  f !! d = Some Dir
  \/ (f !! d = None /\ Os.all_sep d = false
      /\ forall q, q ∈ Os.ancestors d -> f !! q = None \/ f !! q = Some Dir).

(** The text of one member of a printed dictionary. *)
Definition member_text (kv : string * json) : string :=
  Json.encode_str (fst kv) ++ ": " ++ Json.dumps (snd kv).

(** A character that can start a value: not white space, and not one that
    closes an array or an object. *)
Definition value_head (c : ascii) : bool :=
  negb (Json.is_ws c) && negb (Ascii.eqb c "]") && negb (Ascii.eqb c "}").

(** What can follow a value inside a document: nothing, or the character
    that separates it from the next value or closes the enclosing one. *)
Definition tail_ok (rest : string) : bool :=
  match rest with
  | EmptyString => true
  | String c _ => Ascii.eqb c "," || Ascii.eqb c "]" || Ascii.eqb c "}"
  end.

(** Surroundings and worlds to run the program in. *)
Definition sample_env : environment :=
  {| program_name := "prowl"; home := "/home/alice"; user := "alice";
     host := "box"; server := fun _ => Response true "" |}.

Definition empty_world : world := {| fs := ∅; stderr := []; posted := [] |}.

(** A world whose settings file holds [text] under [default-api-key]. *)
Definition world_with_default (text : string) : world :=
  {| fs := {[ settings_path sample_env
              := File (Utf8.encode (Json.dumps (JDict [("default-api-key", JStr text)]))) ]};
     stderr := []; posted := [] |}.

(** [prowl -a 0 -u 0 -k <key> build 0] *)
Definition build_zero : command_line :=
  {| positionals := ["build"; "0"]; raw_application := Some "0"; raw_url := Some "0";
     raw_priority := None; raw_api_key := Some key40; raw_set_api_key := None |}.

(** [prowl -k <key> ''] *)
Definition empty_positional : command_line :=
  {| positionals := [""]; raw_application := None; raw_url := None;
     raw_priority := None; raw_api_key := Some key40; raw_set_api_key := None |}.

(** [prowl hello] *)
Definition hello : command_line :=
  {| positionals := ["hello"]; raw_application := None; raw_url := None;
     raw_priority := None; raw_api_key := None; raw_set_api_key := None |}.

(** [prowl --set-api-key=<key> --url=http://x] *)
Definition set_key_and_url : command_line :=
  {| positionals := []; raw_application := None; raw_url := Some "http://x";
     raw_priority := None; raw_api_key := None; raw_set_api_key := Some key40 |}.

(** A store that has loaded an empty mapping, for the settings file of
    [sample_env]. *)
Definition sample_store : Settings.t :=
  {| Settings._path := settings_path sample_env; Settings._values := JDict [] |}.

(** A store that has loaded a mapping with one key. *)
Definition store_with_note : Settings.t :=
  {| Settings._path := settings_path sample_env;
     Settings._values := JDict [("note", JStr "hi")] |}.

(** A world where the directory of that settings file exists. *)
Definition world_with_dir : world :=
  {| fs := {[ Os.dirname (settings_path sample_env) := Dir ]};
     stderr := []; posted := [] |}.

(** A world where the home directory exists and nothing in it: neither the
    settings file nor its directory. *)
Definition world_with_home : world :=
  {| fs := {[ "/home" := Dir; "/home/alice" := Dir ]}; stderr := []; posted := [] |}.

(** What a store makes of the bytes of its file: [json.loads(data.decode())]. *)
Definition load_text (data : string) : result json :=
  match Utf8.decode data with
  | Ok text => Json.loads text
  | Raise e => Raise e
  end.

(** A world whose settings file holds [data]. *)
Definition world_with_file (data : string) : world :=
  {| fs := {[ settings_path sample_env := File data ]}; stderr := []; posted := [] |}.

(** Surroundings where the server refuses the request, and where the user
    interrupts the wait for the answer. *)
Definition refusing_env : environment :=
  {| program_name := "prowl"; home := "/home/alice"; user := "alice";
     host := "box"; server := fun _ => Response false "denied" |}.

Definition interrupting_env : environment :=
  {| program_name := "prowl"; home := "/home/alice"; user := "alice";
     host := "box"; server := fun _ => Interrupted |}.

(** The names of the fields of a request, in the order [iter_arguments]
    yields them. *)
Definition field_names : list string :=
  ["apikey"; "application"; "url"; "event"; "description"; "priority"].

(** [prowl --set-api-key=<key>] *)
Definition set_key_only : command_line :=
  {| positionals := []; raw_application := None; raw_url := None;
     raw_priority := None; raw_api_key := None; raw_set_api_key := Some key40 |}.

(** The API key of a request comes from the command line or, without one
    there, from the settings file, where it is any value but [None]. *)
Definition resolved_key (env : environment) (c : command_line) (w : world) (key : json)
  : Prop :=
  match raw_api_key c with
  | Some k => key = JStr k
  | None =>
      key <> JNull
      /\ exists self w1,
           Settings.get "default-api-key" JNull (Settings.init (settings_path env)) w
           = (Ok (key, self), w1)
  end.

(** The application name of a request: the one given, or [<user>@<host>]. *)
Definition application_of (env : environment) (args : namespace) : string :=
  match application args with
  | Some a => a
  | None => user env ++ "@" ++ host env
  end.

(** The fields [main] composes from the parsed arguments and an API key. *)
Definition fields_of (env : environment) (args : namespace) (key : json)
  : list (string * json) :=
  iter_arguments key (application_of env args) (url args) (event args)
    (description args) (priority args).

(** The world after a request with these fields has been sent, and what the
    answer makes of the run. *)
Definition submitted (env : environment) (fields : list (string * json)) (w : world)
  : result unit * world :=
  (match server env fields with
   | Interrupted => Raise KeyboardInterrupt
   | Response false content => Raise (server_error content)
   | Response true _ => Ok tt
   end,
   {| fs := fs w; stderr := stderr w; posted := posted w ++ [(endpoint, fields)] |}).

(** * Properties *)

(** ** The API key pattern *)

Lemma matches_repeat_0 r s k : Re.matches (Re.Repeat r 0) s k = k s.
Proof. reflexivity. Qed.

Lemma matches_repeat_S r n s k :
  Re.matches (Re.Repeat r (S n)) s k
  = Re.matches r s (fun s' => Re.matches (Re.Repeat r n) s' k).
Proof. reflexivity. Qed.

Lemma matches_class_nil ranges k : Re.matches (Re.Class ranges) "" k = false.
Proof. reflexivity. Qed.

Lemma matches_class_cons ranges c s k :
  Re.matches (Re.Class ranges) (String c s) k = Re.in_class ranges c && k s.
Proof. reflexivity. Qed.

Lemma matches_repeat_class ranges n : forall s k,
  Re.matches (Re.Repeat (Re.Class ranges) n) s k = true <->
  exists p rest, s = p ++ rest /\ String.length p = n
                 /\ Str.all (Re.in_class ranges) p = true /\ k rest = true.
Proof.
  induction n as [|n IH]; intros s k.
  - rewrite matches_repeat_0. split.
    + intros Hk. exists "", s. auto.
    + intros (p & rest & -> & Hlen & _ & Hk). destruct p; [assumption | discriminate].
  - rewrite matches_repeat_S. destruct s as [|c s].
    + rewrite matches_class_nil. split; [discriminate|].
      intros (p & rest & Heq & Hlen & _). destruct p; discriminate.
    + rewrite matches_class_cons, andb_true_iff, IH. split.
      * intros (Hc & p & rest & -> & Hlen & Hall & Hk).
        exists (String c p), rest. simpl. rewrite Hc, Hall, Hlen. auto.
      * intros (p & rest & Heq & Hlen & Hall & Hk).
        destruct p as [|c' p]; [discriminate|].
        simpl in Heq, Hlen, Hall. injection Heq as -> ->.
        apply andb_true_iff in Hall as [Hc Hall].
        split; [assumption|]. exists p, rest. auto with lia.
Qed.

Lemma at_dollar_spec s :
  Re.at_dollar s = true <-> s = "" \/ s = String Str.newline "".
Proof.
  destruct s as [|c [|d s]]; simpl.
  - intuition.
  - rewrite Ascii.eqb_eq. split; [intros ->; auto|]. intros [|[= ->]]; [discriminate|reflexivity].
  - split; [discriminate|]. intros [|]; discriminate.
Qed.

(** What [api_key_type] accepts: forty lowercase hexadecimal digits, and
    nothing or one newline after them. *)
Lemma append_empty_r (s : string) : s ++ "" = s.
Proof. induction s; simpl; congruence. Qed.

Lemma api_key_type_accepts value :
  api_key_type value = Ok value <->
  exists k, String.length k = 40%nat /\ Str.all lower_hex k = true
            /\ (value = k \/ value = k ++ String Str.newline "").
Proof.
  unfold api_key_type, Re.py_match, api_key_pattern, lower_hex.
  change (Re.matches (Re.Seq ?a ?b) ?s ?k)
    with (Re.matches a s (fun s' => Re.matches b s' k)).
  destruct (Re.matches _ value _) eqn:Hm; simpl.
  - apply matches_repeat_class in Hm as (p & rest & -> & Hlen & Hall & Hk).
    simpl in Hk. rewrite andb_true_r in Hk. apply at_dollar_spec in Hk.
    split; [intros _|reflexivity]. exists p.
    split; [exact Hlen|]. split; [exact Hall|].
    destruct Hk as [-> | ->]; [left; apply append_empty_r | right; reflexivity].
  - split; [discriminate|]. intros (k & Hlen & Hall & Hv).
    assert (Re.matches (Re.Repeat (Re.Class [("0", "9"); ("a", "f")]%char) 40) value
              (fun s' => Re.matches Re.Dollar s' (fun _ => true)) = true) as Hyes.
    { apply matches_repeat_class. destruct Hv as [-> | ->].
      - exists k, "". rewrite append_empty_r. auto.
      - exists k, (String Str.newline ""). auto. }
    congruence.
Qed.

Lemma api_key_type_result value r : api_key_type value = Ok r -> r = value.
Proof. unfold api_key_type. destruct (negb _); [discriminate | congruence]. Qed.

Lemma api_key_type_error value e :
  api_key_type value = Raise e -> e = UserError "Invalid API key specified." [].
Proof. unfold api_key_type. destruct (negb _); [|discriminate]. intros [= <-]. reflexivity. Qed.

(** C3 (the defect): a text of 41 characters, forty lowercase hexadecimal
    digits followed by a newline, is accepted as an API key, although its
    length is not 40 and its last character is not a hexadecimal digit. *)
Theorem api_key_type_accepts_trailing_newline :
  let value := key40 ++ String Str.newline "" in
  String.length value = 41%nat
  /\ Str.all lower_hex value = false
  /\ api_key_type value = Ok value.
Proof. repeat split. Qed.

(** ** Argument normalisation *)

Lemma api_argument_type_zero : api_argument_type "0" = "0 ".
Proof. reflexivity. Qed.

Lemma api_argument_type_other value : value <> "0" -> api_argument_type value = value.
Proof.
  intros Hne. unfold api_argument_type.
  destruct (String.eqb_spec value "0"); [contradiction | reflexivity].
Qed.

Lemma convert_key_ok raw k :
  convert_key raw = Ok k -> k = raw.
Proof.
  destruct raw as [v|]; simpl; [|congruence].
  destruct (api_key_type v) eqn:Hv; [|discriminate].
  apply api_key_type_result in Hv. congruence.
Qed.

Lemma range_check p :
  negb ((-2 <=? p) && (p <=? 2)) = false <-> in_range p.
Proof. unfold in_range. rewrite negb_false_iff, andb_true_iff. lia. Qed.

(** Closes the cases of the analysis of [parse_args] on the positionals
    and on the range of the priority. *)
Ltac close_parse_case :=
  repeat split; try discriminate; try reflexivity; try tauto;
  try (let args := fresh "args" in intros args [= <-]; simpl);
  repeat split; try discriminate; eauto;
  try (intros; simplify_eq; reflexivity);
  try (simplify_eq; simpl; eauto);
  simpl; try lia.

(** How [parse_args] distributes the positionals over event and description. *)
Lemma parse_args_cases (c : command_line) :
  raw_set_api_key c = None ->
  is_ok (convert_key (raw_api_key c)) = true ->
  (positionals c = [] -> raw_url c = None -> parse_args c = Raise missing_description)
  /\ (forall args, parse_args c = Ok args ->
        (positionals c = [] ->
           event args = None
           /\ exists u, raw_url c = Some u /\ description args = Some u)
        /\ (forall d, positionals c = [d] ->
              event args = None /\ description args = Some (api_argument_type d))
        /\ (forall e d, positionals c = [e; d] ->
              event args = Some (api_argument_type e)
              /\ description args = Some (api_argument_type d)))
  /\ (in_range (default 0 (raw_priority c)) ->
      (length (positionals c) <= 2)%nat ->
      (positionals c = [] -> raw_url c <> None) ->
      is_ok (parse_args c) = true).
Proof.
  intros Hset Hkey. unfold parse_args, argparse. rewrite Hset. simpl convert_key.
  destruct (convert_key (raw_api_key c)) as [k|]; [clear Hkey | discriminate].
  set (p := default 0 (raw_priority c)).
  destruct (positionals c) as [|e [|d [|x rest]]]; unfold normalize; simpl;
    [destruct (raw_url c) as [u|]; simpl | | | ];
    try (destruct (negb ((-2 <=? p) && (p <=? 2))) eqn:Hr;
         [apply not_false_iff_true in Hr; rewrite range_check in Hr
         |apply range_check in Hr]).
  all: close_parse_case.
Qed.

(** C1: for a notification (no --set-api-key) whose key the parser accepted,
    no positional and no --url is the missing-description error; otherwise,
    whenever the arguments are accepted, no positional makes the --url value
    the description and leaves the event unset, one positional is the
    description with the event unset, and two are the event and the
    description, in this order.  A positional reaches its field as converted
    by [api_argument_type].  The arguments are accepted whenever there are at
    most two positionals, a description or a --url, and a priority in range. *)
Theorem parse_args_positionals (c : command_line) :
  raw_set_api_key c = None ->
  is_ok (convert_key (raw_api_key c)) = true ->
  (positionals c = [] -> raw_url c = None -> parse_args c = Raise missing_description)
  /\ (forall args, parse_args c = Ok args ->
        (positionals c = [] ->
           event args = None
           /\ exists u, raw_url c = Some u /\ description args = Some u)
        /\ (forall d, positionals c = [d] ->
              event args = None /\ description args = Some (api_argument_type d))
        /\ (forall e d, positionals c = [e; d] ->
              event args = Some (api_argument_type e)
              /\ description args = Some (api_argument_type d)))
  /\ (in_range (default 0 (raw_priority c)) ->
      (length (positionals c) <= 2)%nat ->
      (positionals c = [] -> raw_url c <> None) ->
      is_ok (parse_args c) = true).
Proof.
  intros Hset Hkey. unfold parse_args, argparse. rewrite Hset. simpl convert_key.
  destruct (convert_key (raw_api_key c)) as [k|]; [clear Hkey | discriminate].
  set (p := default 0 (raw_priority c)).
  destruct (positionals c) as [|e [|d [|x rest]]]; unfold normalize; simpl;
    [destruct (raw_url c) as [u|]; simpl | | | ];
    try (destruct (negb ((-2 <=? p) && (p <=? 2))) eqn:Hr;
         [apply not_false_iff_true in Hr; rewrite range_check in Hr
         |apply range_check in Hr]).
  all: close_parse_case.
Qed.


(** ** The composed request *)

Lemma dict_of_pairs_iter_arguments k a u e d p :
  Json.dict_of_pairs (iter_arguments k a u e d p) = iter_arguments k a u e d p.
Proof.
  unfold iter_arguments.
  destruct u, e, d as [[|]|], (p =? 0); reflexivity.
Qed.

Lemma load_values_world self w : snd (Settings._load_values self w) = w.
Proof.
  unfold Settings._load_values.
  destruct (Settings._values self); try reflexivity.
  destruct (Os.exists_ _ _); [|reflexivity].
  unfold bind, read_file, lift, ret.
  destruct (Os.read _ _) as [data|]; [|reflexivity].
  destruct (Utf8.decode data) as [text|]; [|reflexivity].
  destruct (Json.loads text); reflexivity.
Qed.

Lemma get_world key dflt self w : snd (Settings.get key dflt self w) = w.
Proof.
  unfold Settings.get, bind.
  pose proof (load_values_world self w) as Hw.
  destruct (Settings._load_values self w) as [[self'|e] w']; simpl in Hw; subst w';
    [|reflexivity].
  destruct (Settings._values self'); reflexivity.
Qed.

Lemma post_submitted env fields w :
  (let! response := post env fields in
   match response with
   | Response false content => throw (server_error content)
   | _ => ret tt
   end) w = submitted env fields w.
Proof.
  unfold bind, post, submitted, throw, ret.
  destruct (server env fields) as [[|] content|]; reflexivity.
Qed.

(** With a key on the command line, [main] sends the fields composed from
    the arguments and that key. *)
Lemma main_given_key env args w k :
  set_api_key args = None -> api_key args = Some k ->
  main env args w = submitted env (fields_of env args (JStr k)) w.
Proof.
  intros Hset Hkey. unfold main. rewrite Hset, Hkey.
  unfold bind at 1. unfold ret at 1.
  rewrite dict_of_pairs_iter_arguments. apply post_submitted.
Qed.

(** Without one, it sends the value stored under [default-api-key], whatever
    it is, unless the store has none. *)
Lemma main_stored_key env args w v self w1 :
  set_api_key args = None -> api_key args = None ->
  Settings.get "default-api-key" JNull (Settings.init (settings_path env)) w
    = (Ok (v, self), w1) ->
  main env args w =
    match v with
    | JNull => (Raise missing_api_key, w)
    | _ => submitted env (fields_of env args v) w
    end.
Proof.
  intros Hset Hkey Hget. unfold main. rewrite Hset, Hkey.
  pose proof (get_world "default-api-key" JNull (Settings.init (settings_path env)) w) as Hw.
  rewrite Hget in Hw. simpl in Hw. subst w1.
  unfold bind at 1. unfold bind at 1. rewrite Hget.
  destruct v; cbv [fst ret throw]; try reflexivity;
    rewrite dict_of_pairs_iter_arguments; apply post_submitted.
Qed.

Lemma main_store_error env args w e w1 :
  set_api_key args = None -> api_key args = None ->
  Settings.get "default-api-key" JNull (Settings.init (settings_path env)) w
    = (Raise e, w1) ->
  main env args w = (Raise e, w).
Proof.
  intros Hset Hkey Hget. unfold main. rewrite Hset, Hkey.
  pose proof (get_world "default-api-key" JNull (Settings.init (settings_path env)) w) as Hw.
  rewrite Hget in Hw. simpl in Hw. subst w1.
  unfold bind at 1. unfold bind at 1. rewrite Hget. reflexivity.
Qed.

Lemma field_iter_arguments key a u e d p :
  let fields := iter_arguments key a u e d p in
  field "apikey" fields = Some key
  /\ field "application" fields = Some (JStr a)
  /\ field "url" fields = JStr <$> u
  /\ field "event" fields = JStr <$> e
  /\ field "description" fields
     = match d with Some (String _ _ as t) => Some (JStr t) | _ => None end
  /\ field "priority" fields = (if p =? 0 then None else Some (JInt p)).
Proof.
  unfold iter_arguments.
  destruct u, e, d as [[|]|], (p =? 0); repeat split.
Qed.

(** The options reach the parsed arguments as the parser converted them. *)
Lemma parse_args_options c args :
  parse_args c = Ok args ->
  application args = api_argument_type <$> raw_application c
  /\ url args = raw_url c
  /\ priority args = default 0 (raw_priority c)
  /\ api_key args = raw_api_key c
  /\ set_api_key args = raw_set_api_key c.
Proof.
  unfold parse_args, argparse.
  destruct (convert_key (raw_api_key c)) as [k|] eqn:Hk; [|discriminate].
  destruct (convert_key (raw_set_api_key c)) as [sk|] eqn:Hsk; [|discriminate].
  apply convert_key_ok in Hk, Hsk. subst k sk.
  destruct (positionals c) as [|e [|d [|x rest]]]; [| | |discriminate];
    unfold normalize; simpl;
    destruct (raw_set_api_key c); simpl;
    repeat match goal with
           | |- context [if ?b then _ else _] => destruct b
           | |- context [match raw_url c with _ => _ end] => destruct (raw_url c) eqn:?
           end; simpl; try discriminate; intros [= <-]; simpl; auto.
Qed.

Lemma main_resolved_key env c args w key :
  parse_args c = Ok args -> raw_set_api_key c = None ->
  resolved_key env c w key ->
  main env args w = submitted env (fields_of env args key) w.
Proof.
  intros Hparse Hset Hkey.
  destruct (parse_args_options c args Hparse) as (_ & _ & _ & Hk & Hs).
  rewrite Hset in Hs. unfold resolved_key in Hkey.
  destruct (raw_api_key c) as [k|].
  - subst key. now apply main_given_key.
  - destruct Hkey as (Hnn & self & w1 & Hget).
    rewrite (main_stored_key env args w key self w1 Hs Hk Hget).
    destruct key; [contradiction | reflexivity..].
Qed.

(** C2 (counterexample): --application 0 reaches the request as ["0 "]. *)
Lemma application_zero_is_rewritten :
  let c := {| positionals := ["hello"]; raw_application := Some "0";
              raw_url := None; raw_priority := None;
              raw_api_key := Some key40; raw_set_api_key := None |} in
  exists fields,
    script_main sample_env c empty_world
    = (Ok tt, {| fs := ∅; stderr := []; posted := [(endpoint, fields)] |})
    /\ raw_application c = Some "0"
    /\ field "application" fields = Some (JStr "0 ").
Proof. eexists. repeat split. Qed.

(** C2 (amended): the parser converts the positionals and the --application
    value by [api_argument_type], which turns ["0"] into ["0 "] and leaves
    every other text as it is, and converts neither the --url value nor the
    API key: in the request sent, [application] is the converted value (or
    [<user>@<host>]), [event] and a non-empty [description] given as
    positionals are the converted values, and [url] and [apikey] are the
    values as given. *)
Theorem zero_workaround_scope env c args w key :
  parse_args c = Ok args ->
  raw_set_api_key c = None ->
  resolved_key env c w key ->
  exists fields,
    main env args w = submitted env fields w
    /\ field "apikey" fields = Some key
    /\ field "url" fields = JStr <$> raw_url c
    /\ field "application" fields
       = Some (JStr (default (user env ++ "@" ++ host env)
                       (api_argument_type <$> raw_application c)))
    /\ (forall d, positionals c = [d] -> d <> "" ->
          field "description" fields = Some (JStr (api_argument_type d)))
    /\ (forall e d, positionals c = [e; d] ->
          field "event" fields = Some (JStr (api_argument_type e))
          /\ (d <> "" -> field "description" fields = Some (JStr (api_argument_type d))))
    /\ api_argument_type "0" = "0 "
    /\ (forall value, value <> "0" -> api_argument_type value = value).
Proof.
  intros Hparse Hset Hkey. exists (fields_of env args key).
  split; [now apply (main_resolved_key env c)|].
  destruct (parse_args_options c args Hparse) as (Happ & Hurl & _ & Hk & _).
  assert (is_ok (convert_key (raw_api_key c)) = true) as Hconv.
  { revert Hparse. unfold parse_args, argparse.
    destruct (convert_key (raw_api_key c)); [reflexivity | discriminate]. }
  destruct (parse_args_cases c Hset Hconv) as (_ & Hpos & _).
  destruct (Hpos args Hparse) as (_ & Hone & Htwo).
  pose proof (field_iter_arguments key (application_of env args) (url args)
                (event args) (description args) (priority args))
    as (Hfk & Hfa & Hfu & Hfe & Hfd & _).
  fold (fields_of env args key) in Hfk, Hfa, Hfu, Hfe, Hfd.
  assert (forall d, d <> "" -> description args = Some (api_argument_type d) ->
                    field "description" (fields_of env args key)
                    = Some (JStr (api_argument_type d))) as Hdesc.
  { intros d Hd Hde. rewrite Hfd, Hde.
    destruct (api_argument_type d) eqn:Ht; [|reflexivity].
    unfold api_argument_type in Ht. destruct (String.eqb d "0"); [|congruence].
    destruct d; discriminate. }
  split; [exact Hfk|]. split; [now rewrite Hfu, Hurl|].
  split.
  { rewrite Hfa. unfold application_of. rewrite Happ.
    now destruct (raw_application c). }
  split.
  { intros d Hp Hd. apply Hdesc; [assumption | apply (Hone d Hp)]. }
  split.
  { intros e d Hp. destruct (Htwo e d Hp) as [Hev Hde]. split.
    - now rewrite Hfe, Hev.
    - intros Hd. now apply Hdesc. }
  split; [reflexivity | exact api_argument_type_other].
Qed.

(** ** The stored default key *)

Lemma get_from_file path key dflt w data text m :
  fs w !! path = Some (File data) ->
  Utf8.decode data = Ok text ->
  Json.loads text = Ok (JDict m) ->
  Settings.get key dflt (Settings.init path) w
  = (Ok (Json.dict_get m key dflt, {| Settings._path := path; Settings._values := JDict m |}), w).
Proof.
  intros Hfile Hdec Hloads.
  unfold Settings.get, Settings._load_values, Settings.init, bind; simpl.
  unfold Os.exists_. rewrite bool_decide_eq_true_2 by (rewrite Hfile; eauto).
  unfold bind, read_file, Os.read, lift, ret.
  rewrite Hfile, Hdec, Hloads. reflexivity.
Qed.

(** Without a settings file, [get] returns the caller's default. *)
Lemma get_without_file path key dflt w :
  fs w !! path = None ->
  Settings.get key dflt (Settings.init path) w
  = (Ok (dflt, {| Settings._path := path; Settings._values := JDict [] |}), w).
Proof.
  intros Hfile.
  unfold Settings.get, Settings._load_values, Settings.init, bind; simpl.
  unfold Os.exists_. rewrite bool_decide_eq_false_2; [reflexivity|].
  rewrite Hfile. intros [? [=]].
Qed.

(** C4 (counterexample): the settings file holds ["xyz"], which is not an
    API key for [api_key_type]; a notification without --api-key is accepted
    and sent with it. *)
Lemma stored_key_is_not_checked :
  let c := {| positionals := ["hello"]; raw_application := None;
              raw_url := None; raw_priority := None;
              raw_api_key := None; raw_set_api_key := None |} in
  let w := world_with_default "xyz" in
  is_ok (api_key_type "xyz") = false
  /\ exists fields,
       script_main sample_env c w
       = (Ok tt, {| fs := fs w; stderr := []; posted := [(endpoint, fields)] |})
       /\ field "apikey" fields = Some (JStr "xyz").
Proof. split; [reflexivity|]. eexists. split; vm_compute; reflexivity. Qed.

(** C4 (amended): without an API key on the command line, the value the
    settings file holds under [default-api-key] is sent as the [apikey] of
    the request as it is, with no check against the pattern; only a file
    without a value for the key is the missing-key error. *)
Theorem stored_key_used_unchecked env c args w data text m :
  parse_args c = Ok args ->
  raw_set_api_key c = None ->
  raw_api_key c = None ->
  fs w !! settings_path env = Some (File data) ->
  Utf8.decode data = Ok text ->
  Json.loads text = Ok (JDict m) ->
  let stored := Json.dict_get m "default-api-key" JNull in
  (stored = JNull -> main env args w = (Raise missing_api_key, w))
  /\ (stored <> JNull ->
      main env args w = submitted env (fields_of env args stored) w
      /\ field "apikey" (fields_of env args stored) = Some stored).
Proof.
  intros Hparse Hset Hkey Hfile Hdec Hloads stored.
  destruct (parse_args_options c args Hparse) as (_ & _ & _ & Hk & Hs).
  rewrite Hset in Hs. rewrite Hkey in Hk.
  pose proof (get_from_file (settings_path env) "default-api-key" JNull w data text m
                Hfile Hdec Hloads) as Hget.
  fold stored in Hget.
  pose proof (main_stored_key env args w stored _ w Hs Hk Hget) as Hmain.
  split.
  - intros Hnull. now rewrite Hnull in Hmain.
  - intros Hnn. split.
    + destruct stored; [contradiction | exact Hmain..].
    + apply field_iter_arguments.
Qed.

(** ** The fields of a request *)

Lemma write_file_posted path data w :
  posted (snd (write_file path data w)) = posted w
  /\ stderr (snd (write_file path data w)) = stderr w.
Proof.
  unfold write_file. destruct (Os.run _ _) as [r f]. split; reflexivity.
Qed.

(** Saving loaded values is writing their text, when they can be printed. *)
Lemma save_values_cases self w :
  Settings._values self <> JNull ->
  Settings._save_values self w
  = if Json.within_limit (Settings._values self)
    then write_file (Settings._path self)
           (Utf8.encode (Json.dumps (Settings._values self))) w
    else (Raise (ValueError "Exceeds the limit (4300 digits) for integer string conversion"),
          w).
Proof.
  unfold Settings._save_values, bind, lift, Json.try_dumps.
  destruct (Settings._values self) eqn:Hv; [contradiction|..];
    intros _; rewrite <- ?Hv; destruct (Json.within_limit _); reflexivity.
Qed.

Lemma set_posted key value self w :
  posted (snd (Settings.set key value self w)) = posted w
  /\ stderr (snd (Settings.set key value self w)) = stderr w.
Proof.
  unfold Settings.set, bind.
  pose proof (load_values_world self w) as Hw.
  destruct (Settings._load_values self w) as [[self'|e] w']; simpl in Hw; subst w';
    [|split; reflexivity].
  destruct (Settings._values self'); try (split; reflexivity).
  rewrite save_values_cases by discriminate. cbn [Settings._values Settings._path].
  destruct (Json.within_limit _); [|split; reflexivity].
  pose proof (write_file_posted (Settings._path self')
                (Utf8.encode (Json.dumps (JDict (Json.dict_set m key value)))) w) as Hp.
  destruct (write_file _ _ w) as [[[]|e] w']; exact Hp.
Qed.

(** C8: whenever [main] sends a request, its fields include [apikey] and
    [application]; they include [url] and [event] exactly when these
    arguments are present, and [priority] exactly when it is not 0.  A
    request is sent whenever a notification comes with an API key. *)
Theorem request_fields env args w :
  let w' := snd (main env args w) in
  (set_api_key args = None -> api_key args <> None -> posted w' <> posted w)
  /\ (posted w' = posted w
      \/ exists fields,
           posted w' = (posted w ++ [(endpoint, fields)])%list
           /\ is_Some (field "apikey" fields)
           /\ is_Some (field "application" fields)
           /\ (is_Some (field "url" fields) <-> url args <> None)
           /\ (is_Some (field "event" fields) <-> event args <> None)
           /\ (is_Some (field "priority" fields) <-> priority args <> 0)).
Proof.
  assert (forall key,
    main env args w = submitted env (fields_of env args key) w ->
    exists fields,
      posted (snd (main env args w)) = (posted w ++ [(endpoint, fields)])%list
      /\ is_Some (field "apikey" fields)
      /\ is_Some (field "application" fields)
      /\ (is_Some (field "url" fields) <-> url args <> None)
      /\ (is_Some (field "event" fields) <-> event args <> None)
      /\ (is_Some (field "priority" fields) <-> priority args <> 0)) as Hsent.
  { intros key ->. exists (fields_of env args key).
    pose proof (field_iter_arguments key (application_of env args) (url args)
                  (event args) (description args) (priority args))
      as (Hfk & Hfa & Hfu & Hfe & _ & Hfp).
    fold (fields_of env args key) in Hfk, Hfa, Hfu, Hfe, Hfp.
    rewrite Hfk, Hfa, Hfu, Hfe, Hfp.
    split; [reflexivity|]. split; [eauto|]. split; [eauto|].
    split; [|split].
    - destruct (url args); simpl; split; try congruence; eauto.
      intros [? [=]].
    - destruct (event args); simpl; split; try congruence; eauto.
      intros [? [=]].
    - destruct (Z.eqb_spec (priority args) 0); split; try congruence; eauto.
      intros [? [=]]. }
  simpl. split.
  - intros Hset Hkey. destruct (api_key args) as [k|] eqn:Hk; [|congruence].
    rewrite (main_given_key env args w k Hset Hk). simpl.
    intros Heq. apply (f_equal length) in Heq. rewrite length_app in Heq.
    simpl in Heq. lia.
  - destruct (set_api_key args) as [sk|] eqn:Hset.
    + left. unfold main. rewrite Hset. unfold bind.
      pose proof (set_posted "default-api-key" (JStr sk)
                    (Settings.init (settings_path env)) w) as [Hp _].
      destruct (Settings.set _ _ _ w) as [[?|?] ?]; exact Hp.
    + destruct (api_key args) as [k|] eqn:Hk.
      * right. apply (Hsent (JStr k)). now apply main_given_key.
      * destruct (Settings.get "default-api-key" JNull
                    (Settings.init (settings_path env)) w) as [[[v self]|e] w1] eqn:Hget.
        -- pose proof (main_stored_key env args w v self w1 Hset Hk Hget) as Hmain.
           destruct v; try (right; apply (Hsent _ Hmain)).
           left. now rewrite Hmain.
        -- left. now rewrite (main_store_error env args w e w1 Hset Hk Hget).
Qed.

(** ** An empty description *)

Lemma user_errors_differ p :
  invalid_priority p <> missing_description
  /\ exclusive_set_api_key <> missing_description
  /\ (exists m a, invalid_priority p = UserError m a)
  /\ (exists m a, missing_description = UserError m a)
  /\ (exists m a, exclusive_set_api_key = UserError m a).
Proof.
  unfold invalid_priority, missing_description, exclusive_set_api_key, UserError_new.
  simpl. repeat split; try discriminate; eauto.
Qed.

(** C10: the missing-description error is raised exactly when there is no
    positional and no --url; a single empty positional is accepted as an
    empty description; and a request whose description is empty has no
    [description] field, while an empty event is sent as [event]. *)
Theorem empty_description_omitted env c :
  raw_set_api_key c = None ->
  is_ok (convert_key (raw_api_key c)) = true ->
  (parse_args c = Raise missing_description <-> positionals c = [] /\ raw_url c = None)
  /\ (positionals c = [""] -> in_range (default 0 (raw_priority c)) ->
      exists args,
        parse_args c = Ok args /\ event args = None /\ description args = Some "")
  /\ (forall args w key,
        parse_args c = Ok args -> resolved_key env c w key ->
        exists fields,
          main env args w = submitted env fields w
          /\ (description args = Some "" -> field "description" fields = None)
          /\ (event args = Some "" -> field "event" fields = Some (JStr ""))).
Proof.
  intros Hset Hkey.
  destruct (parse_args_cases c Hset Hkey) as (Hmiss & Hpos & Hok).
  split; [|split].
  - split; [|intros [Hp Hu]; now apply Hmiss].
    unfold parse_args, argparse. rewrite Hset. simpl convert_key.
    destruct (convert_key (raw_api_key c)) as [k|]; [|discriminate].
    pose proof (user_errors_differ (default 0 (raw_priority c))) as (Hne & _).
    destruct (positionals c) as [|e [|d [|x rest]]]; unfold normalize; simpl;
      [destruct (raw_url c) as [u|]; simpl | | | ];
      try (destruct (negb _)); try discriminate; try (intros [= Heq]; congruence).
    intros _. auto.
  - intros Hp Hr.
    assert (is_ok (parse_args c) = true) as Hsome.
    { apply Hok; rewrite ?Hp; simpl; auto; discriminate. }
    destruct (parse_args c) as [args|] eqn:Hparse; [|discriminate].
    exists args. split; [reflexivity|].
    destruct (Hpos args eq_refl) as (_ & Hone & _). apply (Hone "" Hp).
  - intros args w key Hparse Hres. exists (fields_of env args key).
    split; [now apply (main_resolved_key env c)|].
    pose proof (field_iter_arguments key (application_of env args) (url args)
                  (event args) (description args) (priority args))
      as (_ & _ & _ & Hfe & Hfd & _).
    fold (fields_of env args key) in Hfe, Hfd.
    split; [intros Hd; now rewrite Hfd, Hd | intros He; now rewrite Hfe, He].
Qed.

(** ** Setting the default key *)

Lemma log_world env msg args w :
  fs (snd (log env msg args w)) = fs w
  /\ posted (snd (log env msg args w)) = posted w.
Proof. unfold log. destruct (format msg args); split; reflexivity. Qed.

(** What [parse_args] raises is an error of the user, or the exit of the
    argument parser. *)
Lemma parse_args_raises c e :
  parse_args c = Raise e -> e = SystemExit 2 \/ exists m a, e = UserError m a.
Proof.
  unfold parse_args, argparse.
  assert (forall raw e', convert_key raw = Raise e' -> exists m a, e' = UserError m a) as Hconv.
  { intros [v|] e'; simpl; [|discriminate].
    destruct (api_key_type v) eqn:Hv; [discriminate|].
    intros [= <-]. apply api_key_type_error in Hv. eauto. }
  destruct (convert_key (raw_api_key c)) as [k|e1] eqn:Hk.
  2:{ intros [= <-]. right. eapply Hconv, Hk. }
  destruct (convert_key (raw_set_api_key c)) as [sk|e2] eqn:Hsk.
  2:{ intros [= <-]. right. eapply Hconv, Hsk. }
  pose proof (user_errors_differ (default 0 (raw_priority c))) as (_ & _ & Hp & Hm & Hx).
  destruct (positionals c) as [|ev [|d [|x rest]]]; unfold normalize; simpl;
    [ | | |intros [= <-]; now left];
    destruct sk; simpl;
    repeat match goal with
           | |- context [if ?b then _ else _] => destruct b
           | |- context [match raw_url c with _ => _ end] => destruct (raw_url c)
           end; simpl; try discriminate; intros [= <-]; right; assumption.
Qed.

(** When the arguments are refused, the run touches neither the files nor
    the network, and does not end with status 0. *)
Lemma script_main_refused env c w e :
  parse_args c = Raise e ->
  fs (snd (script_main env c w)) = fs w
  /\ posted (snd (script_main env c w)) = posted w
  /\ exit_status (fst (script_main env c w)) <> 0.
Proof.
  intros Hparse. unfold script_main. unfold bind at 1, lift. rewrite Hparse.
  destruct (parse_args_raises c e Hparse) as [-> | (m & a & ->)].
  - repeat split; simpl; discriminate.
  - unfold bind, log, sys_exit, throw. simpl. repeat split; discriminate.
Qed.

(** C5 (counterexample): --set-api-key together with --priority 0 is
    accepted, and the settings file is written. *)
Lemma set_api_key_with_priority_zero :
  let c := {| positionals := []; raw_application := None; raw_url := None;
              raw_priority := Some 0; raw_api_key := None;
              raw_set_api_key := Some key40 |} in
  exists w,
    script_main sample_env c empty_world = (Ok tt, w)
    /\ fs empty_world !! settings_path sample_env = None
    /\ fs w !! settings_path sample_env
       = Some (File (Utf8.encode (Json.dumps (JDict [("default-api-key", JStr key40)])))).
Proof. eexists. split; [|split]; vm_compute; reflexivity. Qed.

(** C5 (amended): --set-api-key together with a positional, --application,
    --url, --api-key or a --priority other than 0 is refused, and the run
    neither writes a file nor sends a request nor ends with status 0.  The
    error is the one of mutual exclusion when every key given is well formed
    and there are at most two positionals.  A --priority of 0 is not told
    apart from no --priority. *)
Theorem set_api_key_exclusive env c w sk :
  raw_set_api_key c = Some sk ->
  (positionals c <> [] \/ raw_application c <> None \/ raw_url c <> None
   \/ raw_api_key c <> None \/ exists p, raw_priority c = Some p /\ p <> 0) ->
  is_ok (parse_args c) = false
  /\ (is_ok (api_key_type sk) = true ->
      is_ok (convert_key (raw_api_key c)) = true ->
      (length (positionals c) <= 2)%nat ->
      parse_args c = Raise exclusive_set_api_key)
  /\ fs (snd (script_main env c w)) = fs w
  /\ posted (snd (script_main env c w)) = posted w
  /\ exit_status (fst (script_main env c w)) <> 0.
Proof.
  intros Hset Hother.
  assert (is_ok (parse_args c) = false
          /\ (is_ok (api_key_type sk) = true ->
              is_ok (convert_key (raw_api_key c)) = true ->
              (length (positionals c) <= 2)%nat ->
              parse_args c = Raise exclusive_set_api_key)) as [Hno Hexcl].
  { unfold parse_args, argparse. rewrite Hset. simpl convert_key.
    destruct (convert_key (raw_api_key c)) as [k|] eqn:Hk;
      [|split; [reflexivity | discriminate]].
    apply convert_key_ok in Hk. subst k.
    destruct (api_key_type sk) as [sk'|]; [|split; [reflexivity | discriminate]].
    assert (forall ev de,
      (ev = None -> positionals c <> [] -> False) ->
      normalize {| event := ev; description := de;
                   application := api_argument_type <$> raw_application c;
                   url := raw_url c; priority := default 0 (raw_priority c);
                   api_key := raw_api_key c; set_api_key := Some sk' |}
      = Raise exclusive_set_api_key) as Hnorm.
    { intros ev de Hev. unfold normalize; simpl.
      destruct ev as [e|]; [reflexivity|].
      destruct Hother as [Hp | [Ha | [Hu | [Hk | (p & Hp & Hp0)]]]].
      - now destruct (Hev eq_refl).
      - destruct (raw_application c); [|congruence].
        simpl. now rewrite !orb_true_r.
      - destruct (raw_url c); [|congruence].
        rewrite (bool_decide_eq_true_2 (Some _ <> None)) by discriminate.
        now rewrite !orb_true_r.
      - destruct (raw_api_key c); [|congruence].
        rewrite (bool_decide_eq_true_2 (Some _ <> None)) by discriminate.
        now rewrite !orb_true_r.
      - rewrite Hp. simpl. destruct (Z.eqb_spec p 0); [contradiction|].
        simpl. now rewrite !orb_true_r. }
    destruct (positionals c) as [|e [|d [|x rest]]]; simpl.
    - rewrite Hnorm by tauto. auto.
    - rewrite Hnorm by discriminate. auto.
    - rewrite Hnorm by discriminate. auto.
    - split; [reflexivity|]. lia. }
  split; [exact Hno|]. split; [exact Hexcl|].
  destruct (parse_args c) as [|e] eqn:Hparse; [discriminate|].
  apply (script_main_refused env c w e Hparse).
Qed.

(** ** Reporting errors *)

(** A [UserError] ends the run with status 1 after a line on the error
    stream that starts with the program name and carries [str] of the
    exception. *)
Lemma script_main_user_error env c w msg a w1 :
  (let! args := lift (parse_args c) in main env args) w = (Raise (UserError msg a), w1) ->
  script_main env c w
  = (Raise (SystemExit 1),
     {| fs := fs w1;
        stderr := stderr w1 ++ [program_name env ++ ": Error: " ++ exn_str (UserError msg a)];
        posted := posted w1 |}).
Proof.
  intros Hrun. unfold script_main. rewrite Hrun.
  unfold bind, log, sys_exit, throw. simpl format.
  cbv iota beta. rewrite append_empty_r. reflexivity.
Qed.

(** An interrupt ends it with status 2. *)
Lemma script_main_interrupt env c w w1 :
  (let! args := lift (parse_args c) in main env args) w = (Raise KeyboardInterrupt, w1) ->
  script_main env c w
  = (Raise (SystemExit 2),
     {| fs := fs w1;
        stderr := stderr w1 ++ [program_name env ++ ": Operation interrupted."];
        posted := posted w1 |}).
Proof.
  intros Hrun. unfold script_main. rewrite Hrun. reflexivity.
Qed.

(** The message of a [UserError] without arguments is [str] of it. *)
Lemma message_without_args msg :
  format msg [] = Ok msg -> message (UserError msg []) = exn_str (UserError msg []).
Proof. intros H. simpl. now rewrite H. Qed.

(** C9 (the defect): for --priority 3 the run ends with status 1, but the
    line on the error stream carries the unformatted template and the
    arguments of the exception, not its formatted message. *)
Theorem script_main_priority_error_output :
  let c := {| positionals := ["hello"]; raw_application := None; raw_url := None;
              raw_priority := Some 3; raw_api_key := Some key40;
              raw_set_api_key := None |} in
  parse_args c = Raise (invalid_priority 3)
  /\ message (invalid_priority 3) = "Invalid value for --priority: 3"
  /\ script_main sample_env c empty_world
     = (Raise (SystemExit 1),
        {| fs := ∅;
           stderr := ["prowl: Error: ('Invalid value for --priority: {}', 3)"];
           posted := [] |})
  /\ exit_status (fst (script_main sample_env c empty_world)) = 1.
Proof. repeat split. Qed.

(** ** Writing a file *)

Lemma length_append (s t : string) :
  String.length (s ++ t) = (String.length s + String.length t)%nat.
Proof. induction s; simpl; congruence. Qed.

Lemma append_assoc (s t u : string) : (s ++ t) ++ u = s ++ t ++ u.
Proof. induction s; simpl; congruence. Qed.

Lemma append_longer (s t : string) : t <> "" -> s ++ t <> s.
Proof.
  intros Ht Heq. apply (f_equal String.length) in Heq.
  rewrite length_append in Heq. destruct t; [contradiction | simpl in Heq; lia].
Qed.

Section Paths.

(** The temporary file is in the directory of the target. *)
Lemma head_of_temp p : Os.head_of (p ++ "~") = Os.head_of p.
Proof. induction p as [|c r IH]; simpl; [reflexivity | now rewrite IH]. Qed.

Lemma dirname_temp p : Os.dirname (p ++ "~") = Os.dirname p.
Proof. unfold Os.dirname. now rewrite head_of_temp. Qed.

Lemma head_of_length p : (String.length (Os.head_of p) <= String.length p)%nat.
Proof.
  induction p as [|c r IH]; simpl; [lia|].
  destruct (Os.head_of r); [destruct (Ascii.eqb c Str.sep)|]; simpl in *; lia.
Qed.

Lemma head_of_ends p :
  Os.head_of p = "" \/ Str.ends_with Str.sep (Os.head_of p) = true.
Proof.
  induction p as [|c r IH]; simpl; [now left|].
  destruct (Os.head_of r) as [|d h] eqn:Hh.
  - destruct (Ascii.eqb_spec c Str.sep) as [->|]; [right; reflexivity | now left].
  - right. destruct IH as [|IH]; [discriminate|]. exact IH.
Qed.

Lemma rstrip_length s : (String.length (Os.rstrip_sep s) <= String.length s)%nat.
Proof.
  induction s as [|c r IH]; simpl; [lia|].
  destruct (Os.rstrip_sep r); [destruct (Ascii.eqb c Str.sep)|]; simpl in *; lia.
Qed.

Lemma rstrip_shorter s :
  Str.ends_with Str.sep s = true ->
  (String.length (Os.rstrip_sep s) < String.length s)%nat.
Proof.
  induction s as [|c r IH]; simpl; [discriminate|].
  destruct r as [|d r'].
  - rewrite Ascii.eqb_sym. intros ->. simpl. lia.
  - intros Hends. specialize (IH Hends).
    destruct (Os.rstrip_sep (String d r')); [destruct (Ascii.eqb c Str.sep)|];
      simpl in *; lia.
Qed.

(** The directory of a path is a shorter path, or made of separators only. *)
Lemma dirname_shorter p :
  (String.length (Os.dirname p) < String.length p)%nat
  \/ Os.all_sep (Os.dirname p) = true.
Proof.
  unfold Os.dirname. pose proof (head_of_length p) as Hlen.
  destruct (Os.head_of p) as [|c h] eqn:Hh; [right; reflexivity|].
  simpl negb at 1. rewrite andb_true_l.
  destruct (Os.all_sep (String c h)) eqn:Hall; cbn [negb]; [now right|].
  left. destruct (head_of_ends p) as [Hnil | Hends]; [congruence|].
  rewrite Hh in Hends. apply rstrip_shorter in Hends. lia.
Qed.

Lemma ancestors_from_length pre b rest q :
  q ∈ Os.ancestors_from pre b rest ->
  (String.length q <= String.length pre + String.length rest)%nat.
Proof.
  revert pre b. induction rest as [|c r IH]; intros pre b; simpl.
  - destruct b; [|intros []%elem_of_nil].
    intros ->%list_elem_of_singleton. lia.
  - destruct (Ascii.eqb c Str.sep).
    + rewrite elem_of_app. intros [Hq | Hq].
      * destruct b; [|now apply elem_of_nil in Hq].
        apply list_elem_of_singleton in Hq as ->. lia.
      * apply IH in Hq. rewrite length_append in Hq. simpl in Hq. lia.
    + intros Hq. apply IH in Hq. rewrite length_append in Hq. simpl in Hq. lia.
Qed.

Lemma ancestors_from_all_sep pre d :
  Os.all_sep d = true -> Os.ancestors_from pre false d = [].
Proof.
  revert pre. induction d as [|c r IH]; intros pre; simpl; [reflexivity|].
  unfold Os.all_sep. simpl. rewrite (Ascii.eqb_sym Str.sep c).
  destruct (Ascii.eqb c Str.sep); simpl; [|discriminate].
  apply IH.
Qed.

(** [makedirs] never goes through the target itself, nor through the
    temporary file. *)
Lemma ancestors_not_target path q :
  q ∈ Os.ancestors (Os.dirname path) -> q <> path /\ q <> path ++ "~".
Proof.
  intros Hq. destruct (dirname_shorter path) as [Hlt | Hall].
  - apply ancestors_from_length in Hq. simpl in Hq.
    split; intros ->; [lia|]. rewrite length_append in Hq. simpl in Hq. lia.
  - unfold Os.ancestors in Hq. rewrite ancestors_from_all_sep in Hq by assumption.
    now apply elem_of_nil in Hq.
Qed.

Lemma rstrip_not_ends s : Str.ends_with Str.sep (Os.rstrip_sep s) = false.
Proof.
  induction s as [|c r IH]; simpl; [reflexivity|].
  destruct (Os.rstrip_sep r) as [|d r'] eqn:Hr; [|exact IH].
  destruct (Ascii.eqb c Str.sep) eqn:Hc; simpl; [reflexivity|].
  now rewrite Ascii.eqb_sym.
Qed.

(** A directory that is not made of separators only has a name: its path
    is not empty and does not end with a separator. *)
Lemma dirname_name p :
  Os.all_sep (Os.dirname p) = false ->
  Os.dirname p <> "" /\ Str.ends_with Str.sep (Os.dirname p) = false.
Proof.
  intros Hall. split; [intros Heq; rewrite Heq in Hall; discriminate|].
  unfold Os.dirname in *.
  destruct (negb (String.eqb (Os.head_of p) "") && negb (Os.all_sep (Os.head_of p)))
    eqn:Hc; [apply rstrip_not_ends|].
  apply andb_false_iff in Hc as [Hc | Hc]; apply negb_false_iff in Hc.
  - apply String.eqb_eq in Hc. rewrite Hc in Hall. discriminate.
  - congruence.
Qed.

(** [makedirs] ends with the directory itself. *)
Lemma ancestors_from_last d : forall pre b,
  d <> "" -> Str.ends_with Str.sep d = false ->
  exists l, Os.ancestors_from pre b d = (l ++ [(pre ++ d)%string])%list.
Proof.
  induction d as [|c r IH]; intros pre b Hne Hends; [contradiction|].
  simpl Os.ancestors_from.
  assert (pre ++ String c r = (pre ++ String c "") ++ r)%string as Hassoc
    by (now rewrite append_assoc).
  destruct r as [|c' r'].
  - simpl in Hends. rewrite Ascii.eqb_sym, Hends. simpl. now exists [].
  - assert (Str.ends_with Str.sep (String c' r') = false) as Hends' by exact Hends.
    rewrite Hassoc.
    destruct (Ascii.eqb c Str.sep).
    + destruct (IH (pre ++ String c "") false) as [l ->]; [discriminate | assumption |].
      exists ((if b then [pre] else []) ++ l)%list. now rewrite <- app_assoc.
    + destruct (IH (pre ++ String c "") true) as [l ->]; [discriminate | assumption |].
      now exists l.
Qed.

Lemma ancestors_from_lower d : forall pre b q,
  q ∈ Os.ancestors_from pre b d ->
  (String.length pre + (if b then 0 else 1) <= String.length q)%nat.
Proof.
  induction d as [|c r IH]; intros pre b q; simpl.
  - destruct b; [|intros []%elem_of_nil].
    intros ->%list_elem_of_singleton. lia.
  - destruct (Ascii.eqb c Str.sep).
    + rewrite elem_of_app. intros [Hq | Hq].
      * destruct b; [|now apply elem_of_nil in Hq].
        apply list_elem_of_singleton in Hq as ->. lia.
      * apply IH in Hq. rewrite length_append in Hq. simpl in Hq. destruct b; lia.
    + intros Hq. apply IH in Hq. rewrite length_append in Hq. simpl in Hq.
      destruct b; lia.
Qed.

(** [makedirs] goes through each directory once. *)
Lemma ancestors_from_nodup d : forall pre b, NoDup (Os.ancestors_from pre b d).
Proof.
  induction d as [|c r IH]; intros pre b; simpl.
  - destruct b; [apply NoDup_singleton | apply NoDup_nil_2].
  - destruct (Ascii.eqb c Str.sep); [|apply IH].
    destruct b; simpl; [|apply IH].
    apply NoDup_cons_2; [|apply IH].
    intros Hq. apply ancestors_from_lower in Hq.
    rewrite length_append in Hq. simpl in Hq. lia.
Qed.

End Paths.

Lemma mkdir_all_other targets : forall (f f' : gmap string node) q,
  Os.mkdir_all targets f = Ok f' -> q ∉ targets -> f' !! q = f !! q.
Proof.
  induction targets as [|t ts IH]; intros f f' q; [discriminate|].
  intros Hrun Hq. apply not_elem_of_cons in Hq as [Hne Hq].
  destruct ts as [|t' ts].
  - simpl in Hrun. destruct (f !! t); [discriminate|].
    injection Hrun as <-. now rewrite lookup_insert_ne.
  - change (match f !! t with
            | Some Dir => Os.mkdir_all (t' :: ts) f
            | Some (File _) => Raise (OSError "NotADirectoryError")
            | None => Os.mkdir_all (t' :: ts) (<[t := Dir]> f)
            end = Ok f') in Hrun.
    destruct (f !! t) as [[|]|] eqn:Hft; [discriminate| |].
    + now apply IH.
    + rewrite (IH _ _ _ Hrun Hq). now rewrite lookup_insert_ne.
Qed.

Lemma mkdir_all_keeps targets : forall (f f' : gmap string node) q,
  Os.mkdir_all targets f = Ok f' -> f !! q = Some Dir -> f' !! q = Some Dir.
Proof.
  induction targets as [|t ts IH]; intros f f' q; [discriminate|].
  intros Hrun Hq. destruct ts as [|t' ts].
  - simpl in Hrun. destruct (f !! t) eqn:Hft; [discriminate|].
    injection Hrun as <-. rewrite lookup_insert_ne; [assumption | congruence].
  - change (match f !! t with
            | Some Dir => Os.mkdir_all (t' :: ts) f
            | Some (File _) => Raise (OSError "NotADirectoryError")
            | None => Os.mkdir_all (t' :: ts) (<[t := Dir]> f)
            end = Ok f') in Hrun.
    destruct (f !! t) as [[|]|] eqn:Hft; [discriminate| |].
    + now apply (IH f).
    + apply (IH _ _ _ Hrun). rewrite lookup_insert_ne; [assumption | congruence].
Qed.

(** After [makedirs], every directory it went through exists. *)
Lemma mkdir_all_dirs targets : forall (f f' : gmap string node) q,
  Os.mkdir_all targets f = Ok f' -> q ∈ targets -> f' !! q = Some Dir.
Proof.
  induction targets as [|t ts IH]; intros f f' q; [discriminate|].
  intros Hrun Hq. destruct ts as [|t' ts].
  - apply list_elem_of_singleton in Hq as ->.
    simpl in Hrun. destruct (f !! t); [discriminate|].
    injection Hrun as <-. apply lookup_insert_eq.
  - change (match f !! t with
            | Some Dir => Os.mkdir_all (t' :: ts) f
            | Some (File _) => Raise (OSError "NotADirectoryError")
            | None => Os.mkdir_all (t' :: ts) (<[t := Dir]> f)
            end = Ok f') in Hrun.
    apply elem_of_cons in Hq as [-> | Hq];
      destruct (f !! t) as [[|]|] eqn:Hft; try discriminate.
    + now apply (mkdir_all_keeps _ _ _ _ Hrun).
    + apply (mkdir_all_keeps _ _ _ _ Hrun), lookup_insert_eq.
    + now apply (IH f).
    + now apply (IH (<[t := Dir]> f)).
Qed.

(** [makedirs] returns when the last directory is missing and no path
    before it names a regular file. *)
Lemma mkdir_all_succeeds l : forall (f : gmap string node) t,
  NoDup (l ++ [t])%list ->
  (forall q, q ∈ (l ++ [t])%list -> f !! q = None \/ f !! q = Some Dir) ->
  f !! t = None ->
  exists f', Os.mkdir_all (l ++ [t])%list f = Ok f'.
Proof.
  induction l as [|a l IH]; intros f t Hnodup Hfree Hlast.
  - simpl. rewrite Hlast. eauto.
  - change ((a :: l) ++ [t])%list with (a :: (l ++ [t])%list) in *.
    apply NoDup_cons in Hnodup as [Hfresh Hnodup].
    assert (a <> t) as Hne by (intros ->; apply Hfresh, elem_of_app; right; constructor).
    assert (forall q, q ∈ (l ++ [t])%list -> q <> a) as Hother by (intros q Hq ->; contradiction).
    assert (Os.mkdir_all (a :: (l ++ [t])%list) f
            = match f !! a with
              | Some Dir => Os.mkdir_all (l ++ [t])%list f
              | Some (File _) => Raise (OSError "NotADirectoryError")
              | None => Os.mkdir_all (l ++ [t])%list (<[a := Dir]> f)
              end) as ->.
    { destruct (l ++ [t])%list eqn:Hl; [now destruct l | reflexivity]. }
    destruct (Hfree a) as [Ha | Ha]; [constructor | rewrite Ha..].
    + apply IH; [assumption | | now rewrite lookup_insert_ne].
      intros q Hq. rewrite lookup_insert_ne by (apply not_eq_sym; auto).
      apply Hfree. now constructor.
    + apply IH; [assumption | | assumption].
      intros q Hq. apply Hfree. now constructor.
Qed.

(** A run that returns went through every step. *)
Lemma trace_length ops : forall f : gmap string node,
  fst (Os.run ops f) = Ok tt -> length (Os.trace ops f) = length ops.
Proof.
  induction ops as [|o ops IH]; intros f; simpl; [reflexivity|].
  destruct (Os.step o f) as [f'|]; [|discriminate].
  intros Hrun. simpl. now rewrite IH.
Qed.

Section WriteFile.

Variable path : string.

Let temp_path : string := path ++ "~".
Let dir : string := Os.dirname path.

Lemma temp_path_fresh : temp_path <> path.
Proof. apply append_longer. discriminate. Qed.

Lemma makedirs_target (f f' : gmap string node) :
  Os.makedirs dir f = Ok f' ->
  f' !! path = f !! path /\ f' !! temp_path = f !! temp_path
  /\ forall q, q ∈ Os.ancestors dir -> f' !! q = Some Dir.
Proof.
  unfold Os.makedirs. intros Hrun.
  split; [|split].
  - apply (mkdir_all_other _ _ _ _ Hrun). intros Hq.
    now apply ancestors_not_target in Hq as [? _].
  - apply (mkdir_all_other _ _ _ _ Hrun). intros Hq.
    now apply ancestors_not_target in Hq as [_ ?].
  - intros q. apply (mkdir_all_dirs _ _ _ _ Hrun).
Qed.

Lemma open_target (f f' : gmap string node) :
  Os.open_wb temp_path f = Ok f' ->
  f' = <[temp_path := File ""]> f.
Proof.
  unfold Os.open_wb.
  destruct (f !! temp_path) as [[|]|]; try discriminate;
    (destruct (Os.is_dir f _); [congruence | destruct (Os.under_file f _); discriminate]).
Qed.

Lemma write_target chunk (f f' : gmap string node) :
  Os.write temp_path chunk f = Ok f' ->
  exists acc, f !! temp_path = Some (File acc)
              /\ f' = <[temp_path := File (acc ++ chunk)]> f.
Proof.
  unfold Os.write. destruct (f !! temp_path) as [[acc|]|]; try discriminate.
  intros [= <-]. eauto.
Qed.

Lemma rename_target (f f' : gmap string node) :
  Os.rename temp_path path f = Ok f' ->
  exists acc, f !! temp_path = Some (File acc)
              /\ f' = <[path := File acc]> (delete temp_path f).
Proof.
  unfold Os.rename. destruct (f !! temp_path) as [[acc|]|]; try discriminate.
  destruct (f !! path) as [[|]|]; try discriminate; intros [= <-]; eauto.
Qed.

(** While the data is written and the file renamed, the target holds what
    it held, or all of the data. *)
Lemma trace_of_writes chunks : forall (f s : gmap string node) acc,
  f !! temp_path = Some (File acc) ->
  s ∈ Os.trace (map (Os.Write temp_path) chunks ++ [Os.Rename temp_path path]) f ->
  s !! path = f !! path \/ s !! path = Some (File (acc ++ Str.cat chunks)).
Proof.
  induction chunks as [|chunk chunks IH]; intros f s acc Hacc; simpl.
  - destruct (Os.rename temp_path path f) as [f'|] eqn:Hstep; [|intros []%elem_of_nil].
    intros ->%list_elem_of_singleton.
    apply rename_target in Hstep as (acc' & Hacc' & ->).
    right. rewrite lookup_insert_eq, append_empty_r. congruence.
  - destruct (Os.write temp_path chunk f) as [f'|] eqn:Hstep; [|intros []%elem_of_nil].
    apply write_target in Hstep as (acc' & Hacc' & ->).
    assert (acc' = acc) as -> by congruence.
    pose proof temp_path_fresh as Hfresh.
    intros [-> | Hs]%elem_of_cons.
    + left. now rewrite lookup_insert_ne.
    + apply (IH _ _ (acc ++ chunk)) in Hs; [|apply lookup_insert_eq].
      rewrite lookup_insert_ne in Hs by assumption.
      now rewrite append_assoc in Hs.
Qed.

Lemma run_of_writes chunks : forall (f f' : gmap string node) acc,
  f !! temp_path = Some (File acc) ->
  Os.run (map (Os.Write temp_path) chunks ++ [Os.Rename temp_path path]) f = (Ok tt, f') ->
  f' = <[path := File (acc ++ Str.cat chunks)]> (delete temp_path f).
Proof.
  induction chunks as [|chunk chunks IH]; intros f f' acc Hacc; simpl.
  - destruct (Os.rename temp_path path f) as [f1|] eqn:Hstep; [|discriminate].
    intros [= <-]. apply rename_target in Hstep as (acc' & Hacc' & ->).
    rewrite append_empty_r. congruence.
  - destruct (Os.write temp_path chunk f) as [f1|] eqn:Hstep; [|discriminate].
    apply write_target in Hstep as (acc' & Hacc' & ->).
    assert (acc' = acc) as -> by congruence.
    intros Hrun. apply (IH _ _ (acc ++ chunk)) in Hrun; [|apply lookup_insert_eq].
    rewrite Hrun, append_assoc. now rewrite delete_insert_eq.
Qed.

Lemma last_nonempty {A} (l : list A) x d d' :
  List.last (x :: l) d = List.last (x :: l) d'.
Proof. revert x. induction l as [|y l IH]; intros x; [reflexivity | apply IH]. Qed.

(** The run ends in the last state of its trace. *)
Lemma run_last ops : forall f : gmap string node,
  snd (Os.run ops f) = List.last (Os.trace ops f) f.
Proof.
  induction ops as [|o ops IH]; intros f; simpl; [reflexivity|].
  destruct (Os.step o f) as [f'|]; [|reflexivity].
  rewrite IH. destruct (Os.trace ops f') as [|g l]; [reflexivity|].
  exact (last_nonempty l g f' f).
Qed.

(** Every state of the file system during [write_file] has, at the
    target, what was there before or all of the data. *)
Lemma write_file_trace chunks (f s : gmap string node) :
  s ∈ Os.trace (write_file_ops (Os.exists_ f dir) path chunks) f ->
  s !! path = f !! path \/ s !! path = Some (File (Str.cat chunks)).
Proof.
  assert (forall f1 : gmap string node,
    f1 !! path = f !! path ->
    s ∈ Os.trace (Os.OpenWb temp_path
                    :: map (Os.Write temp_path) chunks ++ [Os.Rename temp_path path]) f1 ->
    s !! path = f !! path \/ s !! path = Some (File (Str.cat chunks))) as Hopen.
  { intros f1 Hf1. simpl.
    destruct (Os.open_wb temp_path f1) as [f2|] eqn:Hstep; [|intros []%elem_of_nil].
    apply open_target in Hstep as ->.
    pose proof temp_path_fresh as Hfresh.
    intros [-> | Hs]%elem_of_cons.
    - left. now rewrite lookup_insert_ne.
    - apply (trace_of_writes _ _ _ "") in Hs; [|apply lookup_insert_eq].
      rewrite lookup_insert_ne in Hs by assumption.
      now rewrite Hf1 in Hs. }
  unfold write_file_ops. fold dir temp_path.
  destruct (Os.exists_ f dir); simpl negb; cbv iota.
  - now apply Hopen.
  - change (s ∈ Os.trace (Os.MakeDirs dir :: Os.OpenWb temp_path
              :: map (Os.Write temp_path) chunks ++ [Os.Rename temp_path path]) f
            -> s !! path = f !! path \/ s !! path = Some (File (Str.cat chunks))).
    simpl Os.trace at 1. cbn [Os.step].
    destruct (Os.makedirs dir f) as [f1|] eqn:Hstep; [|intros []%elem_of_nil].
    apply makedirs_target in Hstep as (Hp & _ & _).
    intros [-> | Hs]%elem_of_cons; [now left|].
    now apply (Hopen f1).
Qed.

(** When [write_file] returns, the target holds the data, the temporary
    file is gone, and the directory of the target exists with all the
    directories above it that [makedirs] had to create. *)
Lemma write_file_done chunks (f f' : gmap string node) :
  Os.run (write_file_ops (Os.exists_ f dir) path chunks) f = (Ok tt, f') ->
  f' !! path = Some (File (Str.cat chunks))
  /\ f' !! temp_path = None
  /\ (Os.exists_ f dir = false -> forall q, q ∈ Os.ancestors dir -> f' !! q = Some Dir).
Proof.
  pose proof temp_path_fresh as Hfresh.
  assert (forall f1 : gmap string node,
    Os.run (Os.OpenWb temp_path
              :: map (Os.Write temp_path) chunks ++ [Os.Rename temp_path path]) f1
    = (Ok tt, f') ->
    f' = <[path := File (Str.cat chunks)]> (delete temp_path f1)) as Hopen.
  { intros f1. simpl.
    destruct (Os.open_wb temp_path f1) as [f2|] eqn:Hstep; [|discriminate].
    apply open_target in Hstep as ->. intros Hrun.
    apply (run_of_writes _ _ _ "") in Hrun; [|apply lookup_insert_eq].
    now rewrite delete_insert_eq in Hrun. }
  unfold write_file_ops. fold dir temp_path.
  destruct (Os.exists_ f dir); simpl negb; cbv iota.
  - intros Hrun. apply Hopen in Hrun as ->.
    rewrite lookup_insert_eq, lookup_insert_ne, lookup_delete_eq by congruence.
    repeat split. discriminate.
  - change (Os.run (Os.MakeDirs dir :: Os.OpenWb temp_path
              :: map (Os.Write temp_path) chunks ++ [Os.Rename temp_path path]) f
            = (Ok tt, f') -> f' !! path = Some (File (Str.cat chunks))
            /\ f' !! temp_path = None
            /\ (false = false -> forall q, q ∈ Os.ancestors dir -> f' !! q = Some Dir)).
    simpl Os.run at 1. cbn [Os.step].
    destruct (Os.makedirs dir f) as [f1|] eqn:Hstep; [|discriminate].
    apply makedirs_target in Hstep as (_ & _ & Hdirs).
    intros Hrun. apply Hopen in Hrun as ->.
    rewrite lookup_insert_eq, lookup_insert_ne, lookup_delete_eq by congruence.
    repeat split. intros _ q Hq.
    apply ancestors_not_target in Hq as Hne. destruct Hne as [Hne1 Hne2].
    fold temp_path in Hne2.
    rewrite lookup_insert_ne, lookup_delete_ne by congruence. now apply Hdirs.
Qed.

(** When the directory is missing and can be made, [makedirs] makes it. *)
Lemma makedirs_succeeds (f : gmap string node) :
  f !! dir = None -> Os.all_sep dir = false ->
  (forall q, q ∈ Os.ancestors dir -> f !! q = None \/ f !! q = Some Dir) ->
  exists f', Os.makedirs dir f = Ok f' /\ f' !! dir = Some Dir.
Proof.
  intros Hmissing Hall Hfree.
  destruct (dirname_name path Hall) as [Hne Hends]. fold dir in Hne, Hends.
  destruct (ancestors_from_last dir "" false Hne Hends) as [l Hl].
  change ("" ++ dir) with dir in Hl. fold (Os.ancestors dir) in Hl.
  unfold Os.makedirs.
  destruct (mkdir_all_succeeds l f dir) as [f' Hrun].
  - rewrite <- Hl. apply ancestors_from_nodup.
  - now rewrite <- Hl.
  - assumption.
  - rewrite Hl. exists f'. split; [assumption|].
    apply (mkdir_all_dirs _ _ _ _ Hrun), elem_of_app. right. constructor.
Qed.

(** The writes put the pieces one after the other into the temporary
    file, and the rename moves it onto the target. *)
Lemma writes_carried chunks : forall (f : gmap string node) acc,
  f !! temp_path = Some (File acc) -> f !! path <> Some Dir ->
  exists before s,
    (f :: Os.trace (map (Os.Write temp_path) chunks ++ [Os.Rename temp_path path]) f
     = before ++ [s; <[path := File (acc ++ Str.cat chunks)%string]> (delete temp_path s)])%list
    /\ s !! temp_path = Some (File (acc ++ Str.cat chunks))
    /\ s !! path = f !! path
    /\ Os.run (map (Os.Write temp_path) chunks ++ [Os.Rename temp_path path]) f
       = (Ok tt, <[path := File (acc ++ Str.cat chunks)]> (delete temp_path s)).
Proof.
  induction chunks as [|chunk chunks IH]; intros f acc Hacc Hpath;
    cbn [map app Os.trace Os.run Os.step Str.cat fold_right].
  - rewrite append_empty_r. unfold Os.rename. rewrite Hacc.
    exists [], f.
    destruct (f !! path) as [[|]|]; [|contradiction|]; repeat split; assumption.
  - unfold Os.write at 1 2. rewrite Hacc.
    pose proof temp_path_fresh as Hfresh.
    destruct (IH (<[temp_path := File (acc ++ chunk)]> f) (acc ++ chunk))
      as (before & s & Htrace & Htemp & Htarget & Hrun).
    { apply lookup_insert_eq. }
    { now rewrite lookup_insert_ne. }
    rewrite lookup_insert_ne in Htarget by assumption.
    rewrite append_assoc in Htrace, Htemp, Hrun.
    exists (f :: before), s. rewrite Htrace. repeat split; assumption.
Qed.

(** [write_file] is carried out whenever the directory is there or can be
    made and neither path names a directory: the state before the last one
    has all of the data in the temporary file and the target as it was, and
    the last state is that one with the temporary file renamed. *)
Lemma write_file_carried chunks (f : gmap string node) :
  dir_ready f dir -> f !! temp_path <> Some Dir -> f !! path <> Some Dir ->
  exists before s,
    (Os.trace (write_file_ops (Os.exists_ f dir) path chunks) f
     = before ++ [s; <[path := File (Str.cat chunks)]> (delete temp_path s)])%list
    /\ s !! temp_path = Some (File (Str.cat chunks))
    /\ s !! path = f !! path
    /\ Os.run (write_file_ops (Os.exists_ f dir) path chunks) f
       = (Ok tt, <[path := File (Str.cat chunks)]> (delete temp_path s)).
Proof.
  intros Hready Htemp Htarget.
  pose proof temp_path_fresh as Hfresh.
  assert (forall f1 : gmap string node,
    Os.is_dir f1 dir = true -> f1 !! temp_path <> Some Dir -> f1 !! path = f !! path ->
    exists before s,
      (Os.trace (Os.OpenWb temp_path
                   :: map (Os.Write temp_path) chunks ++ [Os.Rename temp_path path]) f1
       = before ++ [s; <[path := File (Str.cat chunks)]> (delete temp_path s)])%list
      /\ s !! temp_path = Some (File (Str.cat chunks))
      /\ s !! path = f !! path
      /\ Os.run (Os.OpenWb temp_path
                   :: map (Os.Write temp_path) chunks ++ [Os.Rename temp_path path]) f1
         = (Ok tt, <[path := File (Str.cat chunks)]> (delete temp_path s))) as Hopen.
  { intros f1 Hdir Htemp1 Htarget1.
    cbn [Os.trace Os.run Os.step].
    assert (Os.open_wb temp_path f1 = Ok (<[temp_path := File ""]> f1)) as ->.
    { unfold Os.open_wb, temp_path. rewrite dirname_temp. fold dir temp_path.
      rewrite Hdir. now destruct (f1 !! temp_path) as [[|]|]. }
    destruct (writes_carried chunks (<[temp_path := File ""]> f1) "")
      as (before & s & Htrace & Hs & Hp & Hrun).
    { apply lookup_insert_eq. }
    { rewrite lookup_insert_ne by assumption. congruence. }
    rewrite lookup_insert_ne in Hp by assumption.
    exists before, s. repeat split; [exact Htrace | exact Hs | congruence | exact Hrun]. }
  unfold write_file_ops. fold dir temp_path.
  destruct Hready as [Hdir | (Hmissing & Hall & Hfree)].
  - assert (Os.exists_ f dir = true) as ->
      by (unfold Os.exists_; rewrite Hdir; apply bool_decide_eq_true_2; eauto).
    apply Hopen; [|assumption|reflexivity].
    unfold Os.is_dir. rewrite Hdir. apply orb_true_r.
  - assert (Os.exists_ f dir = false) as ->
      by (unfold Os.exists_; rewrite Hmissing; apply bool_decide_eq_false_2;
          intros [? ?]; discriminate).
    destruct (makedirs_succeeds f Hmissing Hall Hfree) as (f1 & Hmk & Hdir1).
    destruct (makedirs_target _ _ Hmk) as (Hp1 & Ht1 & _).
    destruct (Hopen f1) as (before & s & Htrace & Hs & Hp & Hrun).
    { unfold Os.is_dir. rewrite Hdir1. apply orb_true_r. }
    { now rewrite Ht1. }
    { assumption. }
    change (negb false) with true. cbv iota.
    change ([Os.MakeDirs dir] ++ [Os.OpenWb temp_path]
            ++ map (Os.Write temp_path) chunks ++ [Os.Rename temp_path path])%list
      with (Os.MakeDirs dir :: Os.OpenWb temp_path
            :: map (Os.Write temp_path) chunks ++ [Os.Rename temp_path path]).
    change (Os.trace (Os.MakeDirs dir :: ?l) f)
      with (match Os.makedirs dir f with
            | Ok f' => f' :: Os.trace l f'
            | Raise _ => []
            end).
    change (Os.run (Os.MakeDirs dir :: ?l) f)
      with (match Os.makedirs dir f with
            | Ok f' => Os.run l f'
            | Raise e => (Raise e, f)
            end).
    rewrite Hmk. exists (f1 :: before), s. rewrite Htrace.
    repeat split; assumption.
Qed.

End WriteFile.

(** C7: persisting the settings follows the steps of [write_file]: the
    directory of the settings file is made, with the directories above it,
    when it is missing; the temporary file, whose path is the one of the
    settings file followed by [~] and which is in the same directory, is
    opened and receives the serialised mapping; and it is renamed onto the
    settings file.  The steps are carried out whenever the directory is
    there or can be made and neither path names a directory: the run
    returns after every step, the state before the last holds the whole
    data in the temporary file with the settings file as it was, and the
    last state has the temporary file renamed onto the settings file.  In
    every state of the file system on the way, in whatever pieces the data
    reaches the temporary file and wherever the run stops, the settings
    file holds what it held before or the whole new data. *)
Theorem save_values_atomic self w chunks :
  let path := Settings._path self in
  let temp := path ++ "~" in
  let dir := Os.dirname path in
  let data := Utf8.encode (Json.dumps (Settings._values self)) in
  let ops := write_file_ops (Os.exists_ (fs w) dir) path chunks in
  Settings._values self <> JNull ->
  Str.cat chunks = data ->
  (ops = (if Os.exists_ (fs w) dir then [] else [Os.MakeDirs dir])
         ++ Os.OpenWb temp :: map (Os.Write temp) chunks ++ [Os.Rename temp path])%list
  /\ Os.dirname temp = dir
  /\ (chunks = [data] ->
      Settings._save_values self w
      = if Json.within_limit (Settings._values self)
        then (fst (Os.run ops (fs w)), with_fs (snd (Os.run ops (fs w))) w)
        else (Raise (ValueError
                       "Exceeds the limit (4300 digits) for integer string conversion"),
              w))
  /\ (dir_ready (fs w) dir -> fs w !! temp <> Some Dir -> fs w !! path <> Some Dir ->
      exists before s,
        (Os.trace ops (fs w)
         = before ++ [s; <[path := File data]> (delete temp s)])%list
        /\ s !! temp = Some (File data)
        /\ s !! path = fs w !! path
        /\ Os.run ops (fs w) = (Ok tt, <[path := File data]> (delete temp s))
        /\ length (Os.trace ops (fs w)) = length ops)
  /\ (forall s, s ∈ Os.trace ops (fs w) ->
        s !! path = fs w !! path \/ s !! path = Some (File data))
  /\ snd (Os.run ops (fs w)) = List.last (Os.trace ops (fs w)) (fs w)
  /\ (fst (Os.run ops (fs w)) = Ok tt ->
      let final := snd (Os.run ops (fs w)) in
      final !! path = Some (File data)
      /\ final !! temp = None
      /\ (Os.exists_ (fs w) dir = false ->
          forall q, q ∈ Os.ancestors dir -> final !! q = Some Dir)).
Proof.
  intros path temp dir data ops Hloaded Hcat.
  split; [unfold ops, write_file_ops; now destruct (Os.exists_ (fs w) dir)|].
  split; [apply dirname_temp|].
  split.
  { intros ->. rewrite save_values_cases by assumption.
    destruct (Json.within_limit _); [|reflexivity].
    unfold write_file. fold path data dir ops.
    now destruct (Os.run ops (fs w)). }
  split.
  { intros Hready Htemp Htarget.
    destruct (write_file_carried path chunks (fs w) Hready Htemp Htarget)
      as (before & s & Htrace & Hs & Hp & Hrun).
    rewrite Hcat in Htrace, Hs, Hrun.
    exists before, s. repeat split; try assumption.
    apply trace_length. fold path dir in Hrun. fold ops in Hrun. now rewrite Hrun. }
  split; [intros s Hs; rewrite <- Hcat; now apply write_file_trace|].
  split; [apply run_last|].
  intros Hok. destruct (Os.run ops (fs w)) as [r final] eqn:Hrun.
  simpl in Hok. subst r. simpl. rewrite <- Hcat.
  now apply write_file_done.
Qed.

(** ** Serialisation round trip *)

(** Evaluate the comparisons of two given characters. *)
Ltac eqb_eval :=
  repeat match goal with
         | |- context [Ascii.eqb ?a ?b] =>
             let v := eval vm_compute in (Ascii.eqb a b) in
             lazymatch v with
             | true => idtac
             | false => idtac
             end;
             change (Ascii.eqb a b) with v
         end;
  cbv iota.

Lemma decode_encode_cons c r :
  Utf8.decode (Utf8.encode (String c r))
  = match Utf8.decode (Utf8.encode r) with
    | Ok t => Ok (String c t)
    | Raise e => Raise e
    end.
Proof. destruct c as [[] [] [] [] [] [] [] []]; reflexivity. Qed.

(** Decoding the encoding of a text gives the text back. *)
Lemma decode_encode text : Utf8.decode (Utf8.encode text) = Ok text.
Proof.
  induction text as [|c r IH]; [reflexivity|].
  now rewrite decode_encode_cons, IH.
Qed.

Lemma scan_escape_char c tail :
  Json.scan_string (Json.escape_char c ++ tail) = Json.cons_char c (Json.scan_string tail).
Proof. destruct c as [[] [] [] [] [] [] [] []]; reflexivity. Qed.

(** Reading an encoded string literal gives the text back. *)
Lemma scan_escape s rest :
  Json.scan_string (Json.escape s ++ String Str.dquote rest) = Some (s, rest).
Proof.
  induction s as [|c r IH]; [reflexivity|].
  simpl Json.escape. now rewrite append_assoc, scan_escape_char, IH.
Qed.

Lemma tail_ok_facts rest :
  tail_ok rest = true ->
  Json.float_tail rest = false
  /\ Json.skip_ws rest = rest
  /\ match rest with String c _ => Json.is_digit c = false | EmptyString => True end.
Proof.
  destruct rest as [|c r]; [repeat split|].
  destruct c as [[] [] [] [] [] [] [] []]; try discriminate;
    intros _; destruct r; repeat split.
Qed.

Lemma string_of_uint_digits u : Str.all Json.is_digit (NilEmpty.string_of_uint u) = true.
Proof. induction u; simpl; auto. Qed.

Lemma span_digits_app ds rest :
  Str.all Json.is_digit ds = true ->
  match rest with String c _ => Json.is_digit c = false | EmptyString => True end ->
  Json.span_digits (ds ++ rest) = (ds, rest).
Proof.
  intros Hds Hrest. induction ds as [|c r IH]; simpl.
  - destruct rest as [|c r]; [reflexivity|]. simpl. now rewrite Hrest.
  - simpl in Hds. apply andb_true_iff in Hds as [Hc Hr].
    now rewrite Hc, (IH Hr).
Qed.

Lemma to_uint_leading p u : Pos.to_uint p <> D0 u.
Proof.
  intros Heq.
  assert (unorm (Pos.to_uint p) = Pos.to_uint p) as Hnorm.
  { rewrite <- DecimalPos.Unsigned.to_of, DecimalPos.Unsigned.of_to. reflexivity. }
  rewrite Heq, DecimalFacts.unorm_D0 in Hnorm. unfold unorm in Hnorm.
  destruct (nzhead u) as [|u0| | | | | | | | |] eqn:Hnz; try discriminate Hnorm.
  - apply (DecimalPos.Unsigned.to_uint_nonzero p). rewrite Heq. symmetry. exact Hnorm.
  - exact (DecimalFacts.nzhead_nonzero u u0 Hnz).
Qed.

Lemma finish_number_digits neg ds rest u :
  Json.float_tail rest = false ->
  (Z.of_nat (String.length ds) <=? Json.max_str_digits) = true ->
  NilEmpty.uint_of_string ds = Some u ->
  Json.finish_number neg ds rest
  = Some (JInt (if neg then - Z.of_uint u else Z.of_uint u), rest).
Proof.
  intros Hfloat Hlimit Hds. unfold Json.finish_number.
  now rewrite Hfloat, Hlimit, Hds.
Qed.

Lemma scan_unsigned_uint neg u rest :
  u <> Nil -> (forall u', u <> D0 u') -> tail_ok rest = true ->
  (Z.of_nat (String.length (NilEmpty.string_of_uint u)) <=? Json.max_str_digits) = true ->
  Json.scan_unsigned neg (NilEmpty.string_of_uint u ++ rest)
  = Some (JInt (if neg then - Z.of_uint u else Z.of_uint u), rest).
Proof.
  intros Hnil Hzero Hrest Hlimit.
  destruct (tail_ok_facts rest Hrest) as (Hfloat & _ & Hdigit).
  pose proof (NilEmpty.usu u) as Husu.
  destruct u; try congruence; try (now destruct (Hzero u));
    simpl NilEmpty.string_of_uint in Husu |- *; simpl append; unfold Json.scan_unsigned;
    eqb_eval;
    rewrite (span_digits_app _ _ (string_of_uint_digits u) Hdigit);
    cbn [fst snd]; apply finish_number_digits; assumption.
Qed.

Lemma of_Z_cases z :
  (z = 0 /\ Str.of_Z z = "0")
  \/ exists (neg : bool) (u : uint), u <> Nil /\ (forall u', u <> D0 u')
       /\ Str.of_Z z = (if neg then "-" else "") ++ NilEmpty.string_of_uint u
       /\ z = (if neg then - Z.of_uint u else Z.of_uint u)
       /\ Str.of_Z (Z.abs z) = NilEmpty.string_of_uint u.
Proof.
  destruct z as [|p|p]; [now left | right; exists false | right; exists true];
    exists (Pos.to_uint p);
    (split; [apply DecimalPos.Unsigned.to_uint_nonnil|]);
    (split; [intros u'; apply to_uint_leading|]);
    (split; [unfold Str.of_Z; simpl;
             pose proof (DecimalPos.Unsigned.to_uint_nonnil p);
             now destruct (Pos.to_uint p)|]);
    (split; [unfold Z.of_uint; now rewrite DecimalPos.Unsigned.of_to|]);
    unfold Str.of_Z; simpl;
    pose proof (DecimalPos.Unsigned.to_uint_nonnil p);
    now destruct (Pos.to_uint p).
Qed.

(** Reading a printed integer gives the integer back. *)
Lemma scan_number_of_Z z rest :
  Json.int_ok z = true ->
  tail_ok rest = true ->
  Json.scan_number (Str.of_Z z ++ rest) = Some (JInt z, rest).
Proof.
  intros Hlimit Hrest. unfold Json.int_ok in Hlimit.
  destruct (of_Z_cases z) as [[-> ->] | (neg & u & Hnil & Hzero & Hstr & Hz & Habs)].
  - destruct (tail_ok_facts rest Hrest) as (Hfloat & _ & _).
    simpl. unfold Json.scan_number, Json.scan_unsigned. eqb_eval.
    now apply (finish_number_digits false "0" rest (D0 Nil)).
  - rewrite Habs in Hlimit. rewrite Hstr, Hz. clear Hstr Hz Habs.
    destruct neg.
    + simpl append. unfold Json.scan_number. eqb_eval.
      now apply scan_unsigned_uint.
    + simpl append.
      rewrite <- (scan_unsigned_uint false u rest Hnil Hzero Hrest Hlimit).
      unfold Json.scan_number.
      destruct u; try congruence; try (now destruct (Hzero u));
        simpl NilEmpty.string_of_uint; simpl append; eqb_eval; reflexivity.
Qed.

(** An integer within the limit is below [10 ^ 4300] in absolute value. *)
Lemma of_lu_bound d :
  (DecimalPos.Unsigned.of_lu d < 10 ^ DecimalPos.Unsigned.usize d)%N.
Proof.
  induction d; cbn [DecimalPos.Unsigned.of_lu DecimalPos.Unsigned.usize];
    rewrite ?N.pow_succ_r'; [reflexivity|..].
  all: set (a := DecimalPos.Unsigned.of_lu d) in *;
    set (b := (10 ^ DecimalPos.Unsigned.usize d)%N) in *; lia.
Qed.

Lemma usize_digits d : DecimalPos.Unsigned.usize d = N.of_nat (Decimal.nb_digits d).
Proof.
  induction d; cbn [DecimalPos.Unsigned.usize Decimal.nb_digits]; lia.
Qed.

Lemma string_of_uint_length u :
  String.length (NilEmpty.string_of_uint u) = Decimal.nb_digits u.
Proof. induction u; simpl; congruence. Qed.

Lemma of_uint_bound u :
  Z.of_N (Pos.of_uint u) < 10 ^ Z.of_nat (String.length (NilEmpty.string_of_uint u)).
Proof.
  rewrite DecimalPos.Unsigned.of_uint_alt, string_of_uint_length.
  pose proof (of_lu_bound (Decimal.rev u)) as Hb.
  rewrite usize_digits, DecimalFacts.nb_digits_rev in Hb.
  apply N2Z.inj_lt in Hb. rewrite N2Z.inj_pow in Hb.
  now rewrite nat_N_Z in Hb.
Qed.

Lemma int_ok_bound z : Json.int_ok z = true -> Z.abs z < 10 ^ Json.max_str_digits.
Proof.
  unfold Json.int_ok.
  destruct (of_Z_cases z) as [[-> _] | (neg & u & _ & _ & _ & Hz & Habs)].
  - intros _. apply Z.pow_pos_nonneg; [lia | discriminate].
  - rewrite Habs. intros Hlen%Z.leb_le.
    assert (Z.abs z = Z.of_N (Pos.of_uint u)) as ->.
    { rewrite Hz. unfold Z.of_uint.
      destruct neg; rewrite ?Z.abs_opp; apply Z.abs_eq, N2Z.is_nonneg. }
    eapply Z.lt_le_trans; [apply of_uint_bound|].
    apply Z.pow_le_mono_r; [lia | exact Hlen].
Qed.

(** Induction on a value, with the hypothesis for every item of a list and
    every value of a dictionary. *)
Lemma json_induction (P : json -> Prop) :
  P JNull -> (forall b, P (JBool b)) -> (forall z, P (JInt z)) -> (forall s, P (JStr s)) ->
  (forall l, Forall P l -> P (JList l)) ->
  (forall m, Forall (fun kv => P (snd kv)) m -> P (JDict m)) ->
  forall j, P j.
Proof.
  intros Hnull Hbool Hint Hstr Hlist Hdict.
  fix IH 1. intros [ | b | z | s | l | m ].
  - exact Hnull.
  - apply Hbool.
  - apply Hint.
  - apply Hstr.
  - apply Hlist. induction l as [|x l IHl]; constructor; [apply IH | exact IHl].
  - apply Hdict. induction m as [|kv m IHm]; constructor; [apply IH | exact IHm].
Qed.

Lemma wf_list l : wf_json (JList l) <-> Forall wf_json l.
Proof.
  induction l as [|x l IH]; simpl.
  - split; [constructor | trivial].
  - simpl in IH. rewrite IH. split.
    + intros [Hx Hl]. now constructor.
    + intros H. inversion H; subst. auto.
Qed.

Lemma wf_dict m :
  wf_json (JDict m) <-> NoDup (map fst m) /\ Forall (fun kv => wf_json (snd kv)) m.
Proof.
  simpl. apply and_iff_compat_l.
  induction m as [|kv m IH].
  - split; [constructor | trivial].
  - rewrite IH. split.
    + intros [Hx Hl]. now constructor.
    + intros H. inversion H; subst. auto.
Qed.

Lemma depth_item l x : x ∈ l -> (depth x < depth (JList l))%nat.
Proof.
  simpl. induction l as [|y l IH]; [intros []%elem_of_nil|].
  intros [-> | Hx]%elem_of_cons; simpl; [lia|].
  specialize (IH Hx). lia.
Qed.

Lemma depth_member m kv : kv ∈ m -> (depth (snd kv) < depth (JDict m))%nat.
Proof.
  simpl. induction m as [|y m IH]; [intros []%elem_of_nil|].
  intros [-> | Hx]%elem_of_cons; simpl; [lia|].
  specialize (IH Hx). lia.
Qed.

Lemma digit_head c :
  Json.is_digit c || Ascii.eqb c "-" = true ->
  value_head c = true
  /\ Ascii.eqb c Str.dquote = false /\ Ascii.eqb c "{" = false /\ Ascii.eqb c "[" = false
  /\ Ascii.eqb "n" c = false /\ Ascii.eqb "t" c = false /\ Ascii.eqb "f" c = false.
Proof.
  destruct c as [[] [] [] [] [] [] [] []]; try discriminate; intros _; repeat split.
Qed.

Lemma of_Z_head z t :
  exists c r, Str.of_Z z ++ t = String c r /\ Json.is_digit c || Ascii.eqb c "-" = true.
Proof.
  destruct (of_Z_cases z) as [[_ ->] | (neg & u & Hnil & _ & -> & _)].
  - eexists _, _. split; reflexivity.
  - destruct neg; [eexists _, _; split; reflexivity|].
    pose proof (string_of_uint_digits u) as Hd.
    destruct u; try congruence; simpl in Hd |- *; eexists _, _; (split; [reflexivity|]);
      reflexivity.
Qed.

(** A document starts with a character that starts a value. *)
Lemma dumps_head v t :
  exists c r, Json.dumps v ++ t = String c r /\ value_head c = true.
Proof.
  destruct v as [ | [] | z | s | l | m ]; try (eexists _, _; split; reflexivity).
  destruct (of_Z_head z t) as (c & r & Heq & Hc).
  exists c, r. split; [exact Heq | now apply digit_head].
Qed.

Lemma skip_ws_head c r : value_head c = true -> Json.skip_ws (String c r) = String c r.
Proof.
  unfold value_head. intros H. simpl. destruct (Json.is_ws c); [discriminate | reflexivity].
Qed.

Lemma skip_ws_dumps v t : Json.skip_ws (Json.dumps v ++ t) = Json.dumps v ++ t.
Proof.
  destruct (dumps_head v t) as (c & r & -> & Hc). now apply skip_ws_head.
Qed.

Lemma dumps_nonempty v : (1 <= String.length (Json.dumps v))%nat.
Proof.
  destruct (dumps_head v "") as (c & r & Heq & _).
  rewrite append_empty_r in Heq. rewrite Heq. simpl. lia.
Qed.

Lemma join_one sepr x : Str.join sepr [x] = x.
Proof. reflexivity. Qed.

Lemma join_cons sepr x y l :
  Str.join sepr (x :: y :: l) = x ++ sepr ++ Str.join sepr (y :: l).
Proof. reflexivity. Qed.

Lemma join_length {A} (f : A -> string) sepr l :
  (forall x, 1 <= String.length (f x))%nat ->
  (length l <= String.length (Str.join sepr (map f l)))%nat.
Proof.
  intros Hf. induction l as [|x [|y l] IH]; cbn [map]; [simpl; lia | |].
  - rewrite join_one. specialize (Hf x). simpl. lia.
  - rewrite join_cons, !length_append. specialize (Hf x). cbn [map length] in IH |- *. lia.
Qed.

Lemma join_item_length {A} (f : A -> string) sepr l x :
  x ∈ l -> (String.length (f x) <= String.length (Str.join sepr (map f l)))%nat.
Proof.
  induction l as [|y [|z l] IH]; cbn [map].
  - intros []%elem_of_nil.
  - intros ->%list_elem_of_singleton. rewrite join_one. lia.
  - rewrite join_cons, !length_append.
    intros [-> | Hx]%elem_of_cons; [lia|]. specialize (IH Hx). cbn [map] in IH. lia.
Qed.

(** Reading the printed items of a non-empty list gives the items back. *)
Lemma scan_items_dumps scan l :
  (forall x, x ∈ l -> forall tail, tail_ok tail = true ->
               scan (Json.dumps x ++ tail) = Some (x, tail)) ->
  l <> [] ->
  forall n rest, (length l <= n)%nat ->
    Json.scan_items scan n (Str.join ", " (map Json.dumps l) ++ String "]" rest)
    = Some (l, rest).
Proof.
  induction l as [|x [|y l] IH]; intros Hscan Hne n rest Hn; [congruence | |].
  - destruct n as [|n]; [simpl in Hn; lia|].
    cbn [map]. rewrite join_one. simpl Json.scan_items.
    rewrite Hscan by (constructor || reflexivity).
    simpl. eqb_eval. reflexivity.
  - destruct n as [|n]; [simpl in Hn; lia|].
    cbn [map]. rewrite join_cons, !append_assoc. simpl append.
    simpl Json.scan_items. rewrite Hscan by (constructor || reflexivity).
    simpl Json.skip_ws. eqb_eval.
    change (Json.dumps y :: map Json.dumps l) with (map Json.dumps (y :: l)).
    change (Json.skip_ws (String " " ?r)) with (Json.skip_ws r).
    assert (Json.skip_ws (Str.join ", " (map Json.dumps (y :: l)) ++ String "]" rest)
            = Str.join ", " (map Json.dumps (y :: l)) ++ String "]" rest) as ->.
    { destruct l; cbn [map]; [rewrite join_one | rewrite join_cons, !append_assoc];
        apply skip_ws_dumps. }
    rewrite IH; [reflexivity | | discriminate | simpl in Hn |- *; lia].
    intros x' Hx'. apply Hscan. now right.
Qed.

Lemma skip_ws_member kv t : Json.skip_ws (member_text kv ++ t) = member_text kv ++ t.
Proof. reflexivity. Qed.

Lemma member_text_nonempty kv : (1 <= String.length (member_text kv))%nat.
Proof. unfold member_text, Json.encode_str. simpl. lia. Qed.

(** Reading one printed member gives the key, and leaves the reader at the
    value. *)
Lemma scan_member_key k v tail :
  member_text (k, v) ++ tail
  = String Str.dquote (Json.escape k ++ String Str.dquote (String ":" (String " " (Json.dumps v ++ tail)))).
Proof.
  unfold member_text, Json.encode_str. simpl.
  now rewrite !append_assoc.
Qed.

(** Reading the printed members of a non-empty dictionary gives the
    members back. *)
Lemma scan_members_dumps scan m :
  (forall kv, kv ∈ m -> forall tail, tail_ok tail = true ->
                scan (Json.dumps (snd kv) ++ tail) = Some (snd kv, tail)) ->
  m <> [] ->
  forall n rest, (length m <= n)%nat ->
    Json.scan_members scan n (Str.join ", " (map member_text m) ++ String "}" rest)
    = Some (m, rest).
Proof.
  induction m as [|[k v] [|kv' m] IH]; intros Hscan Hne n rest Hn; [congruence | |].
  - destruct n as [|n]; [simpl in Hn; lia|].
    cbn [map]. rewrite join_one, scan_member_key.
    simpl Json.scan_members. eqb_eval. cbn [negb]. rewrite scan_escape.
    simpl Json.skip_ws. eqb_eval. cbn [negb].
    change (Json.skip_ws (String " " ?r)) with (Json.skip_ws r).
    rewrite skip_ws_dumps.
    rewrite (Hscan (k, v)) by (constructor || reflexivity).
    simpl Json.skip_ws. eqb_eval. reflexivity.
  - destruct n as [|n]; [simpl in Hn; lia|].
    cbn [map]. rewrite join_cons, !append_assoc, scan_member_key.
    simpl Json.scan_members. eqb_eval. cbn [negb]. rewrite scan_escape.
    simpl Json.skip_ws. eqb_eval. cbn [negb].
    change (Json.skip_ws (String " " ?r)) with (Json.skip_ws r).
    rewrite skip_ws_dumps.
    rewrite (Hscan (k, v)) by (constructor || reflexivity).
    simpl append. simpl Json.skip_ws. eqb_eval.
    change (member_text kv' :: map member_text m) with (map member_text (kv' :: m)).
    change (Json.skip_ws (String " " ?r)) with (Json.skip_ws r).
    assert (Json.skip_ws (Str.join ", " (map member_text (kv' :: m)) ++ String "}" rest)
            = Str.join ", " (map member_text (kv' :: m)) ++ String "}" rest) as ->.
    { destruct m; cbn [map]; [rewrite join_one | rewrite join_cons, !append_assoc];
        apply skip_ws_member. }
    rewrite IH; [reflexivity | | discriminate | simpl in Hn |- *; lia].
    intros x' Hx'. apply Hscan. now right.
Qed.

(** *** Dictionaries *)

Lemma dict_set_fresh m k v :
  k ∉ map fst m -> Json.dict_set m k v = (m ++ [(k, v)])%list.
Proof.
  induction m as [|[k' v'] m IH]; simpl; [reflexivity|].
  intros Hk. apply not_elem_of_cons in Hk as [Hne Hk].
  destruct (String.eqb_spec k' k); [congruence|]. now rewrite IH.
Qed.

Lemma dict_of_pairs_from acc m :
  NoDup (map fst (acc ++ m)%list) ->
  fold_left (fun d kv => Json.dict_set d (fst kv) (snd kv)) m acc = (acc ++ m)%list.
Proof.
  revert acc. induction m as [|[k v] m IH]; intros acc Hnd; simpl.
  - now rewrite app_nil_r.
  - assert (k ∉ map fst acc) as Hk.
    { rewrite map_app in Hnd. apply NoDup_app in Hnd as (_ & Hdis & _).
      intros Hin. apply (Hdis k Hin). simpl. now left. }
    rewrite (dict_set_fresh acc k v Hk).
    rewrite IH; rewrite <- app_assoc; [reflexivity | exact Hnd].
Qed.

(** A list of members with distinct keys is the dictionary made of it. *)
Lemma dict_of_pairs_nodup m : NoDup (map fst m) -> Json.dict_of_pairs m = m.
Proof. intros Hnd. unfold Json.dict_of_pairs. now rewrite dict_of_pairs_from. Qed.

Lemma dict_get_set m k v dflt : Json.dict_get (Json.dict_set m k v) k dflt = v.
Proof.
  induction m as [|[k' v'] m IH]; simpl.
  - now rewrite String.eqb_refl.
  - destruct (String.eqb_spec k' k) as [->|Hne]; simpl.
    + now rewrite String.eqb_refl.
    + destruct (String.eqb_spec k' k); [congruence | exact IH].
Qed.

Lemma dict_set_keys m k v :
  map fst (Json.dict_set m k v) = map fst m
  \/ ((k ∉ map fst m) /\ map fst (Json.dict_set m k v) = (map fst m ++ [k])%list).
Proof.
  induction m as [|[k' v'] m IH]; simpl.
  - right. split; [apply not_elem_of_nil | reflexivity].
  - destruct (String.eqb_spec k' k) as [->|Hne]; simpl; [now left|].
    destruct IH as [-> | [Hk ->]]; [now left|].
    right. split; [|reflexivity]. apply not_elem_of_cons. split; [congruence | exact Hk].
Qed.

Lemma dict_set_nodup m k v : NoDup (map fst m) -> NoDup (map fst (Json.dict_set m k v)).
Proof.
  intros Hnd. destruct (dict_set_keys m k v) as [-> | [Hk ->]]; [exact Hnd|].
  apply NoDup_app. split; [exact Hnd|]. split; [|apply NoDup_singleton].
  intros x Hx ->%list_elem_of_singleton. contradiction.
Qed.

Lemma dict_set_forall (P : json -> Prop) m k v :
  P v -> Forall (fun kv => P (snd kv)) m ->
  Forall (fun kv => P (snd kv)) (Json.dict_set m k v).
Proof.
  intros Hv. induction 1 as [|[k' v'] m Hx Hm IH]; simpl.
  - repeat constructor. exact Hv.
  - destruct (String.eqb k' k); constructor; auto.
Qed.

Lemma dict_set_wf m k v :
  wf_json (JDict m) -> wf_json v -> wf_json (JDict (Json.dict_set m k v)).
Proof.
  rewrite !wf_dict. intros [Hnd Hall] Hv. split.
  - now apply dict_set_nodup.
  - now apply dict_set_forall.
Qed.

Lemma dict_of_pairs_wf_from m : forall acc,
  wf_json (JDict acc) -> Forall (fun kv => wf_json (snd kv)) m ->
  wf_json (JDict (fold_left (fun d kv => Json.dict_set d (fst kv) (snd kv)) m acc)).
Proof.
  induction m as [|[k v] m IH]; intros acc Hacc Hm; simpl; [exact Hacc|].
  inversion Hm; subst. apply IH; [|assumption]. now apply dict_set_wf.
Qed.

(** Whatever the members read, the dictionary made of them has distinct
    keys. *)
Lemma dict_of_pairs_wf m :
  Forall (fun kv => wf_json (snd kv)) m -> wf_json (JDict (Json.dict_of_pairs m)).
Proof.
  intros Hm. unfold Json.dict_of_pairs. apply dict_of_pairs_wf_from; [|exact Hm].
  apply wf_dict. split; constructor.
Qed.

(** *** Reading what was printed *)

Lemma dumps_list l :
  Json.dumps (JList l) = "[" ++ Str.join ", " (map Json.dumps l) ++ "]".
Proof. reflexivity. Qed.

Lemma dumps_dict m :
  Json.dumps (JDict m) = "{" ++ Str.join ", " (map member_text m) ++ "}".
Proof. reflexivity. Qed.

Lemma scan_once_number fuel s c r :
  s = String c r -> Json.is_digit c || Ascii.eqb c "-" = true ->
  Json.scan_once (S fuel) s = Json.scan_number s.
Proof.
  intros -> Hc. destruct (digit_head c Hc) as (_ & Hq & Hb & Hk & Hn & Ht & Hf).
  simpl Json.scan_once. rewrite Hq, Hb, Hk.
  unfold Json.scan_literal. simpl Json.strip_prefix. now rewrite Hn, Ht, Hf.
Qed.

Lemma within_limit_list l y :
  Json.within_limit (JList l) = true -> y ∈ l -> Json.within_limit y = true.
Proof.
  simpl. rewrite forallb_forall. intros Hl Hy. now apply Hl, list_elem_of_In.
Qed.

Lemma within_limit_dict m kv :
  Json.within_limit (JDict m) = true -> kv ∈ m -> Json.within_limit (snd kv) = true.
Proof.
  simpl. rewrite forallb_forall. intros Hm Hkv. now apply (Hm kv), list_elem_of_In.
Qed.

(** Reading a printed value, whatever follows it in the document, gives the
    value back and leaves what follows. *)
Lemma scan_once_dumps : forall v,
  wf_json v -> Json.within_limit v = true -> forall fuel rest,
  (depth v < fuel)%nat -> tail_ok rest = true ->
  Json.scan_once fuel (Json.dumps v ++ rest) = Some (v, rest).
Proof.
  induction v as [ | b | z | s | l IH | m IH ] using json_induction;
    intros Hwf Hlimit [|fuel] rest Hfuel Hrest; try lia.
  - reflexivity.
  - destruct b; reflexivity.
  - destruct (of_Z_head z rest) as (c & r & Heq & Hc).
    change (Json.dumps (JInt z)) with (Str.of_Z z).
    rewrite (scan_once_number fuel _ c r Heq Hc).
    now apply scan_number_of_Z.
  - unfold Json.dumps, Json.encode_str. simpl append. rewrite append_assoc.
    simpl append. simpl Json.scan_once. eqb_eval. now rewrite scan_escape.
  - destruct l as [|x l]; [reflexivity|].
    rewrite dumps_list. simpl append. rewrite append_assoc. simpl append.
    set (items := x :: l) in *.
    assert (exists c r, Str.join ", " (map Json.dumps items) ++ String "]" rest = String c r
                        /\ value_head c = true) as (c & r & Heq & Hc).
    { subst items. destruct l; cbn [map];
        [rewrite join_one | rewrite join_cons, !append_assoc]; apply dumps_head. }
    simpl Json.scan_once. eqb_eval.
    change (Json.dumps x :: map Json.dumps l) with (map Json.dumps items).
    assert (length items <= String.length
              (Str.join ", " (map Json.dumps items) ++ String "]" rest))%nat as Hlen.
    { rewrite length_append.
      pose proof (join_length Json.dumps ", " items dumps_nonempty). lia. }
    assert (forall y, y ∈ items -> forall tail, tail_ok tail = true ->
              Json.scan_once fuel (Json.dumps y ++ tail) = Some (y, tail)) as Hscan.
    { intros y Hy tail Htail. rewrite Forall_forall in IH.
      apply IH; [exact Hy | | | | exact Htail].
      - apply wf_list in Hwf. rewrite Forall_forall in Hwf. now apply Hwf.
      - now apply (within_limit_list items).
      - pose proof (depth_item items y Hy). lia. }
    assert (items <> []) as Hne by discriminate.
    pose proof (scan_items_dumps (Json.scan_once fuel) items Hscan Hne _ rest Hlen)
      as Hitems.
    rewrite Heq in Hitems |- *. rewrite (skip_ws_head c r Hc).
    unfold value_head in Hc. apply andb_true_iff in Hc as [Hc _].
    apply andb_true_iff in Hc as [_ Hc]. apply negb_true_iff in Hc. rewrite Hc.
    now rewrite Hitems.
  - destruct m as [|kv m]; [reflexivity|].
    rewrite dumps_dict. simpl append. rewrite append_assoc. simpl append.
    set (members := kv :: m) in *.
    assert (exists r, Str.join ", " (map member_text members) ++ String "}" rest
                      = String Str.dquote r) as (r & Heq).
    { subst members. destruct m; cbn [map];
        [rewrite join_one | rewrite join_cons, !append_assoc];
        unfold member_text, Json.encode_str; simpl; eauto. }
    simpl Json.scan_once. eqb_eval.
    change (member_text kv :: map member_text m) with (map member_text members).
    assert (length members <= String.length
              (Str.join ", " (map member_text members) ++ String "}" rest))%nat as Hlen.
    { rewrite length_append.
      pose proof (join_length member_text ", " members member_text_nonempty). lia. }
    apply wf_dict in Hwf as [Hnd Hall].
    assert (forall y, y ∈ members -> forall tail, tail_ok tail = true ->
              Json.scan_once fuel (Json.dumps (snd y) ++ tail) = Some (snd y, tail))
      as Hscan.
    { intros y Hy tail Htail. rewrite Forall_forall in IH.
      apply IH; [exact Hy | | | | exact Htail].
      - rewrite Forall_forall in Hall. now apply Hall.
      - now apply (within_limit_dict members).
      - pose proof (depth_member members y Hy). lia. }
    assert (members <> []) as Hne by discriminate.
    pose proof (scan_members_dumps (Json.scan_once fuel) members Hscan Hne _ rest Hlen)
      as Hmembers.
    rewrite Heq in Hmembers |- *.
    change (Json.skip_ws (String Str.dquote r)) with (String Str.dquote r).
    cbv iota. eqb_eval.
    now rewrite Hmembers, dict_of_pairs_nodup.
Qed.

Lemma fold_max_bound {A} (f : A -> nat) (l : list A) N :
  (forall x, x ∈ l -> f x <= N)%nat ->
  (fold_right (fun x d => Nat.max (f x) d) O l <= N)%nat.
Proof.
  induction l as [|x l IH]; intros Hl; simpl; [lia|].
  pose proof (Hl x (list_elem_of_here _ _)).
  assert (fold_right (fun x d => Nat.max (f x) d) O l <= N)%nat.
  { apply IH. intros y Hy. apply Hl. now right. }
  lia.
Qed.

(** A printed value is longer than the value is deep. *)
Lemma depth_le_length v : (depth v <= String.length (Json.dumps v))%nat.
Proof.
  induction v as [ | b | z | s | l IH | m IH ] using json_induction;
    try (simpl; lia).
  - rewrite dumps_list. simpl depth. simpl String.length. rewrite length_append.
    apply le_n_S. rewrite Forall_forall in IH.
    etransitivity; [apply (fold_max_bound depth l (String.length (Str.join ", " (map Json.dumps l))))|lia].
    intros x Hx. etransitivity; [apply (IH x Hx)|].
    apply (join_item_length Json.dumps ", " l x Hx).
  - rewrite dumps_dict. simpl depth. simpl String.length. rewrite length_append.
    apply le_n_S. rewrite Forall_forall in IH.
    etransitivity;
      [apply (fold_max_bound (fun kv => depth (snd kv)) m
                (String.length (Str.join ", " (map member_text m))))|lia].
    intros x Hx. etransitivity; [apply (IH x Hx)|].
    etransitivity; [|apply (join_item_length member_text ", " m x Hx)].
    unfold member_text. rewrite !length_append. lia.
Qed.

(** [loads] reads back what [dumps] printed. *)
Lemma loads_dumps v :
  wf_json v -> Json.within_limit v = true -> Json.loads (Json.dumps v) = Ok v.
Proof.
  intros Hwf Hlimit. unfold Json.loads.
  pose proof (skip_ws_dumps v "") as Hskip. rewrite append_empty_r in Hskip.
  rewrite Hskip. rewrite <- (append_empty_r (Json.dumps v)) at 2.
  rewrite (scan_once_dumps v Hwf Hlimit); [reflexivity | | reflexivity].
  pose proof (depth_le_length v). lia.
Qed.

(** *** What [loads] returns is well formed *)

Lemma scan_number_int s v r : Json.scan_number s = Some (v, r) -> exists z, v = JInt z.
Proof.
  unfold Json.scan_number, Json.scan_unsigned, Json.finish_number.
  repeat case_match; intros; simplify_eq; eauto.
Qed.

Lemma scan_literal_wf s v r : Json.scan_literal s = Some (v, r) -> wf_json v.
Proof.
  unfold Json.scan_literal.
  repeat case_match; intros; simplify_eq; try exact I.
  match goal with H : Json.scan_number _ = _ |- _ => apply scan_number_int in H as [z ->] end.
  exact I.
Qed.

Lemma scan_items_wf scan :
  (forall s v r, scan s = Some (v, r) -> wf_json v) ->
  forall n s vs r, Json.scan_items scan n s = Some (vs, r) -> Forall wf_json vs.
Proof.
  intros Hscan. induction n as [|n IH]; intros s vs r; simpl; [discriminate|].
  destruct (scan s) as [[v r1]|] eqn:Hv; [|discriminate].
  apply Hscan in Hv.
  destruct (Json.skip_ws r1) as [|c r2]; [discriminate|].
  destruct (Ascii.eqb c "]"); [intros [= <- <-]; repeat constructor; exact Hv|].
  destruct (Ascii.eqb c ","); [|discriminate].
  destruct (Json.scan_items scan n (Json.skip_ws r2)) as [[vs' r3]|] eqn:Hrec; [|discriminate].
  intros [= <- <-]. constructor; [exact Hv | now apply (IH _ _ _ Hrec)].
Qed.

Lemma scan_members_wf scan :
  (forall s v r, scan s = Some (v, r) -> wf_json v) ->
  forall n s kvs r, Json.scan_members scan n s = Some (kvs, r) ->
                    Forall (fun kv => wf_json (snd kv)) kvs.
Proof.
  intros Hscan. induction n as [|n IH]; intros s kvs r; simpl; [discriminate|].
  destruct s as [|q s]; [discriminate|].
  destruct (negb (Ascii.eqb q Str.dquote)); [discriminate|].
  destruct (Json.scan_string s) as [[k r1]|]; [|discriminate].
  destruct (Json.skip_ws r1) as [|c r2]; [discriminate|].
  destruct (negb (Ascii.eqb c ":")); [discriminate|].
  destruct (scan (Json.skip_ws r2)) as [[v r3]|] eqn:Hv; [|discriminate].
  apply Hscan in Hv.
  destruct (Json.skip_ws r3) as [|c' r4]; [discriminate|].
  destruct (Ascii.eqb c' "}"); [intros [= <- <-]; repeat constructor; exact Hv|].
  destruct (Ascii.eqb c' ","); [|discriminate].
  destruct (Json.scan_members scan n (Json.skip_ws r4)) as [[kvs' r5]|] eqn:Hrec;
    [|discriminate].
  intros [= <- <-]. constructor; [exact Hv | now apply (IH _ _ _ Hrec)].
Qed.

Lemma scan_once_wf : forall fuel s v r,
  Json.scan_once fuel s = Some (v, r) -> wf_json v.
Proof.
  induction fuel as [|fuel IH]; intros s v r; simpl; [discriminate|].
  destruct s as [|c s]; [discriminate|].
  destruct (Ascii.eqb c Str.dquote).
  { destruct (Json.scan_string s) as [[t r']|]; [|discriminate].
    intros [= <- <-]. exact I. }
  destruct (Ascii.eqb c "{").
  { destruct (Json.skip_ws s) as [|c' r']; [discriminate|].
    destruct (Ascii.eqb c' "}"); [intros [= <- <-]; apply wf_dict; split; constructor|].
    destruct (Json.scan_members _ _ _) as [[kvs r'']|] eqn:Hm; [|discriminate].
    intros [= <- <-]. apply dict_of_pairs_wf.
    now apply (scan_members_wf _ IH _ _ _ _ Hm). }
  destruct (Ascii.eqb c "[").
  { destruct (Json.skip_ws s) as [|c' r']; [discriminate|].
    destruct (Ascii.eqb c' "]"); [intros [= <- <-]; exact I|].
    destruct (Json.scan_items _ _ _) as [[vs r'']|] eqn:Hi; [|discriminate].
    intros [= <- <-]. apply wf_list.
    now apply (scan_items_wf _ IH _ _ _ _ Hi). }
  apply scan_literal_wf.
Qed.

Lemma loads_wf text v : Json.loads text = Ok v -> wf_json v.
Proof.
  unfold Json.loads.
  destruct (Json.scan_once _ _) as [[v' r]|] eqn:Hscan; [|discriminate].
  destruct (Json.skip_ws r); [|discriminate].
  intros [= <-]. now apply scan_once_wf in Hscan.
Qed.

(** ** Setting and getting a value *)

Lemma load_values_loaded self w self' w' :
  Settings._load_values self w = (Ok self', w') ->
  wf_json (Settings._values self) ->
  w' = w /\ Settings._path self' = Settings._path self /\ wf_json (Settings._values self')
  /\ (Settings._values self <> JNull -> self' = self).
Proof.
  intros Hload Hwf.
  pose proof (load_values_world self w) as Hw. rewrite Hload in Hw. simpl in Hw.
  split; [exact Hw|]. clear Hw. revert Hload. unfold Settings._load_values.
  destruct (Settings._values self) eqn:Hv;
    try (unfold ret; intros [= <- <-];
         split; [reflexivity | split; [rewrite Hv; exact Hwf | reflexivity]]).
  destruct (Os.exists_ _ _).
  - unfold bind, read_file, lift, ret.
    destruct (Os.read _ _) as [data|]; [|discriminate].
    destruct (Utf8.decode data) as [text|]; [|discriminate].
    destruct (Json.loads text) as [v|] eqn:Hloads; [|discriminate].
    intros [= <- <-]. simpl. repeat split; [now apply (loads_wf text) | congruence].
  - intros [= <- <-]. simpl. repeat split; try constructor. congruence.
Qed.

Lemma write_file_written path data w w' :
  write_file path data w = (Ok tt, w') ->
  fs w' !! path = Some (File data).
Proof.
  unfold write_file.
  destruct (Os.run _ (fs w)) as [r f] eqn:Hrun. intros [= -> <-]. simpl.
  apply write_file_done in Hrun as (Hpath & _).
  simpl in Hpath. now rewrite append_empty_r in Hpath.
Qed.

(** [set] returns when the store is loaded, the new mapping can be
    printed, the directory of the settings file is there or can be made,
    and neither the settings file nor the temporary file is a directory. *)
Lemma set_returns key value self w m :
  Settings._values self = JDict m ->
  Json.within_limit (JDict (Json.dict_set m key value)) = true ->
  dir_ready (fs w) (Os.dirname (Settings._path self)) ->
  fs w !! Settings._path self <> Some Dir ->
  fs w !! (Settings._path self ++ "~") <> Some Dir ->
  is_ok (fst (Settings.set key value self w)) = true.
Proof.
  intros Hm Hlimit Hdir Hpath Htemp.
  unfold Settings.set, bind, Settings._load_values. rewrite Hm. unfold ret at 1.
  cbv beta iota. rewrite Hm.
  rewrite save_values_cases by discriminate.
  cbn [Settings._values Settings._path]. rewrite Hlimit.
  unfold write_file.
  destruct (write_file_carried (Settings._path self) [Utf8.encode
              (Json.dumps (JDict (Json.dict_set m key value)))] (fs w) Hdir Htemp Hpath)
    as (before & s & _ & _ & _ & ->).
  reflexivity.
Qed.

(** * The properties at given inputs *)

(** [prowl -k <key> deployed]: the description is the positional. *)
Example one_positional :
  exists args,
    parse_args {| positionals := ["deployed"]; raw_application := None;
                  raw_url := None; raw_priority := None;
                  raw_api_key := Some key40; raw_set_api_key := None |} = Ok args
    /\ event args = None /\ description args = Some "deployed".
Proof. eexists. repeat split. Qed.

(** [prowl -k <key> -u http://x]: the description is the URL. *)
Example url_only :
  exists args,
    parse_args {| positionals := []; raw_application := None;
                  raw_url := Some "http://x"; raw_priority := None;
                  raw_api_key := Some key40; raw_set_api_key := None |} = Ok args
    /\ event args = None /\ description args = Some "http://x".
Proof. eexists. repeat split. Qed.

(** [prowl -k <key> -p 3 hello] is refused, and nothing is sent. *)
Example priority_out_of_range :
  posted (snd (script_main sample_env
                 {| positionals := ["hello"]; raw_application := None;
                    raw_url := None; raw_priority := Some 3;
                    raw_api_key := Some key40; raw_set_api_key := None |}
                 empty_world)) = [].
Proof. reflexivity. Qed.

(** [prowl hello] without a settings file: the API key is missing. *)
Example no_key_anywhere :
  script_main sample_env hello empty_world
  = (Raise (SystemExit 1),
     {| fs := ∅;
        stderr := ["prowl: Error: --api-key is mandatory if because default API key has been set."];
        posted := [] |}).
Proof. reflexivity. Qed.

Lemma parse_args_positionals_witness :
  (raw_set_api_key build_zero = None
   /\ is_ok (convert_key (raw_api_key build_zero)) = true)
  /\ forall args, parse_args build_zero = Ok args ->
       event args = Some "build" /\ description args = Some "0 ".
Proof.
  split; [split; reflexivity|]. intros args Hparse.
  destruct (parse_args_positionals build_zero eq_refl eq_refl) as (_ & Hpos & _).
  destruct (Hpos args Hparse) as (_ & _ & Htwo).
  exact (Htwo "build" "0" eq_refl).
Defined.

Lemma zero_workaround_scope_witness :
  exists args fields,
    parse_args build_zero = Ok args
    /\ main sample_env args empty_world = submitted sample_env fields empty_world
    /\ field "apikey" fields = Some (JStr key40)
    /\ field "url" fields = Some (JStr "0")
    /\ field "application" fields = Some (JStr "0 ")
    /\ field "event" fields = Some (JStr "build")
    /\ field "description" fields = Some (JStr "0 ").
Proof.
  destruct (parse_args build_zero) as [args|] eqn:Hparse; [|discriminate].
  destruct (zero_workaround_scope sample_env build_zero args empty_world (JStr key40)
              Hparse eq_refl eq_refl)
    as (fields & Hmain & Hkey & Hurl & Happ & _ & Htwo & _).
  destruct (Htwo "build" "0" eq_refl) as [Hev Hde].
  exists args, fields. repeat split; try assumption.
  apply Hde. discriminate.
Defined.

Lemma stored_key_used_unchecked_witness :
  let w := world_with_default "xyz" in
  is_ok (api_key_type "xyz") = false
  /\ exists args,
       parse_args hello = Ok args
       /\ main sample_env args w
          = submitted sample_env (fields_of sample_env args (JStr "xyz")) w
       /\ field "apikey" (fields_of sample_env args (JStr "xyz")) = Some (JStr "xyz").
Proof.
  split; [reflexivity|].
  destruct (parse_args hello) as [args|] eqn:Hparse; [|discriminate].
  exists args. split; [reflexivity|].
  refine (proj2 (stored_key_used_unchecked sample_env hello args (world_with_default "xyz")
                   (Utf8.encode (Json.dumps (JDict [("default-api-key", JStr "xyz")])))
                   (Json.dumps (JDict [("default-api-key", JStr "xyz")]))
                   [("default-api-key", JStr "xyz")]
                   Hparse eq_refl eq_refl _ _ _) _).
  - vm_compute. reflexivity.
  - vm_compute. reflexivity.
  - vm_compute. reflexivity.
  - discriminate.
Defined.

Lemma set_api_key_exclusive_witness :
  parse_args set_key_and_url = Raise exclusive_set_api_key
  /\ fs (snd (script_main sample_env set_key_and_url empty_world)) = fs empty_world
  /\ posted (snd (script_main sample_env set_key_and_url empty_world)) = posted empty_world
  /\ exit_status (fst (script_main sample_env set_key_and_url empty_world)) <> 0.
Proof.
  assert (positionals set_key_and_url <> [] \/ raw_application set_key_and_url <> None
          \/ raw_url set_key_and_url <> None \/ raw_api_key set_key_and_url <> None
          \/ exists p, raw_priority set_key_and_url = Some p /\ p <> 0) as Hother.
  { right. right. left. discriminate. }
  destruct (set_api_key_exclusive sample_env set_key_and_url empty_world key40
              eq_refl Hother) as (_ & Hexcl & Hfs & Hposted & Hexit).
  split; [|split; [exact Hfs | split; [exact Hposted | exact Hexit]]].
  apply Hexcl; [reflexivity | reflexivity | simpl; lia].
Defined.

Lemma save_values_atomic_witness :
  let self := {| Settings._path := settings_path sample_env;
                 Settings._values := JDict [("default-api-key", JStr key40)] |} in
  let path := Settings._path self in
  let temp := path ++ "~" in
  let data := Utf8.encode (Json.dumps (Settings._values self)) in
  let chunks := [String.substring 0 20 data; String.substring 20 100 data] in
  let w := world_with_home in
  let ops := write_file_ops (Os.exists_ (fs w) (Os.dirname path)) path chunks in
  (Settings._values self <> JNull /\ Str.cat chunks = data
   /\ dir_ready (fs w) (Os.dirname path)
   /\ fs w !! temp <> Some Dir /\ fs w !! path <> Some Dir)
  /\ ops = [Os.MakeDirs "/home/alice/opt/etc";
            Os.OpenWb "/home/alice/opt/etc/prowl.json~";
            Os.Write "/home/alice/opt/etc/prowl.json~" (String.substring 0 20 data);
            Os.Write "/home/alice/opt/etc/prowl.json~" (String.substring 20 100 data);
            Os.Rename "/home/alice/opt/etc/prowl.json~" "/home/alice/opt/etc/prowl.json"]
  /\ fs w !! path <> Some (File data)
  /\ (exists before s,
        (Os.trace ops (fs w)
         = before ++ [s; <[path := File data]> (delete temp s)])%list
        /\ s !! temp = Some (File data)
        /\ s !! path = fs w !! path
        /\ Os.run ops (fs w) = (Ok tt, <[path := File data]> (delete temp s))
        /\ length (Os.trace ops (fs w)) = length ops)
  /\ forall s, s ∈ Os.trace ops (fs w) ->
       s !! path = fs w !! path \/ s !! path = Some (File data).
Proof.
  intros self path temp data chunks w ops.
  assert (Settings._values self <> JNull) as Hloaded by discriminate.
  assert (Str.cat chunks = data) as Hcat by (vm_compute; reflexivity).
  assert (dir_ready (fs w) (Os.dirname path)) as Hready.
  { right. split; [vm_compute; reflexivity|]. split; [reflexivity|].
    assert (Os.ancestors (Os.dirname path)
            = ["/home"; "/home/alice"; "/home/alice/opt"; "/home/alice/opt/etc"]) as ->
      by (vm_compute; reflexivity).
    intros q Hq.
    repeat (apply elem_of_cons in Hq as [-> | Hq];
            [(left; vm_compute; reflexivity) || (right; vm_compute; reflexivity)|]).
    now apply elem_of_nil in Hq. }
  assert (fs w !! temp <> Some Dir) as Htemp by (vm_compute; discriminate).
  assert (fs w !! path <> Some Dir) as Htarget by (vm_compute; discriminate).
  destruct (save_values_atomic self w chunks Hloaded Hcat)
    as (_ & _ & _ & Hcarried & Hsafe & _).
  split; [repeat split; assumption|].
  split; [vm_compute; reflexivity|].
  split; [vm_compute; discriminate|].
  split; [exact (Hcarried Hready Htemp Htarget) | exact Hsafe].
Defined.

Lemma empty_description_omitted_witness :
  exists args fields,
    parse_args empty_positional = Ok args
    /\ description args = Some ""
    /\ main sample_env args empty_world = submitted sample_env fields empty_world
    /\ field "description" fields = None.
Proof.
  destruct (empty_description_omitted sample_env empty_positional eq_refl eq_refl)
    as (_ & Hone & Hsend).
  assert (in_range (default 0 (raw_priority empty_positional))) as Hrange.
  { unfold in_range. simpl. lia. }
  destruct (Hone eq_refl Hrange) as (args & Hparse & _ & Hde).
  destruct (Hsend args empty_world (JStr key40) Hparse eq_refl)
    as (fields & Hmain & Hfd & _).
  exists args, fields. repeat split; auto.
Defined.

(** * Further properties of the code *)

(** ** Argument types and parsing *)

(** X1: [api_key_type] returns its argument unchanged or raises the
    invalid-key error, and it returns exactly on forty lowercase hexadecimal
    digits followed by nothing or by a single newline. *)
Theorem api_key_type_spec value :
  (api_key_type value = Ok value
   \/ api_key_type value = Raise (UserError "Invalid API key specified." []))
  /\ (api_key_type value = Ok value <->
      exists k, String.length k = 40%nat /\ Str.all lower_hex k = true
                /\ (value = k \/ value = k ++ String Str.newline "")).
Proof.
  split; [|apply api_key_type_accepts].
  unfold api_key_type. destruct (negb _); [now right | now left].
Qed.

(** X2: [api_argument_type] never returns the text ["0"]; it changes no
    text but ["0"], which becomes ["0 "]; and converting twice is converting
    once. *)
Theorem api_argument_type_never_zero value :
  api_argument_type value <> "0"
  /\ (api_argument_type value <> value -> value = "0" /\ api_argument_type value = "0 ")
  /\ api_argument_type (api_argument_type value) = api_argument_type value.
Proof.
  unfold api_argument_type.
  destruct (String.eqb_spec value "0") as [-> | Hne].
  - repeat split; discriminate.
  - destruct (String.eqb_spec value "0"); [contradiction|].
    repeat split; [assumption | congruence..].
Qed.

Lemma convert_key_some v k :
  convert_key (Some v) = Ok k -> k = Some v /\ api_key_type v = Ok v.
Proof.
  simpl. destruct (api_key_type v) as [v'|] eqn:Hv; [|discriminate].
  pose proof (api_key_type_result v v' Hv) as ->. intros [= <-]. auto.
Qed.

Lemma normalize_set_key args args' v :
  set_api_key args = Some v -> normalize args = Ok args' ->
  args' = args /\ event args = None /\ description args = None
  /\ application args = None /\ url args = None
  /\ priority args = 0 /\ api_key args = None.
Proof.
  intros Hset. unfold normalize. rewrite Hset.
  destruct (event args), (description args), (application args), (url args),
    (api_key args), (Z.eqb_spec (priority args) 0);
    simpl; try discriminate.
  intros [= <-]. auto 10.
Qed.

Lemma normalize_notification args args' :
  set_api_key args = None -> normalize args = Ok args' ->
  set_api_key args' = None /\ api_key args' = api_key args
  /\ (exists d, description args' = Some d)
  /\ in_range (priority args')
  /\ (event args' <> None -> description args <> None).
Proof.
  intros Hset. unfold normalize. rewrite Hset.
  destruct (event args) as [e|] eqn:He, (url args) as [u|] eqn:Hu,
    (description args) as [d|] eqn:Hd; simpl; rewrite ?Hd; simpl;
    try discriminate;
    (destruct (negb _) eqn:Hr; [discriminate|]); apply range_check in Hr;
    intros [= <-]; simpl; rewrite ?Hd, ?He; simpl;
    (split; [assumption || reflexivity|]); (split; [reflexivity|]); (split; [eauto|]);
    (split; [exact Hr|]); intros Hev; congruence.
Qed.

(** X3: the arguments [parse_args] accepts have one of two shapes.  For a
    notification there is a description, the priority is between -2 and 2,
    and an event comes only with two positionals.  For --set-api-key every
    other argument has its default and the key matches the pattern.  In both
    an API key, when present, matches the pattern. *)
Theorem parse_args_shapes c args :
  parse_args c = Ok args ->
  (forall k, api_key args = Some k -> api_key_type k = Ok k)
  /\ ((set_api_key args = None
       /\ (exists d, description args = Some d)
       /\ in_range (priority args)
       /\ (event args <> None -> length (positionals c) = 2%nat))
      \/ (exists k, set_api_key args = Some k /\ api_key_type k = Ok k
          /\ event args = None /\ description args = None
          /\ application args = None /\ url args = None
          /\ priority args = 0 /\ api_key args = None)).
Proof.
  unfold parse_args, argparse.
  destruct (convert_key (raw_api_key c)) as [k|] eqn:Hk; [|discriminate].
  destruct (convert_key (raw_set_api_key c)) as [sk|] eqn:Hsk; [|discriminate].
  assert (forall v, k = Some v -> api_key_type v = Ok v) as Hkey.
  { intros v ->. destruct (raw_api_key c) as [v'|]; [|discriminate].
    apply convert_key_some in Hk as [[= <-] Hv]. exact Hv. }
  assert (forall v, sk = Some v -> api_key_type v = Ok v) as Hskey.
  { intros v ->. destruct (raw_set_api_key c) as [v'|]; [|discriminate].
    apply convert_key_some in Hsk as [[= <-] Hv]. exact Hv. }
  clear Hk Hsk.
  assert (forall ev de,
    (de <> None -> length (positionals c) = 2%nat) ->
    normalize {| event := ev; description := de;
                 application := api_argument_type <$> raw_application c;
                 url := raw_url c; priority := default 0 (raw_priority c);
                 api_key := k; set_api_key := sk |} = Ok args ->
    (forall k0, api_key args = Some k0 -> api_key_type k0 = Ok k0)
    /\ ((set_api_key args = None
         /\ (exists d, description args = Some d)
         /\ in_range (priority args)
         /\ (event args <> None -> length (positionals c) = 2%nat))
        \/ (exists k0, set_api_key args = Some k0 /\ api_key_type k0 = Ok k0
            /\ event args = None /\ description args = None
            /\ application args = None /\ url args = None
            /\ priority args = 0 /\ api_key args = None))) as Hnorm.
  { intros ev de Hlen Hn. destruct sk as [v|].
    - apply (normalize_set_key _ _ v) in Hn
        as (-> & He & Hd & Ha & Hu & Hp & Hk); [|reflexivity].
      simpl in *. subst k. split; [discriminate|].
      right. exists v. auto 10.
    - apply normalize_notification in Hn
        as (Hs & Hk & Hd & Hp & He); [|reflexivity].
      simpl in *. split; [rewrite Hk; exact Hkey|].
      left. split; [exact Hs|]. split; [exact Hd|]. split; [exact Hp|].
      intros Hev. auto. }
  destruct (positionals c) as [|e [|d [|x rest]]]; [| | |discriminate];
    apply Hnorm; try congruence; reflexivity.
Qed.

(** ** The settings store *)

Lemma get_of_loaded key dflt self w loaded m :
  Settings._load_values self w = (Ok loaded, w) ->
  Settings._values loaded = JDict m ->
  Settings.get key dflt self w = (Ok (Json.dict_get m key dflt, loaded), w).
Proof.
  intros Hload Hm. unfold Settings.get, bind. now rewrite Hload, Hm.
Qed.

Lemma load_values_of_loaded self w m :
  Settings._values self = JDict m -> Settings._load_values self w = (Ok self, w).
Proof. intros Hm. unfold Settings._load_values. now rewrite Hm. Qed.

Lemma dict_get_set_other m key value other dflt :
  other <> key ->
  Json.dict_get (Json.dict_set m key value) other dflt = Json.dict_get m other dflt.
Proof.
  intros Hne. induction m as [|[k v] m IH]; simpl.
  - destruct (String.eqb_spec key other); [congruence | reflexivity].
  - destruct (String.eqb_spec k key) as [->|Hk]; simpl.
    + destruct (String.eqb_spec key other); [congruence | reflexivity].
    + destruct (String.eqb_spec k other); [reflexivity | exact IH].
Qed.

Lemma dict_set_twice m key v1 v2 :
  Json.dict_set (Json.dict_set m key v1) key v2 = Json.dict_set m key v2.
Proof.
  induction m as [|[k v] m IH]; simpl.
  - now rewrite String.eqb_refl.
  - destruct (String.eqb_spec k key) as [->|Hk]; simpl.
    + now rewrite String.eqb_refl.
    + destruct (String.eqb_spec k key); [contradiction | now rewrite IH].
Qed.

(** What a successful [set] did: it loaded a mapping, set the key in it,
    and wrote the result to the file; it left the error stream and the
    network alone. *)
Lemma set_result_loaded key value self w self' w' :
  wf_json (Settings._values self) -> wf_json value ->
  Settings.set key value self w = (Ok self', w') ->
  exists loaded m,
    Settings._load_values self w = (Ok loaded, w)
    /\ Settings._values loaded = JDict m
    /\ wf_json (JDict m)
    /\ self' = {| Settings._path := Settings._path self;
                  Settings._values := JDict (Json.dict_set m key value) |}
    /\ fs w' !! Settings._path self
       = Some (File (Utf8.encode (Json.dumps (JDict (Json.dict_set m key value)))))
    /\ Json.within_limit (JDict (Json.dict_set m key value)) = true.
Proof.
  intros Hwf Hvalue. unfold Settings.set. unfold bind at 1.
  destruct (Settings._load_values self w) as [[loaded|] w1] eqn:Hload; [|discriminate].
  destruct (load_values_loaded _ _ _ _ Hload Hwf) as (-> & Hpath & Hwf' & _).
  destruct (Settings._values loaded) as [ | | | | |m] eqn:Hm; try discriminate.
  unfold bind. rewrite save_values_cases by discriminate.
  cbn [Settings._values Settings._path].
  destruct (Json.within_limit _) eqn:Hlimit; [|discriminate].
  destruct (write_file _ _ w) as [[[]|] w2] eqn:Hwrite; [|discriminate].
  unfold ret. intros [= <- <-]. exists loaded, m. rewrite Hpath in *.
  split; [reflexivity|]. split; [exact Hm || reflexivity|]. split; [exact Hwf'|].
  split; [reflexivity|]. split; [|exact Hlimit].
  now apply write_file_written in Hwrite.
Qed.

(** X4: when the settings file does not exist, [get] returns the caller's
    default without error and without creating anything; the store has then
    loaded the empty mapping, and every later [get] on it returns its
    default whatever the file system holds by then. *)
Theorem get_default_without_file path key dflt w :
  fs w !! path = None ->
  let loaded := {| Settings._path := path; Settings._values := JDict [] |} in
  Settings.get key dflt (Settings.init path) w = (Ok (dflt, loaded), w)
  /\ forall key2 dflt2 w2, Settings.get key2 dflt2 loaded w2 = (Ok (dflt2, loaded), w2).
Proof.
  intros Hfile loaded. split; [now apply get_without_file|].
  intros key2 dflt2 w2. reflexivity.
Qed.

(** X5: when the settings file holds a JSON value that is not an object
    (null, true or false, an integer, a string, an array), [get] on a fresh
    store raises [AttributeError] and [set] raises [TypeError]; neither
    changes the world: the file is not overwritten. *)
Theorem unloadable_file_untouched path key dflt value w data v :
  fs w !! path = Some (File data) ->
  load_text data = Ok v ->
  (forall m, v <> JDict m) ->
  (exists what,
     Settings.get key dflt (Settings.init path) w = (Raise (AttributeError what), w))
  /\ (exists what,
        Settings.set key value (Settings.init path) w = (Raise (TypeError what), w)).
Proof.
  intros Hfile Hload Hkind. unfold load_text in Hload.
  unfold Settings.get, Settings.set, Settings._load_values, Settings.init, bind; simpl.
  unfold Os.exists_. rewrite bool_decide_eq_true_2 by (rewrite Hfile; eauto).
  unfold bind, read_file, Os.read, lift, ret, throw. rewrite Hfile.
  destruct (Utf8.decode data) as [text|]; [|discriminate].
  rewrite Hload.
  destruct v as [ | | | | |m]; simpl; try (now destruct (Hkind m)); split; eauto.
Qed.

(** X6: the values are loaded at most once.  After a [get] has returned,
    the store holds a mapping, and every later [get] on it answers from
    that mapping without looking at the file system. *)
Theorem get_loads_once key dflt self w v self' w' :
  Settings.get key dflt self w = (Ok (v, self'), w') ->
  exists m,
    Settings._values self' = JDict m
    /\ v = Json.dict_get m key dflt
    /\ forall key2 dflt2 w2,
         Settings.get key2 dflt2 self' w2 = (Ok (Json.dict_get m key2 dflt2, self'), w2).
Proof.
  unfold Settings.get at 1. unfold bind.
  destruct (Settings._load_values self w) as [[loaded|] w1]; [|discriminate].
  destruct (Settings._values loaded) as [ | | | | |m] eqn:Hm; try discriminate.
  unfold ret. intros [= <- <- <-]. exists m.
  split; [exact Hm|]. split; [reflexivity|].
  intros key2 dflt2 w2.
  apply get_of_loaded; [now apply (load_values_of_loaded _ _ m) | exact Hm].
Qed.

(** X7: [set] changes one key only.  For every other key, [get] returns
    after the [set] what it returned before, on the same store and on a
    store that loads the written file. *)
Theorem set_keeps_other_keys key value other dflt self w self' w' :
  wf_json (Settings._values self) ->
  wf_json value ->
  other <> key ->
  Settings.set key value self w = (Ok self', w') ->
  exists before loaded,
    Settings.get other dflt self w = (Ok (before, loaded), w)
    /\ Settings.get other dflt self' w' = (Ok (before, self'), w')
    /\ Settings.get other dflt (Settings.init (Settings._path self)) w'
       = (Ok (before, self'), w').
Proof.
  intros Hwf Hvalue Hne Hset.
  destruct (set_result_loaded key value self w self' w' Hwf Hvalue Hset)
    as (loaded & m & Hload & Hm & Hwfm & -> & Hfile & Hlimit).
  exists (Json.dict_get m other dflt), loaded.
  split; [now apply get_of_loaded|].
  assert (wf_json (JDict (Json.dict_set m key value))) as Hwf' by now apply dict_set_wf.
  split.
  - set (s' := {| Settings._path := Settings._path self;
                  Settings._values := JDict (Json.dict_set m key value) |}).
    rewrite (get_of_loaded other dflt s' w' s' (Json.dict_set m key value)
               (load_values_of_loaded s' w' _ eq_refl) eq_refl).
    now rewrite dict_get_set_other.
  - rewrite (get_from_file _ other dflt w' _ _ _ Hfile (decode_encode _)
               (loads_dumps _ Hwf' Hlimit)).
    now rewrite dict_get_set_other.
Qed.

(** X8: of two [set]s of the same key, the last one wins: the store and the
    file end as if only the second had been made on the mapping first
    loaded. *)
Theorem set_twice key v1 v2 self w s1 w1 s2 w2 :
  wf_json (Settings._values self) ->
  wf_json v1 -> wf_json v2 ->
  Settings.set key v1 self w = (Ok s1, w1) ->
  Settings.set key v2 s1 w1 = (Ok s2, w2) ->
  exists loaded m,
    Settings._load_values self w = (Ok loaded, w)
    /\ Settings._values loaded = JDict m
    /\ Settings._values s2 = JDict (Json.dict_set m key v2)
    /\ fs w2 !! Settings._path self
       = Some (File (Utf8.encode (Json.dumps (JDict (Json.dict_set m key v2)))))
    /\ forall dflt, Settings.get key dflt s2 w2 = (Ok (v2, s2), w2).
Proof.
  intros Hwf Hv1 Hv2 Hset1 Hset2.
  destruct (set_result_loaded key v1 self w s1 w1 Hwf Hv1 Hset1)
    as (loaded & m & Hload & Hm & Hwfm & -> & _).
  assert (wf_json (JDict (Json.dict_set m key v1))) as Hwf1 by now apply dict_set_wf.
  set (first := {| Settings._path := Settings._path self;
                   Settings._values := JDict (Json.dict_set m key v1) |}) in *.
  destruct (set_result_loaded key v2 first w1 s2 w2 Hwf1 Hv2 Hset2)
    as (loaded2 & m2 & Hload2 & Hm2 & _ & -> & Hfile2 & _).
  rewrite (load_values_of_loaded first w1 (Json.dict_set m key v1) eq_refl) in Hload2.
  injection Hload2 as <-. simpl in Hm2. injection Hm2 as <-.
  rewrite dict_set_twice in *. simpl in Hfile2.
  exists loaded, m.
  split; [exact Hload|]. split; [exact Hm|]. split; [reflexivity|].
  split; [exact Hfile2|].
  intros dflt.
  set (second := {| Settings._path := Settings._path first;
                    Settings._values := JDict (Json.dict_set m key v2) |}).
  rewrite (get_of_loaded key dflt second w2 second (Json.dict_set m key v2)
             (load_values_of_loaded second w2 _ eq_refl) eq_refl).
  now rewrite dict_get_set.
Qed.

(** X18: after [set(key, value)] has returned, [get(key)] on the same
    store returns the value; the settings file holds the serialised
    mapping, which [json.loads] reads back as the same mapping; and a store
    that loads the file anew returns the value for the key, and has loaded
    the same mapping.  The values are those of the model: [None], [bool],
    [int], [str] and [list] and [dict] of them, without floating point
    numbers. *)
Theorem set_then_get key value self w self' w' :
  wf_json (Settings._values self) ->
  wf_json value ->
  Settings.set key value self w = (Ok self', w') ->
  (forall dflt, Settings.get key dflt self' w' = (Ok (value, self'), w'))
  /\ fs w' !! Settings._path self
     = Some (File (Utf8.encode (Json.dumps (Settings._values self'))))
  /\ Json.loads (Json.dumps (Settings._values self')) = Ok (Settings._values self')
  /\ (forall dflt,
        Settings.get key dflt (Settings.init (Settings._path self)) w'
        = (Ok (value, self'), w')).
Proof.
  intros Hwf Hvalue Hset.
  destruct (set_result_loaded key value self w self' w' Hwf Hvalue Hset)
    as (loaded & m & _ & _ & Hwfm & -> & Hfile & Hlimit).
  assert (wf_json (JDict (Json.dict_set m key value))) as Hwf' by now apply dict_set_wf.
  cbn [Settings._values Settings._path].
  split; [|split; [exact Hfile | split; [now apply loads_dumps|]]].
  - intros dflt. unfold Settings.get, bind, Settings._load_values, ret. simpl.
    now rewrite dict_get_set.
  - intros dflt.
    rewrite (get_from_file _ key dflt w' _ _ _ Hfile (decode_encode _)
               (loads_dumps _ Hwf' Hlimit)).
    now rewrite dict_get_set.
Qed.

Lemma dict_set_member m k v : (k, v) ∈ Json.dict_set m k v.
Proof.
  induction m as [|[k' v'] m IH]; simpl; [constructor|].
  destruct (String.eqb_spec k' k) as [->|]; [constructor | now constructor].
Qed.

(** X19: [set] does not store an integer of more than 4300 decimal digits,
    that is, one that is at least [10 ^ 4300] in absolute value:
    [json.dumps] raises [ValueError] before anything is written, and [set]
    raises it with the world unchanged. *)
Theorem set_refuses_long_int key z self w m :
  Settings._values self = JDict m ->
  10 ^ Json.max_str_digits <= Z.abs z ->
  exists what, Settings.set key (JInt z) self w = (Raise (ValueError what), w).
Proof.
  intros Hm Hlong.
  assert (Json.within_limit (JDict (Json.dict_set m key (JInt z))) = false) as Hlimit.
  { destruct (Json.within_limit _) eqn:Hall; [|reflexivity].
    pose proof (within_limit_dict _ _ Hall (dict_set_member m key (JInt z))) as Hz.
    cbn [snd Json.within_limit] in Hz. apply int_ok_bound in Hz. lia. }
  unfold Settings.set, bind, Settings._load_values. rewrite Hm. unfold ret at 1.
  cbv beta iota. rewrite Hm.
  rewrite save_values_cases by discriminate.
  cbn [Settings._values Settings._path]. rewrite Hlimit. eauto.
Qed.

(** ** Writing files *)

(** The file system after a write that returned: the one before, or the one
    [makedirs] made of it, with the temporary file gone and the data at the
    target. *)
Lemma write_file_result path chunks (f f' : gmap string node) :
  Os.run (write_file_ops (Os.exists_ f (Os.dirname path)) path chunks) f = (Ok tt, f') ->
  exists f1,
    (f1 = f \/ Os.makedirs (Os.dirname path) f = Ok f1)
    /\ f' = <[path := File (Str.cat chunks)]> (delete (path ++ "~") f1).
Proof.
  assert (forall f1 : gmap string node,
    Os.run (Os.OpenWb (path ++ "~")
              :: map (Os.Write (path ++ "~")) chunks ++ [Os.Rename (path ++ "~") path]) f1
    = (Ok tt, f') ->
    f' = <[path := File (Str.cat chunks)]> (delete (path ++ "~") f1)) as Hopen.
  { intros f1. simpl.
    destruct (Os.open_wb (path ++ "~") f1) as [f2|] eqn:Hstep; [|discriminate].
    apply open_target in Hstep as ->. intros Hrun.
    apply (run_of_writes _ _ _ _ "") in Hrun; [|apply lookup_insert_eq].
    now rewrite delete_insert_eq in Hrun. }
  unfold write_file_ops.
  destruct (Os.exists_ f (Os.dirname path)); simpl negb; cbv iota.
  - intros Hrun. exists f. split; [now left | now apply Hopen].
  - change (Os.run (Os.MakeDirs (Os.dirname path) :: Os.OpenWb (path ++ "~")
              :: map (Os.Write (path ++ "~")) chunks ++ [Os.Rename (path ++ "~") path]) f
            = (Ok tt, f') ->
            exists f1, (f1 = f \/ Os.makedirs (Os.dirname path) f = Ok f1)
                       /\ f' = <[path := File (Str.cat chunks)]> (delete (path ++ "~") f1)).
    simpl Os.run at 1. cbn [Os.step].
    destruct (Os.makedirs (Os.dirname path) f) as [f1|] eqn:Hstep; [|discriminate].
    intros Hrun. exists f1. split; [now right | now apply Hopen].
Qed.

(** X9: a [write_file] that returned has changed nothing but the target,
    the temporary file, and the directories it had to create: every other
    path names what it named before, and the error stream and the network
    are as before. *)
Theorem write_file_frame path data w w' q :
  write_file path data w = (Ok tt, w') ->
  q <> path -> q <> path ++ "~" -> q ∉ Os.ancestors (Os.dirname path) ->
  fs w' !! q = fs w !! q /\ stderr w' = stderr w /\ posted w' = posted w.
Proof.
  unfold write_file.
  destruct (Os.run _ (fs w)) as [r f'] eqn:Hrun. intros [= -> <-] Hq1 Hq2 Hq3.
  simpl. repeat split.
  apply write_file_result in Hrun as (f1 & Hf1 & ->).
  rewrite lookup_insert_ne, lookup_delete_ne by congruence.
  destruct Hf1 as [-> | Hmk]; [reflexivity|].
  now apply (mkdir_all_other _ _ _ _ Hmk).
Qed.

Lemma head_of_no_sep path : Str.contains Str.sep path = false -> Os.head_of path = "".
Proof.
  induction path as [|c r IH]; simpl; [reflexivity|].
  intros [Hc Hr]%orb_false_iff. rewrite (IH Hr).
  now rewrite Ascii.eqb_sym, Hc.
Qed.

(** X10: for a path without a directory part, [write_file] raises before
    it writes anything: the directory name is empty, does not exist, and
    [makedirs] cannot create it. *)
Theorem write_file_without_directory path data w :
  Str.contains "/" path = false ->
  fs w !! "" = None ->
  write_file path data w = (Raise (OSError "FileNotFoundError"), w).
Proof.
  intros Hsep Hempty. unfold write_file, write_file_ops, Os.dirname.
  rewrite (head_of_no_sep path Hsep). simpl.
  unfold Os.exists_. rewrite bool_decide_eq_false_2 by (rewrite Hempty; intros [? [=]]).
  simpl. now destruct w.
Qed.

(** ** What [main] does to the world *)

Lemma submitted_world env fields w :
  fs (snd (submitted env fields w)) = fs w
  /\ stderr (snd (submitted env fields w)) = stderr w
  /\ posted (snd (submitted env fields w)) = (posted w ++ [(endpoint, fields)])%list.
Proof. repeat split. Qed.

(** X11: [main] never writes to the error stream.  For a notification it
    leaves the file system as it is and sends at most one request; for
    --set-api-key it sends nothing. *)
Theorem main_effects env args w :
  let w' := snd (main env args w) in
  stderr w' = stderr w
  /\ (set_api_key args = None ->
      fs w' = fs w
      /\ (posted w' = posted w \/ exists request, posted w' = (posted w ++ [request])%list))
  /\ (set_api_key args <> None -> posted w' = posted w).
Proof.
  simpl. destruct (set_api_key args) as [sk|] eqn:Hset.
  - assert (posted (snd (main env args w)) = posted w
            /\ stderr (snd (main env args w)) = stderr w) as [Hp Hs].
    { unfold main. rewrite Hset. unfold bind.
      pose proof (set_posted "default-api-key" (JStr sk)
                    (Settings.init (settings_path env)) w) as Hset'.
      destruct (Settings.set _ _ _ w) as [[?|?] ?]; exact Hset'. }
    split; [exact Hs|]. split; [discriminate | intros _; exact Hp].
  - assert ((exists fields, main env args w = submitted env fields w)
            \/ exists e, main env args w = (Raise e, w)) as [[fields ->] | [e ->]].
    { destruct (api_key args) as [k|] eqn:Hk.
      - left. exists (fields_of env args (JStr k)). now apply main_given_key.
      - destruct (Settings.get "default-api-key" JNull
                    (Settings.init (settings_path env)) w) as [[[v self]|e] w1] eqn:Hget.
        + rewrite (main_stored_key env args w v self w1 Hset Hk Hget).
          destruct v; eauto.
        + right. exists e. now apply (main_store_error env args w e w1). }
    + split; [reflexivity|]. split; [|congruence].
      intros _. split; [reflexivity|]. right. eexists. reflexivity.
    + split; [reflexivity|]. split; [|congruence]. intros _. auto.
Qed.

(** ** The outcome of a run *)

Lemma run_of_accepted env c args w :
  parse_args c = Ok args ->
  (let! args := lift (parse_args c) in main env args) w = main env args w.
Proof. intros Hparse. unfold bind, lift. now rewrite Hparse. Qed.

(** X12: when the server answers a notification, the run has sent exactly
    that one request and left the files alone; with an answer that is ok it
    returns normally and prints nothing, with another answer it prints one
    line, which carries the unformatted template and the body of the
    answer, and exits with status 1. *)
Theorem script_main_answered env c args w key ok content :
  parse_args c = Ok args ->
  raw_set_api_key c = None ->
  resolved_key env c w key ->
  server env (fields_of env args key) = Response ok content ->
  let request := (endpoint, fields_of env args key) in
  script_main env c w
  = if ok
    then (Ok tt, {| fs := fs w; stderr := stderr w; posted := posted w ++ [request] |})
    else (Raise (SystemExit 1),
          {| fs := fs w;
             stderr := stderr w
                       ++ [program_name env ++ ": Error: "
                           ++ tuple_repr [OJson (JStr "Error received from server: {}");
                                          OBytes content]];
             posted := posted w ++ [request] |}).
Proof.
  intros Hparse Hset Hkey Hserver request.
  pose proof (main_resolved_key env c args w key Hparse Hset Hkey) as Hmain.
  unfold submitted in Hmain. rewrite Hserver in Hmain.
  destruct ok.
  - unfold script_main. rewrite (run_of_accepted env c args w Hparse), Hmain. reflexivity.
  - rewrite (script_main_user_error env c w "Error received from server: {}"
               [OBytes content] _ (eq_trans (run_of_accepted env c args w Hparse) Hmain)).
    reflexivity.
Qed.

(** X13: when the user interrupts the wait for the answer, the run prints
    the line [<program>: Operation interrupted.] and exits with status 2;
    the request has been sent and the files are as before. *)
Theorem script_main_interrupted env c args w key :
  parse_args c = Ok args ->
  raw_set_api_key c = None ->
  resolved_key env c w key ->
  server env (fields_of env args key) = Interrupted ->
  script_main env c w
  = (Raise (SystemExit 2),
     {| fs := fs w;
        stderr := stderr w ++ [program_name env ++ ": Operation interrupted."];
        posted := posted w ++ [(endpoint, fields_of env args key)] |}).
Proof.
  intros Hparse Hset Hkey Hserver.
  pose proof (main_resolved_key env c args w key Hparse Hset Hkey) as Hmain.
  unfold submitted in Hmain. rewrite Hserver in Hmain.
  now rewrite (script_main_interrupt env c w _
                 (eq_trans (run_of_accepted env c args w Hparse) Hmain)).
Qed.

(** X14: a key stored by --set-api-key is the key of the next notification
    that comes without --api-key: after [main] has returned for
    --set-api-key=k, [main] for such a notification sends the request with
    [apikey] k. *)
Theorem set_key_then_notify env setting k w w1 c args :
  set_api_key setting = Some k ->
  main env setting w = (Ok tt, w1) ->
  parse_args c = Ok args ->
  raw_set_api_key c = None ->
  raw_api_key c = None ->
  main env args w1 = submitted env (fields_of env args (JStr k)) w1
  /\ field "apikey" (fields_of env args (JStr k)) = Some (JStr k).
Proof.
  intros Hsetting Hmain Hparse Hset Hkey.
  split; [|apply field_iter_arguments].
  revert Hmain. unfold main at 1. rewrite Hsetting. unfold bind.
  destruct (Settings.set "default-api-key" (JStr k) (Settings.init (settings_path env)) w)
    as [[self'|] w'] eqn:Hstore; [|discriminate].
  unfold ret. intros [= ->].
  destruct (set_result_loaded "default-api-key" (JStr k)
              (Settings.init (settings_path env)) w self' w1 I I Hstore)
    as (loaded & m & _ & _ & Hwfm & _ & Hfile & Hlimit).
  cbn [Settings._path Settings.init] in Hfile.
  assert (wf_json (JDict (Json.dict_set m "default-api-key" (JStr k)))) as Hwf'.
  { now apply dict_set_wf. }
  pose proof (get_from_file (settings_path env) "default-api-key" JNull w1 _ _ _
                Hfile (decode_encode _) (loads_dumps _ Hwf' Hlimit)) as Hget.
  rewrite dict_get_set in Hget.
  destruct (parse_args_options c args Hparse) as (_ & _ & _ & Hk & Hs).
  rewrite Hset in Hs. rewrite Hkey in Hk.
  now rewrite (main_stored_key env args w1 (JStr k) _ w1 Hs Hk Hget).
Qed.

(** X15: without an API key on the command line and without a stored one
    (no settings file, or a file whose object has no value but null for
    [default-api-key]), the run prints the missing-key message and exits
    with status 1; nothing is sent and no file is created. *)
Theorem missing_key_reported env c args w :
  parse_args c = Ok args ->
  raw_set_api_key c = None ->
  raw_api_key c = None ->
  (fs w !! settings_path env = None
   \/ exists data m,
        fs w !! settings_path env = Some (File data)
        /\ load_text data = Ok (JDict m)
        /\ Json.dict_get m "default-api-key" JNull = JNull) ->
  script_main env c w
  = (Raise (SystemExit 1),
     {| fs := fs w;
        stderr := stderr w
                  ++ [program_name env
                      ++ ": Error: --api-key is mandatory if because default API key has been set."];
        posted := posted w |}).
Proof.
  intros Hparse Hset Hkey Hstore.
  destruct (parse_args_options c args Hparse) as (_ & _ & _ & Hk & Hs).
  rewrite Hset in Hs. rewrite Hkey in Hk.
  assert (exists self, Settings.get "default-api-key" JNull
                         (Settings.init (settings_path env)) w = (Ok (JNull, self), w))
    as [self Hget].
  { destruct Hstore as [Hnone | (data & m & Hfile & Hload & Hnull)].
    - eexists. now apply get_without_file.
    - unfold load_text in Hload.
      destruct (Utf8.decode data) as [text|] eqn:Hdec; [|discriminate].
      eexists. rewrite (get_from_file _ _ _ _ _ _ _ Hfile Hdec Hload), Hnull. reflexivity. }
  pose proof (main_stored_key env args w JNull self w Hs Hk Hget) as Hmain.
  now rewrite (script_main_user_error env c w _ [] _
                 (eq_trans (run_of_accepted env c args w Hparse) Hmain)).
Qed.

(** ** The fields, in order *)

(** X16: the pairs [iter_arguments] yields have distinct names, so the
    dictionary made of them keeps every pair; the names come in the order
    apikey, application, url, event, description, priority; and each field
    that is present carries the value of its argument unchanged, the
    description being present exactly when it is a non-empty text. *)
Theorem request_in_order key a u e d p :
  let fields := Json.dict_of_pairs (iter_arguments key a u e d p) in
  fields = iter_arguments key a u e d p
  /\ NoDup (map fst fields)
  /\ sublist (map fst fields) field_names
  /\ field "apikey" fields = Some key
  /\ field "application" fields = Some (JStr a)
  /\ field "url" fields = JStr <$> u
  /\ field "event" fields = JStr <$> e
  /\ field "description" fields
     = match d with Some (String _ _ as t) => Some (JStr t) | _ => None end
  /\ field "priority" fields = (if p =? 0 then None else Some (JInt p)).
Proof.
  cbv zeta. rewrite dict_of_pairs_iter_arguments.
  split; [reflexivity|].
  split; [|split; [|apply field_iter_arguments]].
  - unfold iter_arguments.
    destruct u, e, d as [[|]|], (p =? 0); simpl;
      repeat (apply NoDup_cons_2;
              [rewrite ?elem_of_cons, elem_of_nil; intuition discriminate|]);
      apply NoDup_nil_2.
  - unfold iter_arguments, field_names.
    destruct u, e, d as [[|]|], (p =? 0); simpl;
      repeat first [apply sublist_nil | apply sublist_skip | apply sublist_cons].
Qed.

(** ** Exit status *)

Lemma mkdir_all_raises targets : forall (f : gmap string node) e,
  Os.mkdir_all targets f = Raise e -> forall code, e <> SystemExit code.
Proof.
  induction targets as [|t ts IH]; intros f e; [intros [= <-]; discriminate|].
  destruct ts as [|t' ts].
  - simpl. destruct (f !! t); [intros [= <-]; discriminate | discriminate].
  - change (Os.mkdir_all (t :: t' :: ts) f)
      with (match f !! t with
            | Some Dir => Os.mkdir_all (t' :: ts) f
            | Some (File _) => Raise (OSError "NotADirectoryError")
            | None => Os.mkdir_all (t' :: ts) (<[t := Dir]> f)
            end).
    destruct (f !! t) as [[|]|]; [intros [= <-]; discriminate | apply IH..].
Qed.

Lemma os_run_raises ops : forall (f f' : gmap string node) e,
  Os.run ops f = (Raise e, f') -> forall code, e <> SystemExit code.
Proof.
  induction ops as [|o ops IH]; intros f f' e; simpl; [discriminate|].
  destruct (Os.step o f) as [f1|e1] eqn:Hstep; [apply IH|].
  intros [= <- <-]. revert Hstep.
  destruct o; simpl;
    [apply mkdir_all_raises
    |unfold Os.open_wb | unfold Os.write | unfold Os.rename];
    repeat case_match; try discriminate; intros [= <-]; discriminate.
Qed.

Lemma decode_raises n : forall data e,
  (String.length data <= n)%nat -> Utf8.decode data = Raise e ->
  forall code, e <> SystemExit code.
Proof.
  induction n as [|n IH]; intros data e Hlen.
  - destruct data; [discriminate | simpl in Hlen; lia].
  - destruct data as [|b r]; [discriminate|]. simpl in Hlen. simpl Utf8.decode.
    destruct (Utf8.is_ascii b).
    + destruct (Utf8.decode r) eqn:Hr; [discriminate|].
      intros [= <-]. apply (IH r); [lia | exact Hr].
    + destruct r as [|b2 r']; [intros [= <-]; discriminate|].
      destruct (_ && _); [|intros [= <-]; discriminate].
      destruct (Utf8.decode r') eqn:Hr; [discriminate|].
      intros [= <-]. apply (IH r'); [simpl in Hlen; lia | exact Hr].
Qed.

Lemma loads_raises text e :
  Json.loads text = Raise e -> forall code, e <> SystemExit code.
Proof.
  unfold Json.loads. repeat case_match; try discriminate; intros [= <-]; discriminate.
Qed.

Lemma load_values_raises self w e w' :
  Settings._load_values self w = (Raise e, w') -> forall code, e <> SystemExit code.
Proof.
  unfold Settings._load_values.
  destruct (Settings._values self); try discriminate.
  destruct (Os.exists_ _ _); [|discriminate].
  unfold bind, read_file, Os.read, lift, ret.
  destruct (fs w !! Settings._path self) as [[data|]|];
    try (intros [= <- _]; discriminate).
  destruct (Utf8.decode data) as [text|e1] eqn:Hdec.
  - destruct (Json.loads text) as [v|e2] eqn:Hloads; [discriminate|].
    intros [= <- _]. now apply (loads_raises text).
  - intros [= <- _]. now apply (decode_raises _ data e1 (le_n _)).
Qed.

(** [main] raises errors of the user, interrupts, and the errors of the
    settings file, and never asks for the process to exit. *)
Lemma main_raises env args w e w' :
  main env args w = (Raise e, w') -> forall code, e <> SystemExit code.
Proof.
  destruct (set_api_key args) as [sk|] eqn:Hset.
  - unfold main. rewrite Hset. unfold bind, Settings.set. unfold bind at 1.
    destruct (Settings._load_values _ w) as [[loaded|e1] w1] eqn:Hload.
    + destruct (Settings._values loaded) eqn:Hv;
        try (unfold throw; intros [= <- _]; discriminate).
      unfold bind. rewrite save_values_cases by discriminate.
      cbn [Settings._values Settings._path].
      destruct (Json.within_limit _); [|intros [= <- _]; discriminate].
      unfold write_file.
      destruct (Os.run _ (fs w1)) as [[[]|e2] f2] eqn:Hrun; [discriminate|].
      intros [= <- _]. now apply (os_run_raises _ _ _ _ Hrun).
    + intros [= <- _]. now apply (load_values_raises _ _ _ _ Hload).
  - assert (forall fields, submitted env fields w = (Raise e, w') ->
                           forall code, e <> SystemExit code) as Hsub.
    { intros fields. unfold submitted, server_error, UserError_new.
      destruct (server env fields) as [[|] content|]; simpl;
        try discriminate; intros [= <- _]; discriminate. }
    destruct (api_key args) as [k|] eqn:Hk.
    + rewrite (main_given_key env args w k Hset Hk). apply Hsub.
    + destruct (Settings.get "default-api-key" JNull
                  (Settings.init (settings_path env)) w) as [[[v self]|e1] w1] eqn:Hget.
      * rewrite (main_stored_key env args w v self w1 Hset Hk Hget).
        destruct v; try apply Hsub. intros [= <- _]. discriminate.
      * rewrite (main_store_error env args w e1 w1 Hset Hk Hget). intros [= <- _].
        revert Hget. unfold Settings.get, bind.
        destruct (Settings._load_values _ w) as [[loaded|e2] w2] eqn:Hload.
        -- destruct (Settings._values loaded); unfold throw, ret;
             try discriminate; intros [= <- _]; discriminate.
        -- intros [= <- _]. now apply (load_values_raises _ _ _ _ Hload).
Qed.

(** X17: the exit status of a run is 0, 1 or 2, and it is 0 exactly when
    help was asked for, or the arguments were accepted and [main]
    returned.  On a command line without the help option the run is the
    one of [script_main]. *)
Theorem exit_status_values env i w :
  let status := exit_status (fst (script_main_argv env i w)) in
  (status = 0 \/ status = 1 \/ status = 2)
  /\ (status = 0 <->
      i = Help
      \/ exists c args w', i = Given c /\ parse_args c = Ok args
                           /\ main env args w = (Ok tt, w'))
  /\ (forall c, i = Given c -> script_main_argv env i w = script_main env c w).
Proof.
  cbv zeta. assert (forall A B : Prop, ~ A -> ~ B -> (A <-> B)) as Hiff by tauto.
  split; [|split; [|now intros c ->]].
  - destruct i as [|c]; [now left|].
    change (script_main_argv env (Given c) w) with (script_main env c w).
    destruct (parse_args c) as [args|e] eqn:Hparse.
    + unfold script_main. rewrite (run_of_accepted env c args w Hparse).
      destruct (main env args w) as [[[]|e] w'] eqn:Hmain; [now left|].
      pose proof (main_raises env args w e w' Hmain) as Hexit.
      destruct e as [msg a| |code|what|what|what|what|what];
        try (now destruct (Hexit code)); simpl; auto.
    + unfold script_main. unfold bind at 1, lift. rewrite Hparse.
      destruct (parse_args_raises c e Hparse) as [-> | (m & a & ->)]; simpl; auto.
  - destruct i as [|c]; [split; [now left | reflexivity]|].
    change (script_main_argv env (Given c) w) with (script_main env c w).
    destruct (parse_args c) as [args|e] eqn:Hparse.
    + unfold script_main. rewrite (run_of_accepted env c args w Hparse).
      destruct (main env args w) as [[[]|e] w'] eqn:Hmain.
      * split; [intros _; right; exists c, args, w'; auto | reflexivity].
      * pose proof (main_raises env args w e w' Hmain) as Hexit.
        destruct e as [msg a| |code|what|what|what|what|what];
          try (now destruct (Hexit code)); simpl;
          (apply Hiff;
           [discriminate
           |intros [[=] | (? & ? & ? & [= <-] & Hp & Hm)]; congruence]).
    + unfold script_main. unfold bind at 1, lift. rewrite Hparse.
      destruct (parse_args_raises c e Hparse) as [-> | (m & a & ->)]; simpl;
        (apply Hiff;
         [discriminate
         |intros [[=] | (? & ? & ? & [= <-] & Hp & _)]; congruence]).
Qed.

(** ** The further properties at given inputs *)

Lemma parse_args_shapes_witness :
  exists args,
    parse_args build_zero = Ok args
    /\ set_api_key args = None
    /\ in_range (priority args)
    /\ exists d, description args = Some d.
Proof.
  destruct (parse_args build_zero) as [args|] eqn:Hparse; [|discriminate].
  exists args. split; [reflexivity|].
  destruct (parse_args_shapes build_zero args Hparse)
    as (_ & [(Hs & Hd & Hr & _) | (k & Hk & _)]).
  - auto.
  - vm_compute in Hparse. injection Hparse as <-. discriminate Hk.
Defined.

Lemma get_default_without_file_witness :
  fs empty_world !! settings_path sample_env = None
  /\ Settings.get "default-api-key" (JStr "none")
       (Settings.init (settings_path sample_env)) empty_world
     = (Ok (JStr "none",
            {| Settings._path := settings_path sample_env; Settings._values := JDict [] |}),
        empty_world).
Proof.
  split; [reflexivity|].
  exact (proj1 (get_default_without_file (settings_path sample_env) "default-api-key"
                  (JStr "none") empty_world eq_refl)).
Defined.

Lemma unloadable_file_untouched_witness :
  let w := world_with_file "[1, 2]" in
  (fs w !! settings_path sample_env = Some (File "[1, 2]")
   /\ load_text "[1, 2]" = Ok (JList [JInt 1; JInt 2])
   /\ forall m, JList [JInt 1; JInt 2] <> JDict m)
  /\ (exists what,
        Settings.get "default-api-key" JNull
          (Settings.init (settings_path sample_env)) w = (Raise (AttributeError what), w))
  /\ (exists what,
        Settings.set "default-api-key" (JStr key40)
          (Settings.init (settings_path sample_env)) w = (Raise (TypeError what), w)).
Proof.
  intros w.
  assert (fs w !! settings_path sample_env = Some (File "[1, 2]")) as Hfile.
  { vm_compute. reflexivity. }
  assert (load_text "[1, 2]" = Ok (JList [JInt 1; JInt 2])) as Hload.
  { vm_compute. reflexivity. }
  assert (forall m, JList [JInt 1; JInt 2] <> JDict m) as Hkind by discriminate.
  split; [repeat split; assumption|].
  exact (unloadable_file_untouched (settings_path sample_env) "default-api-key"
           JNull (JStr key40) w "[1, 2]" (JList [JInt 1; JInt 2]) Hfile Hload Hkind).
Defined.

Lemma get_loads_once_witness :
  match Settings.get "default-api-key" JNull (Settings.init (settings_path sample_env))
          (world_with_default "xyz") with
  | (Ok (v, self'), _) =>
      v = JStr "xyz"
      /\ Settings.get "default-api-key" JNull self' empty_world
         = (Ok (JStr "xyz", self'), empty_world)
  | (Raise _, _) => False
  end.
Proof.
  destruct (Settings.get "default-api-key" JNull (Settings.init (settings_path sample_env))
              (world_with_default "xyz")) as [[[v self']|e] w'] eqn:Hget.
  - destruct (get_loads_once _ _ _ _ _ _ _ Hget) as (m & Hm & Hv & Hnext).
    assert (v = JStr "xyz") as Hxyz.
    { vm_compute in Hget. now injection Hget as <- _ _. }
    split; [exact Hxyz|]. rewrite Hnext, <- Hv. now rewrite Hxyz.
  - vm_compute in Hget. discriminate Hget.
Defined.

Lemma set_keeps_other_keys_witness :
  match Settings.set "default-api-key" (JStr key40) store_with_note world_with_dir with
  | (Ok self', w') =>
      Settings.get "note" JNull self' w' = (Ok (JStr "hi", self'), w')
      /\ Settings.get "note" JNull (Settings.init (settings_path sample_env)) w'
         = (Ok (JStr "hi", self'), w')
  | (Raise _, _) => False
  end.
Proof.
  destruct (Settings.set "default-api-key" (JStr key40) store_with_note world_with_dir)
    as [[self'|e] w'] eqn:Hset.
  - assert (wf_json (Settings._values store_with_note)) as Hwf.
    { apply wf_dict. split; [apply NoDup_singleton | repeat constructor]. }
    assert ("note" <> "default-api-key") as Hne by discriminate.
    destruct (set_keeps_other_keys "default-api-key" (JStr key40) "note" JNull
                store_with_note world_with_dir self' w' Hwf I Hne Hset)
      as (before & loaded & Hbefore & Hafter & Hreload).
    assert (before = JStr "hi") as ->.
    { vm_compute in Hbefore. now injection Hbefore as <- _. }
    split; [exact Hafter | exact Hreload].
  - vm_compute in Hset. discriminate Hset.
Defined.

Lemma set_twice_witness :
  match Settings.set "default-api-key" (JStr "first") sample_store world_with_dir with
  | (Ok s1, w1) =>
      match Settings.set "default-api-key" (JStr "second") s1 w1 with
      | (Ok s2, w2) =>
          Settings.get "default-api-key" JNull s2 w2 = (Ok (JStr "second", s2), w2)
      | (Raise _, _) => False
      end
  | (Raise _, _) => False
  end.
Proof.
  destruct (Settings.set "default-api-key" (JStr "first") sample_store world_with_dir)
    as [[s1|e] w1] eqn:Hset1; [|vm_compute in Hset1; discriminate Hset1].
  destruct (Settings.set "default-api-key" (JStr "second") s1 w1)
    as [[s2|e] w2] eqn:Hset2.
  - assert (wf_json (Settings._values sample_store)) as Hwf.
    { apply wf_dict. split; constructor. }
    destruct (set_twice "default-api-key" (JStr "first") (JStr "second") sample_store
                world_with_dir s1 w1 s2 w2 Hwf I I Hset1 Hset2)
      as (_ & _ & _ & _ & _ & _ & Hget).
    apply Hget.
  - vm_compute in Hset1. injection Hset1 as <- <-.
    vm_compute in Hset2. discriminate Hset2.
Defined.

Lemma set_then_get_witness :
  match Settings.set "default-api-key" (JStr key40) sample_store world_with_dir with
  | (Ok self', w') =>
      Settings.get "default-api-key" JNull self' w' = (Ok (JStr key40, self'), w')
      /\ Settings.get "default-api-key" JNull
           (Settings.init (Settings._path sample_store)) w'
         = (Ok (JStr key40, self'), w')
  | (Raise _, _) => False
  end.
Proof.
  destruct (Settings.set "default-api-key" (JStr key40) sample_store world_with_dir)
    as [[self'|e] w'] eqn:Hset.
  - assert (wf_json (Settings._values sample_store)) as Hwf.
    { simpl. split; [constructor | exact I]. }
    destruct (set_then_get "default-api-key" (JStr key40) sample_store world_with_dir
                self' w' Hwf I Hset) as (Hget & _ & _ & Hreload).
    split; [apply Hget | apply Hreload].
  - vm_compute in Hset. discriminate Hset.
Defined.

Lemma set_refuses_long_int_witness :
  (Settings._values sample_store = JDict []
   /\ 10 ^ Json.max_str_digits <= Z.abs (10 ^ 4300))
  /\ exists what,
       Settings.set "count" (JInt (10 ^ 4300)) sample_store world_with_dir
       = (Raise (ValueError what), world_with_dir).
Proof.
  assert (10 ^ Json.max_str_digits <= Z.abs (10 ^ 4300)) as Hlong.
  { rewrite Z.abs_eq by (apply Z.pow_nonneg; lia). apply Z.le_refl. }
  split; [split; [reflexivity | exact Hlong]|].
  exact (set_refuses_long_int "count" (10 ^ 4300) sample_store world_with_dir []
           eq_refl Hlong).
Defined.

Lemma write_file_frame_witness :
  let w := {| fs := <["/etc/hosts" := File "localhost"]> (fs world_with_dir);
              stderr := []; posted := [] |} in
  match write_file (settings_path sample_env) "{}" w with
  | (Ok _, w') => fs w' !! "/etc/hosts" = Some (File "localhost")
  | (Raise _, _) => False
  end.
Proof.
  intros w.
  destruct (write_file (settings_path sample_env) "{}" w) as [[[]|e] w'] eqn:Hwrite.
  - assert ("/etc/hosts" ∉ Os.ancestors (Os.dirname (settings_path sample_env))) as Hq.
    { assert (Os.ancestors (Os.dirname (settings_path sample_env))
              = ["/home"; "/home/alice"; "/home/alice/opt"; "/home/alice/opt/etc"])
        as -> by reflexivity.
      rewrite !elem_of_cons, elem_of_nil. intuition discriminate. }
    assert ("/etc/hosts" <> settings_path sample_env) as Hq1 by discriminate.
    assert ("/etc/hosts" <> settings_path sample_env ++ "~") as Hq2 by discriminate.
    destruct (write_file_frame _ _ _ _ "/etc/hosts" Hwrite Hq1 Hq2 Hq) as (Hfs & _).
    rewrite Hfs. vm_compute. reflexivity.
  - vm_compute in Hwrite. discriminate Hwrite.
Defined.

Lemma write_file_without_directory_witness :
  (Str.contains "/" "prowl.json" = false /\ fs empty_world !! "" = None)
  /\ write_file "prowl.json" "{}" empty_world
     = (Raise (OSError "FileNotFoundError"), empty_world).
Proof.
  split; [split; reflexivity|].
  exact (write_file_without_directory "prowl.json" "{}" empty_world eq_refl eq_refl).
Defined.

Lemma script_main_answered_witness :
  exists args,
    parse_args empty_positional = Ok args
    /\ script_main refusing_env empty_positional empty_world
       = (Raise (SystemExit 1),
          {| fs := ∅;
             stderr := ["prowl: Error: ('Error received from server: {}', b'denied')"];
             posted := [(endpoint, fields_of refusing_env args (JStr key40))] |}).
Proof.
  destruct (parse_args empty_positional) as [args|] eqn:Hparse; [|discriminate].
  exists args. split; [reflexivity|].
  exact (script_main_answered refusing_env empty_positional args empty_world (JStr key40)
           false "denied" Hparse eq_refl eq_refl eq_refl).
Defined.

Lemma script_main_interrupted_witness :
  exists args,
    parse_args empty_positional = Ok args
    /\ script_main interrupting_env empty_positional empty_world
       = (Raise (SystemExit 2),
          {| fs := ∅;
             stderr := ["prowl: Operation interrupted."];
             posted := [(endpoint, fields_of interrupting_env args (JStr key40))] |}).
Proof.
  destruct (parse_args empty_positional) as [args|] eqn:Hparse; [|discriminate].
  exists args. split; [reflexivity|].
  exact (script_main_interrupted interrupting_env empty_positional args empty_world
           (JStr key40) Hparse eq_refl eq_refl eq_refl).
Defined.

Lemma set_key_then_notify_witness :
  exists setting args,
    parse_args set_key_only = Ok setting
    /\ parse_args hello = Ok args
    /\ match main sample_env setting empty_world with
       | (Ok _, w1) =>
           main sample_env args w1
           = submitted sample_env (fields_of sample_env args (JStr key40)) w1
       | (Raise _, _) => False
       end.
Proof.
  destruct (parse_args set_key_only) as [setting|] eqn:Hsetting; [|discriminate].
  destruct (parse_args hello) as [args|] eqn:Hparse; [|discriminate].
  exists setting, args. split; [reflexivity|]. split; [reflexivity|].
  assert (set_api_key setting = Some key40) as Hkey.
  { vm_compute in Hsetting. now injection Hsetting as <-. }
  destruct (main sample_env setting empty_world) as [[[]|e] w1] eqn:Hmain.
  - exact (proj1 (set_key_then_notify sample_env setting key40 empty_world w1 hello args
                    Hkey Hmain Hparse eq_refl eq_refl)).
  - vm_compute in Hsetting. injection Hsetting as <-.
    vm_compute in Hmain. discriminate Hmain.
Defined.

Lemma missing_key_reported_witness :
  exists args,
    parse_args hello = Ok args
    /\ script_main sample_env hello empty_world
       = (Raise (SystemExit 1),
          {| fs := ∅;
             stderr := ["prowl: Error: --api-key is mandatory if because default API key has been set."];
             posted := [] |}).
Proof.
  destruct (parse_args hello) as [args|] eqn:Hparse; [|discriminate].
  exists args. split; [reflexivity|].
  exact (missing_key_reported sample_env hello args empty_world Hparse eq_refl eq_refl
           (or_introl eq_refl)).
Defined.
